(** * nvbio suffix sorting and BWT construction (sufsort module)

    A shallow embedding of [nvbio/sufsort/sufsort_inl.h] ([find_primary],
    [suffix_sort], [StringBWTHandler], the single-string [bwt],
    [LargeBWTStatus], [LargeBWTSkeleton] and the string-set [bwt] and
    [large_bwt]) and of [BWTParams] ([nvbio/sufsort/sufsort.h]), with the
    properties the specification states about them. The helpers of
    [sufsort_priv.h], [blockwise_sufsort.h] and
    [prefix_doubling_sufsort.h] that these functions call are modelled
    from their description and marked as such.

    Conventions.
    - [uint32] and [uint64] values are integers in [Z]; every addition,
      subtraction and narrowing conversion of the source on a value that
      depends on the input is followed by its reduction ([u32], [u64]).
      Bucket indices are the exception: they are bounded by
      [h_buckets.size()], which the callers fix to [1 << BUCKETING_BITS].
    - A device or host array reached through an iterator is a function
      from indices to symbols together with the list of copies made to
      it, in program order.
    - A loop whose trip count is not bounded by its entry state takes a
      fuel argument and reports [OutOfFuel] when it is exhausted. *)

From Stdlib Require Import ZArith List Bool Lia Permutation Sorted.
Import ListNotations.
Open Scope Z_scope.

(** ** Machine integers *)

Definition u32 (x : Z) : Z := x mod 2 ^ 32.
Definition u64 (x : Z) : Z := x mod 2 ^ 64.

(** [v[i]] for a vector of [uint32]; the index is in range at every use. *)
Definition at_ (v : list Z) (i : Z) : Z := nth (Z.to_nat i) v 0.

(** [v.size()] *)
Definition size {A : Type} (v : list A) : Z := Z.of_nat (length v).

(** The integers [start, start + 1, ..., start + n - 1]. *)
Definition zrange (start : Z) (n : nat) : list Z :=
  map (fun k => start + Z.of_nat k) (seq 0 n).

(** ** BWTParams *)

Record BWTParams : Type := mkBWTParams {
  host_memory   : Z;   (* uint64 *)
  device_memory : Z    (* uint64 *)
}.

(** [BWTParams() : host_memory(8u*1024u*1024u*1024llu),
                   device_memory(2u*1024u*1024u*1024llu) {}]:
    the first two products are [unsigned int], the last one is
    [unsigned long long]. *)
Definition BWTParams_default : BWTParams :=
  {| host_memory   := u64 (u32 (u32 (8 * 1024) * 1024) * 1024);
     device_memory := u64 (u32 (u32 (2 * 1024) * 1024) * 1024) |}.

Definition GiB : Z := 1024 * 1024 * 1024.
Definition MiB : Z := 1024 * 1024.

(** ** LargeBWTStatus *)

Definition OK : Z := 0.
Definition LargeBucket : Z := 1.

(** The constructor initialises [code] only; the two other fields are
    read by the callers after [LargeBucket] has been recorded, never
    before, and are given the value 0 until then. *)
Record LargeBWTStatus : Type := mkStatus {
  code         : Z;
  bucket_size  : Z;
  bucket_index : Z
}.

Definition LargeBWTStatus_default : LargeBWTStatus :=
  {| code := OK; bucket_size := 0; bucket_index := 0 |}.

(** [operator bool() const { return code == OK ? true : false; }] *)
Definition status_bool (s : LargeBWTStatus) : bool :=
  if code s =? OK then true else false.

(** ** Outcomes of the string-set pipeline *)

(** The three [nvbio::runtime_error] messages of the file, with their
    arguments. *)
Inductive error : Type :=
| BufferOverflow (bucket count : Z)
    (* "bucket %u contains %u strings: buffer overflow!" *)
| Overflow (bucket count : Z)
    (* "bucket %u contains %u strings: overflow!" *)
| DeviceMemoryLimit (subbucket count min_device_MB : Z).
    (* "subbucket %u contains %u strings: buffer overflow!
        please try increasing the device memory limit to at least %u MB" *)

Inductive outcome (A : Type) : Type :=
| Returned (a : A)
| Thrown (e : error)
| OutOfFuel.
Arguments Returned {A} a.
Arguments Thrown {A} e.
Arguments OutOfFuel {A}.

(** ** Configuration of a bucketing width ([HostBWTConfig], [DeviceBWTConfig]) *)

Record BWTConfig : Type := mkConfig {
  WORD_BITS      : Z;
  BUCKETING_BITS : Z
}.

(** [DOLLAR_BITS = WORD_BITS <= 32 ? 4 : 5] *)
Definition DOLLAR_BITS (cfg : BWTConfig) : Z :=
  if WORD_BITS cfg <=? 32 then 4 else 5.

(** [DOLLAR_MASK = (1u << DOLLAR_BITS) - 1u] *)
Definition DOLLAR_MASK (cfg : BWTConfig) : Z :=
  u32 (u32 (Z.shiftl 1 (DOLLAR_BITS cfg)) - 1).

Definition config_type_16 (word_bits : Z) : BWTConfig := mkConfig word_bits 16.
Definition config_type_20 (word_bits : Z) : BWTConfig := mkConfig word_bits 20.
Definition config_type_24 (word_bits : Z) : BWTConfig := mkConfig word_bits 24.

(** The test the source writes as [(b & DOLLAR_MASK) == DOLLAR_MASK]:
    it holds of the buckets that are NOT short-string buckets. *)
Definition not_short_string (mask b : Z) : bool := Z.land b mask =? mask.

(** ** LargeBWTSkeleton::max_subbucket_size *)

Section Subbuckets.

Variable h_buckets : list Z.
Variable max_super_block_size : Z.
Variable mask : Z.

(** [for (bucket_size = 0;
         (bucket_end < h_buckets.size()) &&
         (bucket_size + h_buckets[bucket_end] <= max_super_block_size);
         ++bucket_end)
        bucket_size += h_buckets[bucket_end];]
    [n] bounds the number of buckets left, [h_buckets.size() - bucket_end]. *)
Fixpoint grow_block (limit : Z) (upto : Z) (n : nat) (bucket_end bucket_size : Z)
  : Z * Z :=
  match n with
  | O => (bucket_end, bucket_size)
  | S n' =>
      if (bucket_end <? upto)
         && (u32 (bucket_size + at_ h_buckets bucket_end) <=? limit)
      then grow_block limit upto n' (bucket_end + 1)
                      (u32 (bucket_size + at_ h_buckets bucket_end))
      else (bucket_end, bucket_size)
  end.

Definition grow_super_block (bucket_begin : Z) : Z * Z :=
  grow_block max_super_block_size (size h_buckets)
             (Z.to_nat (size h_buckets - bucket_begin)) bucket_begin 0.

(** Body of the loop through the sub-buckets:
    [if ((subbucket & DOLLAR_MASK) == DOLLAR_MASK)
         if (max_size < h_buckets[subbucket])
             { max_size = h_buckets[subbucket]; max_index = subbucket; }] *)
Definition track_subbucket (subbucket : Z) (acc : Z * Z) : Z * Z :=
  let '(max_size, max_index) := acc in
  if not_short_string mask subbucket then
    if max_size <? at_ h_buckets subbucket
    then (at_ h_buckets subbucket, subbucket)
    else (max_size, max_index)
  else (max_size, max_index).

(** [for (subbucket = bucket_begin; subbucket < bucket_end; ++subbucket)] *)
Fixpoint scan_subbuckets (n : nat) (subbucket : Z) (acc : Z * Z) : Z * Z :=
  match n with
  | O => acc
  | S n' => scan_subbuckets n' (subbucket + 1) (track_subbucket subbucket acc)
  end.

(** [for (bucket_begin = 0, bucket_end = 0; bucket_begin < h_buckets.size();
         bucket_begin = bucket_end)] *)
Fixpoint max_subbucket_loop (fuel : nat) (bucket_begin : Z) (acc : Z * Z)
  : outcome (Z * Z) :=
  if bucket_begin <? size h_buckets then
    match fuel with
    | O => OutOfFuel
    | S fuel' =>
        let '(bucket_end, _) := grow_super_block bucket_begin in
        if bucket_end =? bucket_begin
        then Thrown (BufferOverflow bucket_begin (at_ h_buckets bucket_begin))
        else max_subbucket_loop fuel' bucket_end
               (scan_subbuckets (Z.to_nat (bucket_end - bucket_begin))
                                bucket_begin acc)
    end
  else Returned acc.

(** The function returns [max_size] and updates [*status]. *)
Definition max_subbucket_size (limit : Z) (status : LargeBWTStatus)
  : outcome (Z * LargeBWTStatus) :=
  match max_subbucket_loop (length h_buckets) 0 (0, 0) with
  | Returned (max_size, max_index) =>
      if max_size >? limit
      then Returned (max_size,
                     {| code := LargeBucket;
                        bucket_size := max_size;
                        bucket_index := max_index |})
      else Returned (max_size, status)
  | Thrown e => Thrown e
  | OutOfFuel => OutOfFuel
  end.

End Subbuckets.

(** ** LargeBWTSkeleton::build_subbuckets *)

(** [v[i] = x] on a host vector. *)
Fixpoint set_nth (v : list Z) (i : nat) (x : Z) : list Z :=
  match v, i with
  | [], _ => []
  | _ :: v', O => x :: v'
  | y :: v', S i' => y :: set_nth v' i' x
  end.

Definition set_at (v : list Z) (i x : Z) : list Z := set_nth v (Z.to_nat i) x.

Section BuildSubbuckets.

Variable h_buckets : list Z.
Variable mask : Z.
Variable max_block_size : Z.

(** [for (subbucket_size = 0;
         (subbucket_end < bucket_end) &&
         (subbucket_size + h_buckets[subbucket_end] <= max_block_size);
         ++subbucket_end)
    {
        subbucket_size += h_buckets[subbucket_end];
        h_subbuckets[ subbucket_end ] = subbucket_begin;
    }] *)
Fixpoint point_subbuckets (bucket_end subbucket_begin : Z) (n : nat)
    (subbucket_end subbucket_size : Z) (h_subbuckets : list Z) : Z * list Z :=
  match n with
  | O => (subbucket_end, h_subbuckets)
  | S n' =>
      if (subbucket_end <? bucket_end)
         && (u32 (subbucket_size + at_ h_buckets subbucket_end) <=? max_block_size)
      then point_subbuckets bucket_end subbucket_begin n' (subbucket_end + 1)
             (u32 (subbucket_size + at_ h_buckets subbucket_end))
             (set_at h_subbuckets subbucket_end subbucket_begin)
      else (subbucket_end, h_subbuckets)
  end.

(** [for (subbucket_begin = bucket_begin, subbucket_end = bucket_begin;
         subbucket_begin < bucket_end; subbucket_begin = subbucket_end)] *)
Fixpoint build_subbuckets_block (fuel : nat) (bucket_end subbucket_begin : Z)
    (h_subbuckets : list Z) : outcome (list Z) :=
  if subbucket_begin <? bucket_end then
    match fuel with
    | O => OutOfFuel
    | S fuel' =>
        if at_ h_buckets subbucket_begin >? max_block_size then
          if not_short_string mask subbucket_begin
          then Thrown (BufferOverflow subbucket_begin (at_ h_buckets subbucket_begin))
          else build_subbuckets_block fuel' bucket_end (subbucket_begin + 1)
                 (set_at h_subbuckets subbucket_begin subbucket_begin)
        else
          let '(subbucket_end, h_subbuckets') :=
            point_subbuckets bucket_end subbucket_begin
              (Z.to_nat (bucket_end - subbucket_begin)) subbucket_begin 0
              h_subbuckets in
          build_subbuckets_block fuel' bucket_end subbucket_end h_subbuckets'
    end
  else Returned h_subbuckets.

Variable max_super_block_size : Z.

Fixpoint build_subbuckets_loop (fuel : nat) (bucket_begin : Z)
    (h_subbuckets : list Z) : outcome (list Z) :=
  if bucket_begin <? size h_buckets then
    match fuel with
    | O => OutOfFuel
    | S fuel' =>
        let '(bucket_end, _) :=
          grow_super_block h_buckets max_super_block_size bucket_begin in
        if bucket_end =? bucket_begin
        then Thrown (BufferOverflow bucket_begin (at_ h_buckets bucket_begin))
        else
          match build_subbuckets_block (length h_buckets) bucket_end
                  bucket_begin h_subbuckets with
          | Returned h_subbuckets' =>
              build_subbuckets_loop fuel' bucket_end h_subbuckets'
          | Thrown e => Thrown e
          | OutOfFuel => OutOfFuel
          end
    end
  else Returned h_subbuckets.

Definition build_subbuckets (h_subbuckets : list Z) : outcome (list Z) :=
  build_subbuckets_loop (length h_buckets) 0 h_subbuckets.

End BuildSubbuckets.

(** ** The output handler of the string-set pipeline

    Every [output.process(n_suffixes, h_bwt, d_bwt, h_suffixes,
    d_suffixes, d_indices)] call is recorded, in program order, with the
    place of [enact] that made it. *)
Inductive emission : Type :=
| DollarBlock (block_begin block_end : Z) (h_block_bwt : list Z)
    (* the last symbol of the strings [block_begin, block_end);
       no suffixes, no indices *)
| DirectBlock (bucket offset n_suffixes : Z)
    (* [n_suffixes] suffixes of one bucket, read at [h_suffixes + offset]
       in collection order; [d_indices == NULL] *)
| SortedBlock (subbucket_begin subbucket_end offset n_suffixes : Z).
    (* the buckets [subbucket_begin, subbucket_end) after
       [string_sorter.sort]; [d_indices] is the sorting permutation *)

Definition sink : Type := list emission.

(** State (the calls received by the handler so far) and errors. *)
Definition M (A : Type) : Type := sink -> outcome A * sink.

Definition ret {A : Type} (a : A) : M A := fun s => (Returned a, s).

Definition bind {A B : Type} (m : M A) (k : A -> M B) : M B :=
  fun s =>
    match m s with
    | (Returned a, s') => k a s'
    | (Thrown e, s') => (Thrown e, s')
    | (OutOfFuel, s') => (OutOfFuel, s')
    end.

Definition process (e : emission) : M unit := fun s => (Returned tt, s ++ [e]).
Definition throw {A : Type} (e : error) : M A := fun s => (Thrown e, s).
Definition out_of_fuel {A : Type} : M A := fun s => (OutOfFuel, s).
Definition lift {A : Type} (o : outcome A) : M A := fun s => (o, s).

Declare Scope sink_scope.
Delimit Scope sink_scope with sink.
Notation "x <- m ;; k" := (bind m (fun x => k))
  (at level 61, m at next level, right associativity) : sink_scope.
Notation "m ;; k" := (bind m (fun _ => k))
  (at level 61, right associativity) : sink_scope.
Open Scope sink_scope.

(** ** LargeBWTSkeleton::enact *)

(** A string set: the strings, in index order, each a list of symbols. *)
Definition string_set_type : Type := list (list Z).

(** Modelled from the spec: [string_set_handler.dollar_bwt(block_begin,
    block_end, h_block_bwt)]; the handler classes ([HostStringSetRadices],
    [DeviceStringSetRadices]) are not among the sources. Section 4.7,
    step 1: "for string k, the symbol is the last symbol of string k
    (the predecessor of that string's $)". *)
Definition last_symbol (string_set : string_set_type) (k : Z) : Z :=
  last (nth (Z.to_nat k) string_set []) 0.

Definition dollar_bwt (string_set : string_set_type) (block_begin block_end : Z)
  : list Z :=
  map (last_symbol string_set)
      (zrange block_begin (Z.to_nat (block_end - block_begin))).

(** [const uint32 max_super_block_size = params ?
        (params->host_memory - (128u*1024u*1024u)) / 8u : 512*1024*1024;]
    The subtraction and the division are [uint64]; the initialisation
    narrows to [uint32]. *)
Definition max_super_block_size_of (params : option BWTParams) : Z :=
  match params with
  | Some p => u32 (u64 (host_memory p - u32 (u32 (128 * 1024) * 1024)) / 8)
  | None => 512 * 1024 * 1024
  end.

(** [uint32 max_block_size = params ?
        params->device_memory / 32 : 32*1024*1024;] *)
Definition max_block_size_of (params : option BWTParams) : Z :=
  match params with
  | Some p => u32 (device_memory p / 32)
  | None => 32 * 1024 * 1024
  end.

Definition optimal_block_size : Z := 32 * 1024 * 1024.

Section Enact.

(** The counting pass ([bucketer.count] on every chunk, merged into
    [d_buckets]) belongs to [SetSuffixBucketer], which is not among the
    sources: the global histogram it leaves in [h_buckets] is a parameter,
    one list of [1 << BUCKETING_BITS] counters per configuration. *)
Variable count_buckets : BWTConfig -> string_set_type -> list Z.

Variable string_set : string_set_type.

(** [for (block_begin = 0; block_begin < N; block_begin += block_size)]:
    output the last character of each string. *)
Fixpoint dollar_prefix_loop (fuel : nat) (N block_size block_begin : Z) : M unit :=
  if block_begin <? N then
    match fuel with
    | O => out_of_fuel
    | S fuel' =>
        let block_end := Z.min (u32 (block_begin + block_size)) N in
        process (DollarBlock block_begin block_end
                   (dollar_bwt string_set block_begin block_end)) ;;
        dollar_prefix_loop fuel' N block_size (u32 (block_begin + block_size))
    end
  else ret tt.

Section SuperBlock.

Variable h_buckets : list Z.
Variable mask : Z.
Variable max_block_size : Z.

(** Chop the bucket in multiple blocks:
    [for (block_begin = 0; block_begin < subbucket_size;
          block_begin += max_block_size)] *)
Fixpoint direct_emit_loop (fuel : nat) (bucket subbucket_size suffix_count
    block_begin : Z) : M unit :=
  if block_begin <? subbucket_size then
    match fuel with
    | O => out_of_fuel
    | S fuel' =>
        let block_end := Z.min (u32 (block_begin + max_block_size)) subbucket_size in
        let n_suffixes := u32 (block_end - block_begin) in
        process (DirectBlock bucket (u32 (suffix_count + block_begin)) n_suffixes) ;;
        direct_emit_loop fuel' bucket subbucket_size suffix_count
                         (u32 (block_begin + max_block_size))
    end
  else ret tt.

(** [for (subbucket_begin = bucket_begin, subbucket_end = bucket_begin;
         subbucket_begin < bucket_end; subbucket_begin = subbucket_end)];
    the result is the final [suffix_count]. *)
Fixpoint sort_subbuckets (fuel : nat) (bucket_end subbucket_begin suffix_count : Z)
  : M Z :=
  if subbucket_begin <? bucket_end then
    match fuel with
    | O => out_of_fuel
    | S fuel' =>
        if at_ h_buckets subbucket_begin >? max_block_size then
          if not_short_string mask subbucket_begin
          then throw (Overflow subbucket_begin (at_ h_buckets subbucket_begin))
          else
            let subbucket_end := subbucket_begin + 1 in
            let subbucket_size := at_ h_buckets subbucket_begin in
            direct_emit_loop fuel subbucket_begin subbucket_size suffix_count 0 ;;
            sort_subbuckets fuel' bucket_end subbucket_end
                            (u32 (suffix_count + subbucket_size))
        else
          let '(subbucket_end, subbucket_size) :=
            grow_block h_buckets max_block_size bucket_end
                       (Z.to_nat (bucket_end - subbucket_begin))
                       subbucket_begin 0 in
          if subbucket_size =? 0
          then sort_subbuckets fuel' bucket_end subbucket_end suffix_count
          else
            process (SortedBlock subbucket_begin subbucket_end suffix_count
                                 subbucket_size) ;;
            sort_subbuckets fuel' bucket_end subbucket_end
                            (u32 (suffix_count + subbucket_size))
    end
  else ret suffix_count.

Variable max_super_block_size : Z.

(** [for (bucket_begin = 0, bucket_end = 0; bucket_begin < h_buckets.size();
         bucket_begin = bucket_end)]: collect a super-block of buckets (the
    collection fills [h_suffixes] and calls no handler), then sort and
    emit its sub-buckets. *)
Fixpoint super_block_loop (fuel : nat) (bucket_begin global_suffix_offset : Z)
  : M unit :=
  if bucket_begin <? size h_buckets then
    match fuel with
    | O => out_of_fuel
    | S fuel' =>
        let '(bucket_end, _) :=
          grow_super_block h_buckets max_super_block_size bucket_begin in
        suffix_count <- sort_subbuckets fuel bucket_end bucket_begin 0 ;;
        super_block_loop fuel' bucket_end
                         (u64 (global_suffix_offset + suffix_count))
    end
  else ret tt.

End SuperBlock.

Definition enact (cfg : BWTConfig) (params : option BWTParams) (fuel : nat)
  : M LargeBWTStatus :=
  let N := size string_set in
  let status := LargeBWTStatus_default in
  let max_super_block_size := max_super_block_size_of params in
  let max_block_size := max_block_size_of params in
  (* output the last character of each string *)
  let block_size := max_block_size / 4 in
  dollar_prefix_loop fuel N block_size 0 ;;
  (* count, then compute the largest non-elementary bucket *)
  let h_buckets := count_buckets cfg string_set in
  r <- lift (max_subbucket_size h_buckets max_super_block_size (DOLLAR_MASK cfg)
                                max_block_size status) ;;
  let '(largest_subbucket, status) := r in
  if negb (status_bool status) then ret status
  else
    (* reduce the scratchpads size if possible *)
    let max_block_size :=
      if largest_subbucket <=? optimal_block_size
      then optimal_block_size else max_block_size in
    _ <- lift (build_subbuckets h_buckets (DOLLAR_MASK cfg) max_block_size
                 max_super_block_size
                 (repeat 0 (length h_buckets))) ;;
    super_block_loop h_buckets (DOLLAR_MASK cfg) max_block_size
                     max_super_block_size fuel 0 0 ;;
    ret status.

(** ** The two string-set entry points *)

(** [util::divide_ri(x, y)]: the quotient rounded up, as the documentation
    of the library uses it ([n_blocks = util::divide_ri(vec.size(),
    blockdim)]). *)
Definition divide_ri (x y : Z) : Z := u32 (u32 (x + u32 (y - 1)) / y).

(** [if (status = enact<16>(...)) return;
     if (status = enact<20>(...)) return;
     if (status = enact<24>(...)) return;
     if (status.code == LargeBucket) throw runtime_error(...)] *)
Definition escalate (word_bits : Z) (params : option BWTParams) (fuel : nat)
  : M unit :=
  status <- enact (config_type_16 word_bits) params fuel ;;
  if status_bool status then ret tt
  else
    status <- enact (config_type_20 word_bits) params fuel ;;
    if status_bool status then ret tt
    else
      status <- enact (config_type_24 word_bits) params fuel ;;
      if status_bool status then ret tt
      else if code status =? LargeBucket
      then throw (DeviceMemoryLimit (bucket_index status) (bucket_size status)
                    (u32 (divide_ri (bucket_size status) (u32 (1024 * 1024)) * 32)))
      else ret tt.

(** [cuda::bwt] on a device-side string set ([DeviceBWTConfig]). *)
Definition bwt_string_set := escalate.

(** [large_bwt] on a host-side string set ([HostBWTConfig]); the two
    functions differ in the chunk loader and the radix handler only. *)
Definition large_bwt := escalate.

End Enact.

(** ** Single strings: suffixes and their order *)

(** A string is the list of its symbols; [string[i]] for an in-range [i]. *)
Definition string_at (string : list Z) (i : Z) : Z := nth (Z.to_nat i) string 0.

(** The suffix starting at position [p]. *)
Definition suffix (string : list Z) (p : Z) : list Z := skipn (Z.to_nat p) string.

Section Lex.

Context {A : Type}.
Variable ltb : A -> A -> bool.

(** Lexicographic order; a proper prefix comes first, which is the
    order of the texts followed by an end-marker smaller than every
    symbol. *)
Fixpoint lex_leb (a b : list A) : bool :=
  match a, b with
  | [], _ => true
  | _ :: _, [] => false
  | x :: a', y :: b' =>
      if ltb x y then true
      else if ltb y x then false
      else lex_leb a' b'
  end.

End Lex.

Section Sort.

Context {A : Type}.
Variable leb : A -> A -> bool.

Fixpoint insert_sorted (x : A) (l : list A) : list A :=
  match l with
  | [] => [x]
  | y :: l' => if leb x y then x :: y :: l' else y :: insert_sorted x l'
  end.

Fixpoint isort (l : list A) : list A :=
  match l with
  | [] => []
  | x :: l' => insert_sorted x (isort l')
  end.

End Sort.

Definition suffix_leb (string : list Z) (p q : Z) : bool :=
  lex_leb Z.ltb (suffix string p) (suffix string q).

(** Modelled from the spec: [priv::string_suffix_less] ([sufsort_priv.h]
    is not among the sources). Section 4.3: the comparison of suffixes
    "matches lexicographic order with DOLLAR < any symbol"; the functor
    is the strict order. *)
Definition string_suffix_less (string : list Z) (p q : Z) : bool :=
  negb (suffix_leb string q p).

(** The suffix array of the proper suffixes: the positions [0, N) in
    the order of their suffixes. *)
Definition sorted_suffixes (string : list Z) : list Z :=
  isort (suffix_leb string) (zrange 0 (length string)).

(** ** cuda::find_primary *)

(** [transform_reduce(counting(1u), counting(0u) + string_len,
        bind_second(string_suffix_less(string_len, string), 0u),
        0u, plus<uint32>()) + 1u] *)
Definition find_primary (string_len : Z) (string : list Z) : Z :=
  u32 (fold_left
         (fun acc p => u32 (acc + (if string_suffix_less string p 0 then 1 else 0)))
         (zrange 1 (Z.to_nat (string_len - 1))) 0
       + 1).

(** ** Device arrays *)

Record buffer : Type := mkBuffer {
  cells  : Z -> Z;
  copies : list (Z * list Z)   (* (offset, symbols) of every copy, oldest first *)
}.

(** [v[i]] for a device vector. *)
Definition vector_at (v : list Z) (i : Z) : Z := nth (Z.to_nat i) v 0.

(** Modelled from the spec: [priv::device_copy(n, input, output, offset)]
    ([sufsort_priv.h] is not among the sources): the sink's write and
    re-write of a batch (section 4.5, steps 4e and 5), [output[offset + i]
    = input[i]] for [i] in [0, n). *)
Definition device_copy (n : Z) (input : Z -> Z) (output : buffer) (offset : Z)
  : buffer :=
  {| cells := fun j =>
       if (offset <=? j) && (j <? offset + n)
       then input (j - offset) else cells output j;
     copies := copies output ++ [(offset, map input (zrange 0 (Z.to_nat n)))] |}.

(** [output[i] = x] *)
Definition store (output : buffer) (i x : Z) : buffer :=
  {| cells := fun j => if j =? i then x else cells output j;
     copies := copies output ++ [(i, [x])] |}.

(** The symbols [offset, offset + n) of an array. *)
Definition read (output : buffer) (offset : Z) (n : nat) : list Z :=
  map (cells output) (zrange offset n).

(** ** StringBWTHandler *)

(** The value that marks the dollar in a block of BWT symbols
    ([thrust::find(..., 255u)], "check if there is a $ sign"). *)
Definition DOLLAR : Z := 255.

(** Modelled from the spec: [priv::string_bwt_functor] ([sufsort_priv.h]
    is not among the sources). Section 4.5, step 4c: "for each sorted
    position p, compute bwt[slot] = (p == 0) ? DOLLAR : T[p-1]". *)
Definition string_bwt_functor (string_len : Z) (string : list Z) (p : Z) : Z :=
  if p =? 0 then DOLLAR else string_at string (p - 1).

Record StringBWTHandler : Type := mkHandler {
  string_len  : Z;        (* uint32 *)
  string      : list Z;
  primary     : Z;        (* uint32 *)
  n_output    : Z;        (* uint32 *)
  output      : buffer;
  d_block_bwt : list Z
}.

(** [NULL_PRIMARY = uint32(-1)] *)
Definition NULL_PRIMARY : Z := u32 (-1).

Definition StringBWTHandler_new (len : Z) (s : list Z) (out : buffer)
  : StringBWTHandler :=
  {| string_len := len; string := s; primary := NULL_PRIMARY;
     n_output := 0; output := out; d_block_bwt := [] |}.

(** [thrust::find(first, first + n, x) - first] *)
Fixpoint find (block : list Z) (x : Z) : Z :=
  match block with
  | [] => 0
  | y :: block' => if y =? x then 0 else 1 + find block' x
  end.

(** [priv::alloc_storage(v, n)] followed by a write of the first [n]
    entries. *)
Definition overwrite (v block : list Z) : list Z :=
  block ++ skipn (length block) v.

Definition process_batch (h : StringBWTHandler) (n_suffixes : Z)
    (d_suffixes : list Z) : StringBWTHandler :=
  (* compute the bwt of the block *)
  let block := map (string_bwt_functor (string_len h) (string h))
                   (firstn (Z.to_nat n_suffixes) d_suffixes) in
  (* check if there is a $ sign *)
  let block_primary := u32 (find block DOLLAR) in
  {| string_len := string_len h;
     string := string h;
     primary := if block_primary <? n_suffixes
                then u32 (u32 (n_output h + block_primary) + 1)
                else primary h;
     n_output := u32 (n_output h + n_suffixes);
     output := device_copy n_suffixes (vector_at block) (output h)
                           (u32 (n_output h + 1));
     d_block_bwt := overwrite (d_block_bwt h) block |}.

(** ** Blockwise suffix sorting *)

(** Modelled from the spec: [blockwise_suffix_sort] ([blockwise_sufsort.h]
    is not among the sources; its declaration documents the handler
    interface). Section 4.5, steps 3 and 4: the positions [0, N) are
    partitioned into buckets by their leading radix, here the leading
    symbol; for each bucket, in output order, the positions of the bucket
    are collected, sorted, and handed to the handler as one batch. With a
    difference cover no suffix is delayed, so [process_scattered] is
    never called. *)
Definition bucket_of (string : list Z) (p : Z) : Z := string_at string p.

Definition collect_bucket (string : list Z) (b : Z) : list Z :=
  filter (fun p => bucket_of string p =? b) (zrange 0 (length string)).

Definition sorted_bucket (string : list Z) (b : Z) : list Z :=
  isort (suffix_leb string) (collect_bucket string b).

Definition n_buckets : nat := 256.

Definition blockwise_batches (string : list Z) : list (list Z) :=
  map (sorted_bucket string) (zrange 0 n_buckets).

Definition blockwise_suffix_sort (string : list Z) (h : StringBWTHandler)
  : StringBWTHandler :=
  fold_left (fun h batch => process_batch h (size batch) batch)
            (blockwise_batches string) h.

(** ** cuda::bwt on a single string *)

Section StringBWT.

(** The width of [string_type::index_type], 32 or 64. *)
Variable index_bits : Z.

Definition idx (x : Z) : Z := x mod 2 ^ index_bits.

(** Shift back all symbols following the primary:
    [for (block_begin = primary; block_begin < string_len;
          block_begin += max_block_size)] *)
Fixpoint shift_loop (fuel : nat) (max_block_size len block_begin : Z)
    (h : StringBWTHandler) : option StringBWTHandler :=
  if block_begin <? len then
    match fuel with
    | O => None
    | S fuel' =>
        let block_end := Z.min (idx (block_begin + max_block_size)) len in
        let n := u32 (idx (block_end - block_begin)) in
        (* copy all symbols to a temporary buffer *)
        let temp := overwrite (d_block_bwt h)
                      (read (output h) (block_begin + 1) (Z.to_nat n)) in
        (* and copy the shifted block to the output *)
        let out := device_copy n (vector_at temp) (output h) block_begin in
        shift_loop fuel' max_block_size len (idx (block_begin + max_block_size))
          {| string_len := string_len h; string := string h;
             primary := primary h; n_output := n_output h;
             output := out; d_block_bwt := temp |}
    end
  else Some h.

(** [const uint32 max_block_size = 32*1024*1024;] *)
Definition shift_block_size : Z := 32 * 1024 * 1024.

(** The state of the handler when [blockwise_suffix_sort] returns. The
    difference cover ([blockwise_build]) is scratch data of the sorter
    and leaves the output untouched. *)
Definition bwt_sorted (len : Z) (s : list Z) (out : buffer) : StringBWTHandler :=
  (* encode the first BWT symbol explicitly *)
  let out := device_copy 1 (fun i => string_at s (len - 1 + i)) out (idx 0) in
  (* and build the rest of the BWT *)
  blockwise_suffix_sort s (StringBWTHandler_new (u32 len) s out).

(** The result is the returned primary and the output array. *)
Definition bwt (fuel : nat) (len : Z) (s : list Z) (out : buffer)
  : option (Z * buffer) :=
  let bwt_handler := bwt_sorted len s out in
  match shift_loop fuel shift_block_size len (idx (primary bwt_handler))
                   bwt_handler with
  | Some h => Some (idx (primary h), output h)
  | None => None
  end.

End StringBWT.

(** ** cuda::suffix_sort on a single string *)

(** Modelled from the spec: [PrefixDoublingSufSort::sort]
    ([prefix_doubling_sufsort.h] is not among the sources). The glossary:
    the suffix array is "the permutation of positions that sorts the
    suffixes of a string lexicographically"; it is written at the given
    output iterator. *)
Definition PrefixDoublingSufSort_sort (len : Z) (s : list Z) (out : buffer)
    (at_offset : Z) : buffer :=
  device_copy len (vector_at (sorted_suffixes s)) out at_offset.

(** [sufsort.sort(string_len, string, output + 1u);
     output[0] = string_len;] *)
Definition suffix_sort (len : Z) (s : list Z) (out : buffer) : buffer :=
  store (PrefixDoublingSufSort_sort len s out 1) 0 (u32 len).

(** ** The reference transform: sorted rotations of [T$] *)

Inductive tsym : Type :=
| Dollar
| Sym (c : Z).

(** [Dollar] is smaller than every symbol. *)
Definition tsym_ltb (a b : tsym) : bool :=
  match a, b with
  | Dollar, Sym _ => true
  | Sym x, Sym y => x <? y
  | _, Dollar => false
  end.

Definition rotation (text : list tsym) (i : nat) : list tsym :=
  skipn i text ++ firstn i text.

Definition rotations (text : list tsym) : list (list tsym) :=
  map (rotation text) (seq 0 (length text)).

Definition with_dollar (s : list Z) : list tsym := map Sym s ++ [Dollar].

(** The last column of the sorted rotations of [T$]. *)
Definition bwt_reference (s : list Z) : list tsym :=
  map (fun r => last r Dollar)
      (isort (lex_leb tsym_ltb) (rotations (with_dollar s))).


(** The position of the end-marker in a transformed text. *)
Fixpoint dollar_position (w : list tsym) : Z :=
  match w with
  | [] => 0
  | Dollar :: _ => 0
  | Sym _ :: w' => 1 + dollar_position w'
  end.

(** ** What the specification calls a memory-budget failure

    The status names a bucket of the histogram that is not a short-string
    bucket, holds more suffixes than the limit, and is a largest one
    among the buckets that are not short-string buckets. *)
Definition exceeds_budget (h_buckets : list Z) (mask limit : Z)
    (st : LargeBWTStatus) : Prop :=
  code st = LargeBucket
  /\ 0 <= bucket_index st < size h_buckets
  /\ not_short_string mask (bucket_index st) = true
  /\ at_ h_buckets (bucket_index st) = bucket_size st
  /\ bucket_size st > limit
  /\ forall k, 0 <= k < size h_buckets ->
       not_short_string mask k = true -> at_ h_buckets k <= bucket_size st.

(** The errors raised while one bucketing width is tried. *)
Definition bucket_error (e : error) : Prop :=
  match e with
  | BufferOverflow _ _ | Overflow _ _ => True
  | DeviceMemoryLimit _ _ _ => False
  end.

(** ** Runs of the pipeline

    [emits P E m]: whatever [m] does, it only appends calls that satisfy
    [P] to the handler, and it only throws errors that satisfy [E]. *)
Definition emits {A : Type} (P : emission -> Prop) (E : error -> Prop)
    (m : M A) : Prop :=
  forall s, exists evs,
    snd (m s) = s ++ evs
    /\ Forall P evs
    /\ forall e, fst (m s) = Thrown e -> E e.

(** The calls made after the dollar prefix: they carry suffixes. *)
Definition carries_suffixes (e : emission) : Prop :=
  match e with
  | DollarBlock _ _ _ => False
  | DirectBlock _ _ _ | SortedBlock _ _ _ _ => True
  end.

(** ** The dollar prefix of the output

    A block of the prefix, named by its range of string indices, and
    ranges that follow one another from [from] up to [to]. *)
Definition dollar_block (string_set : string_set_type) (r : Z * Z) : emission :=
  DollarBlock (fst r) (snd r) (dollar_bwt string_set (fst r) (snd r)).

Fixpoint chained (from : Z) (blocks : list (Z * Z)) (to : Z) : Prop :=
  match blocks with
  | [] => from = to
  | (block_begin, block_end) :: rest =>
      block_begin = from /\ block_begin < block_end /\ chained block_end rest to
  end.

(** ** Routing of the buckets of a super-block *)

(** The number of suffixes counted in a histogram. *)
Definition total (h_buckets : list Z) : Z := fold_right Z.add 0 h_buckets.



(** ** Auxiliary definitions of the proofs *)





(** ** Instances *)

(** The text "banana" and an output array filled with zeros. *)
Definition banana : list Z := [98; 97; 110; 97; 110; 97].
Definition zeros : buffer := mkBuffer (fun _ => 0) [].

(** A histogram in which bucket 0, a short-string bucket, holds 3
    suffixes, bucket 15 holds 4 and bucket 16 holds 2; and a set of three
    strings. *)
Definition small_histogram : list Z :=
  [3; 0; 0; 0; 0; 0; 0; 0; 0; 0; 0; 0; 0; 0; 0; 4; 2].
Definition three_strings : string_set_type := [[0; 1]; [2; 3]; [1]].

(** ** Tactics *)

(** Case analysis on the integer comparisons of a goal. *)
Ltac zbool :=
  repeat match goal with
         | |- context [?a <=? ?b] => destruct (Z.leb_spec a b)
         | |- context [?a <? ?b] => destruct (Z.ltb_spec a b)
         | |- context [?a =? ?b] => destruct (Z.eqb_spec a b)
         | H : context [?a <=? ?b] |- _ => destruct (Z.leb_spec a b)
         | H : context [?a <? ?b] |- _ => destruct (Z.ltb_spec a b)
         | H : context [?a =? ?b] |- _ => destruct (Z.eqb_spec a b)
         end;
  simpl in *; try reflexivity; try discriminate; try lia.

(** Closed arithmetic side conditions. *)
Ltac concrete :=
  repeat match goal with
         | |- _ /\ _ => split
         | |- Forall _ _ => constructor
         | |- (_ <= _)%nat => cbn; lia
         | |- _ <= _ => vm_compute; discriminate
         | |- _ < _ => vm_compute; reflexivity
         end.

(** ** Sums of bucket counters *)

(** The suffixes counted in the buckets [[a, b)]. *)
Definition range_sum (h_buckets : list Z) (a b : Z) : Z :=
  total (map (at_ h_buckets) (zrange a (Z.to_nat (b - a)))).

(** The counters of a histogram are [uint32] values, and adding one of
    them to a running size that is within [limit] does not wrap. *)
Definition fits (limit : Z) (h_buckets : list Z) : Prop :=
  Forall (fun x => 0 <= x /\ x + limit < 2 ^ 32) h_buckets.

(** ** The table of sub-bucket pointers *)

(** Entry [i] of a table points to the beginning [s] of the sub-bucket of
    bucket [i]: [s] is at or after [lo], the buckets [[s, i]] share the
    pointer, and they either fit a block together or [i] is an oversized
    short-string bucket on its own. *)
Definition subbucket_ok (h_buckets : list Z) (mask max_block_size : Z)
    (h_subbuckets : list Z) (lo i : Z) : Prop :=
  let s := at_ h_subbuckets i in
  lo <= s <= i
  /\ (forall j, s <= j <= i -> at_ h_subbuckets j = s)
  /\ (range_sum h_buckets s (i + 1) <= max_block_size
      \/ (s = i /\ at_ h_buckets i > max_block_size
          /\ not_short_string mask i = false)).

(** ** The blocks of suffixes handed to the output handler *)

(** [n_suffixes] of a call that carries suffixes. *)
Definition block_suffixes (e : emission) : Z :=
  match e with
  | DollarBlock _ _ _ => 0
  | DirectBlock _ _ n => n
  | SortedBlock _ _ _ n => n
  end.

(** The place of the block in the host buffer: [h_bucket_suffixes -
    &h_suffixes[0]]. *)
Definition block_offset (e : emission) : Z :=
  match e with
  | DollarBlock _ _ _ => 0
  | DirectBlock _ offset _ => offset
  | SortedBlock _ _ offset _ => offset
  end.

Definition emitted_suffixes (s : sink) : Z :=
  fold_right (fun e acc => block_suffixes e + acc) 0 s.

(** The number of strings covered by the dollar blocks of a run. *)
Definition dollar_strings (s : sink) : Z :=
  fold_right (fun e acc =>
                match e with
                | DollarBlock block_begin block_end _ =>
                    block_end - block_begin + acc
                | _ => acc
                end) 0 s.

(** The dollar prefix of a string set, as the handler receives it:
    dollar blocks only, which cover as many strings as the set holds. *)
Definition is_dollar_block (e : emission) : Prop :=
  match e with
  | DollarBlock _ _ _ => True
  | DirectBlock _ _ _ | SortedBlock _ _ _ _ => False
  end.

Definition dollar_prefix (string_set : string_set_type) (s : sink) : Prop :=
  Forall is_dollar_block s /\ dollar_strings s = size string_set.

(** Blocks of suffixes that follow one another in the host buffer, from
    [from] up to [to], each with at least one and at most
    [max_block_size] suffixes. *)
Fixpoint tiles (max_block_size from : Z) (s : sink) (to : Z) : Prop :=
  match s with
  | [] => from = to
  | e :: s' =>
      carries_suffixes e
      /\ block_offset e = from
      /\ 0 < block_suffixes e <= max_block_size
      /\ tiles max_block_size (from + block_suffixes e) s' to
  end.

(** The runs of blocks of the super-blocks: each run tiles the host
    buffer from its beginning, within [max_super_block_size] entries. *)
Definition super_block_runs (max_block_size max_super_block_size : Z)
    (runs : list sink) : Prop :=
  Forall (fun run => exists n, 0 <= n <= max_super_block_size
                               /\ tiles max_block_size 0 run n) runs.

(** ** Preconditions of one attempt

    The arithmetic of an attempt of [enact] on a histogram stays within
    32 bits, and the fuel covers its loops: the dollar prefix goes out in
    blocks of at least one string; no counter wraps when it is added to a
    super-block within the capacity; a block size added to the capacity
    does not wrap. *)
Definition attempt_ready (h_buckets : list Z) (string_set : string_set_type)
    (params : option BWTParams) (fuel : nat) : Prop :=
  0 < max_block_size_of params / 4
  /\ size string_set + max_block_size_of params / 4 <= 2 ^ 32
  /\ fits (max_super_block_size_of params) h_buckets
  /\ max_super_block_size_of params
     + Z.max optimal_block_size (max_block_size_of params) < 2 ^ 32
  /\ (length string_set <= fuel)%nat
  /\ 2 * size h_buckets
     + max_super_block_size_of params
       / Z.min optimal_block_size (max_block_size_of params) + 1
     <= Z.of_nat fuel.

(** The cases [k = c], [k = c + 1], ... of an index that the
    hypotheses bound. *)
Ltac by_cases_from k c :=
  first [ exfalso; lia
        | let c' := eval compute in (c + 1) in
          destruct (Z.eq_dec k c) as [-> | ?]; [ | by_cases_from k c' ] ].

Ltac by_cases k Hk :=
  match type of Hk with
  | _ <= k < size ?l =>
      let n := eval vm_compute in (size l) in
      change (size l) with n in Hk
  end;
  by_cases_from k 0.

(** A histogram in which bucket 15, which is not a short-string bucket,
    holds 5 suffixes; and parameters that leave room for 100 suffixes in
    a super-block and 4 in a block. *)
Definition tight_histogram : list Z :=
  [3; 0; 0; 0; 0; 0; 0; 0; 0; 0; 0; 0; 0; 0; 0; 5; 2].
Definition tight_params : BWTParams :=
  {| host_memory := 128 * 1024 * 1024 + 800; device_memory := 128 |}.

(** Closed side conditions on the buckets of a closed histogram. *)
Ltac settle := vm_compute; intros; congruence.

(** Counters that depend on the bucketing width: the 16-bit histogram
    has a bucket over the block size of [tight_params], the wider ones
    have none. *)
Definition widening_counts (cfg : BWTConfig) (string_set : string_set_type)
  : list Z :=
  if BUCKETING_BITS cfg =? 16 then tight_histogram else small_histogram.

(** ** The output handlers of [sufsort_utils.h] *)

(** [HostBWTHandler<OutputIterator>]: the BWT goes to a host string
    through an iterator that advances. *)
Module HostBWTHandler.

Record t : Type := mk {
  memory : Z -> Z;   (* the string the iterator was created on *)
  output : Z         (* the position of the iterator in it *)
}.

(** [for (uint32 i = 0; i < n_suffixes; ++i) output[i] = h_bwt[i];] *)
Fixpoint copy (n : nat) (i : Z) (h_bwt : Z -> Z) (h : t) : t :=
  match n with
  | O => h
  | S n' =>
      copy n' (i + 1) h_bwt
           {| memory := fun j => if j =? output h + i then h_bwt i
                                 else memory h j;
              output := output h |}
  end.

(** [process(n_suffixes, h_bwt, ...)]: the copy, then
    [output += n_suffixes]. *)
Definition process (h : t) (n_suffixes : Z) (h_bwt : Z -> Z) : t :=
  let h' := copy (Z.to_nat n_suffixes) 0 h_bwt h in
  {| memory := memory h'; output := output h' + n_suffixes |}.

End HostBWTHandler.

(** [StringSSAHandler]: keeps one suffix out of [mod] of the sorted
    suffixes, a sampled suffix array. *)
Module StringSSAHandler.

Record t : Type := mk {
  string_len : Z;     (* uint32 *)
  mod_       : Z;     (* uint32, the field [mod] *)
  n_output   : Z;     (* uint32 *)
  output     : Z -> Z
}.

(** The constructor: [n_output(1)], and
    [output[0] = uint32(-1)] for the implicit empty suffix. *)
Definition new (len m : Z) (out : Z -> Z) : t :=
  {| string_len := len; mod_ := m; n_output := 1;
     output := fun j => if j =? 0 then u32 (-1) else out j |}.

(** [int( n_suffixes )] *)
Definition to_int (x : Z) : Z := if x <? 2 ^ 31 then x else x - 2 ^ 32.

(** The body shared by the two loops,
    [for (int i = 0; i < int( n_suffixes ); ++i)
     {
         const uint32 slot = ...;
         if ((slot & (mod-1)) == 0)
             output[slot / mod] = h_suffixes[i];
     }],
    where [slot_of i] is the slot of iteration [i]. The loop is an
    [omp parallel for]; it is run here in the order of [i], which is the
    result of every schedule when the iterations have different slots,
    as they have in [process_batch]. *)
Fixpoint sample (n : nat) (i : Z) (slot_of : Z -> Z) (h_suffixes : Z -> Z)
    (m : Z) (out : Z -> Z) : Z -> Z :=
  match n with
  | O => out
  | S n' =>
      let slot := slot_of i in
      sample n' (i + 1) slot_of h_suffixes m
             (if Z.land slot (u32 (m - 1)) =? 0
              then fun j => if j =? slot / m then h_suffixes i else out j
              else out)
  end.

(** [process_batch]: [slot = i + n_output], then
    [n_output += n_suffixes]. *)
Definition process_batch (h : t) (n_suffixes : Z) (d_suffixes : Z -> Z) : t :=
  {| string_len := string_len h; mod_ := mod_ h;
     n_output := u32 (n_output h + n_suffixes);
     output := sample (Z.to_nat (to_int n_suffixes)) 0
                      (fun i => u32 (i + n_output h)) d_suffixes (mod_ h)
                      (output h) |}.

(** [process_scattered]: [slot = h_slots[i] + 1u], "+1 for the implicit
    empty suffix"; [n_output] is left alone. *)
Definition process_scattered (h : t) (n_suffixes : Z) (d_suffixes d_slots : Z -> Z)
  : t :=
  {| string_len := string_len h; mod_ := mod_ h;
     n_output := n_output h;
     output := sample (Z.to_nat (to_int n_suffixes)) 0
                      (fun i => u32 (d_slots i + 1)) d_suffixes (mod_ h)
                      (output h) |}.

End StringSSAHandler.

(** [HostBWTHandler< PackedStream<word_type*,uint8,SYMBOL_SIZE,BIG_ENDIAN,uint64> >]:
    the BWT goes to a packed host string, [SYMBOLS_PER_WORD] symbols to
    a word. *)
Module PackedHostBWTHandler.

Section Packed.

Variable SYMBOL_SIZE : Z.      (* uint32 *)
Variable BIG_ENDIAN : bool.
Variable WORD_SIZE : Z.        (* uint32( 8u * sizeof(word_type) ) *)

(** [SYMBOLS_PER_WORD = WORD_SIZE / SYMBOL_SIZE] *)
Definition SYMBOLS_PER_WORD : Z := u32 (WORD_SIZE / SYMBOL_SIZE).

(** The conversion to [word_type]. *)
Definition to_word (x : Z) : Z := x mod 2 ^ WORD_SIZE.

Record t : Type := mk {
  words  : Z -> Z;   (* output.stream() *)
  offset : Z         (* uint64 *)
}.

(** [HostBWTHandler(OutputIterator _output) : output(_output), offset(0) {}] *)
Definition new (stream : Z -> Z) : t := {| words := stream; offset := 0 |}.

(** [symbol_offset = BIG_ENDIAN ? (WORD_SIZE - SYMBOL_SIZE - bit_idx) : bit_idx] *)
Definition symbol_offset (bit_idx : Z) : Z :=
  if BIG_ENDIAN then u32 (u32 (WORD_SIZE - SYMBOL_SIZE) - bit_idx) else bit_idx.

(** The loop that fills the current word,
    [for (uint32 i = 0; i < word_rem; ++i)
     {
         const uint32 bit_idx = (word_offset + i) * SYMBOL_SIZE;
         const word_type symbol = word_type(h_bwt[i]) << symbol_offset;
         word |= symbol;
     }] *)
Fixpoint fill_word (n : nat) (i word_offset : Z) (h_bwt : Z -> Z) (word : Z) : Z :=
  match n with
  | O => word
  | S n' =>
      let bit_idx := u32 (u32 (word_offset + i) * SYMBOL_SIZE) in
      let symbol := to_word (Z.shiftl (h_bwt i) (symbol_offset bit_idx)) in
      fill_word n' (i + 1) word_offset h_bwt (Z.lor word symbol)
  end.

(** The loop that encodes a word's worth of characters,
    [for (uint32 j = 0; j < n_symbols; ++j)
     {
         const uint32 bit_idx = j * SYMBOL_SIZE;
         const word_type symbol = word_type(h_bwt[i + j]) << symbol_offset;
         word |= symbol;
     }] *)
Fixpoint encode_word (n : nat) (j i : Z) (h_bwt : Z -> Z) (word : Z) : Z :=
  match n with
  | O => word
  | S n' =>
      let bit_idx := u32 (j * SYMBOL_SIZE) in
      let symbol := to_word (Z.shiftl (h_bwt (u32 (i + j))) (symbol_offset bit_idx)) in
      encode_word n' (j + 1) i h_bwt (Z.lor word symbol)
  end.

(** [for (uint32 i = word_rem; i < n_suffixes; i += SYMBOLS_PER_WORD)
     {
         word_type word = 0u;
         const uint32 n_symbols = nvbio::min( SYMBOLS_PER_WORD, n_suffixes - i );
         ...
         words[ ++word_idx ] = word;
     }] *)
Fixpoint encode_words (fuel : nat) (n_suffixes i word_idx : Z) (h_bwt : Z -> Z)
    (stream : Z -> Z) : option (Z -> Z) :=
  if i <? n_suffixes then
    match fuel with
    | O => None
    | S fuel' =>
        let n_symbols := Z.min SYMBOLS_PER_WORD (u32 (n_suffixes - i)) in
        let word := encode_word (Z.to_nat n_symbols) 0 i h_bwt 0 in
        let word_idx := u32 (word_idx + 1) in
        encode_words fuel' n_suffixes (u32 (i + SYMBOLS_PER_WORD)) word_idx h_bwt
                     (fun k => if k =? word_idx then word else stream k)
    end
  else Some stream.

Definition process (fuel : nat) (h : t) (n_suffixes : Z) (h_bwt : Z -> Z)
  : option t :=
  let word_offset := u32 (Z.land (offset h) (u32 (SYMBOLS_PER_WORD - 1))) in
  let word_idx := u32 (offset h / SYMBOLS_PER_WORD) in
  let '(word_rem, word_idx, stream) :=
    if word_offset =? 0 then (0, word_idx, words h)
    else
      (* how many symbols we still need to encode to fill the current word *)
      let word_rem := u32 (SYMBOLS_PER_WORD - word_offset) in
      let word := fill_word (Z.to_nat word_rem) 0 word_offset h_bwt
                            (words h word_idx) in
      (word_rem, u32 (word_idx + 1),
       fun k => if k =? word_idx then word else words h k) in
  match encode_words fuel n_suffixes word_rem word_idx h_bwt stream with
  | Some stream' =>
      Some {| words := stream'; offset := u64 (offset h + n_suffixes) |}
  | None => None
  end.

(** The symbol a word holds in slot [j], read back at the place the
    loops above give to the [j]-th symbol of a word. *)
Definition slot (word j : Z) : Z :=
  Z.land (Z.shiftr word (symbol_offset (u32 (j * SYMBOL_SIZE))))
         (Z.ones SYMBOL_SIZE).

(** The symbol at position [p] of the packed string: slot
    [p % SYMBOLS_PER_WORD] of word [p / SYMBOLS_PER_WORD]. *)
Definition get (stream : Z -> Z) (p : Z) : Z :=
  slot (stream (p / SYMBOLS_PER_WORD)) (p mod SYMBOLS_PER_WORD).

End Packed.

End PackedHostBWTHandler.

(** ** The sub-bucket table and the blocks

    A block agrees with a table of sub-bucket pointers, below bucket
    [hi]: the buckets of a sorted block all point to its first bucket,
    and the bucket of a block emitted directly points to itself. *)
Definition block_points (h_subbuckets : list Z) (hi : Z) (e : emission) : Prop :=
  match e with
  | DollarBlock _ _ _ => True
  | DirectBlock b _ _ => 0 <= b < hi /\ at_ h_subbuckets b = b
  | SortedBlock b e' _ _ =>
      0 <= b /\ e' <= hi /\ forall k, b <= k < e' -> at_ h_subbuckets k = b
  end.

(** * Properties *)

(** ** Machine integers *)

Lemma u32_small x : 0 <= x < 2 ^ 32 -> u32 x = x.
Proof. intros H. unfold u32. now apply Z.mod_small. Qed.

Lemma u32_range x : 0 <= u32 x < 2 ^ 32.
Proof. unfold u32. apply Z.mod_pos_bound. reflexivity. Qed.

Lemma size_nonneg {A : Type} (v : list A) : 0 <= size v.
Proof. unfold size. lia. Qed.

(** ** The status of an attempt *)

Lemma status_bool_true s : status_bool s = true <-> code s = OK.
Proof.
  unfold status_bool. destruct (Z.eqb_spec (code s) OK); split; congruence.
Qed.

Lemma status_bool_false s : status_bool s = false <-> code s <> OK.
Proof.
  unfold status_bool. destruct (Z.eqb_spec (code s) OK); split; congruence.
Qed.

(** What [max_subbucket_size] leaves in [*status]. *)
Lemma max_subbucket_size_status h max_super mask limit st m st' :
  max_subbucket_size h max_super mask limit st = Returned (m, st') ->
  (m > limit /\ code st' = LargeBucket /\ bucket_size st' = m)
  \/ (m <= limit /\ st' = st).
Proof.
  unfold max_subbucket_size.
  destruct (max_subbucket_loop h max_super mask (length h) 0 (0, 0))
    as [[max_size max_index] | e | ]; try discriminate.
  destruct (Z.gtb_spec max_size limit) as [Hgt | Hle]; intros E;
    inversion E; subst; clear E.
  - left. simpl. repeat split; lia.
  - right. split; [lia | reflexivity].
Qed.

Section EnactStatus.

Variable count_buckets : BWTConfig -> string_set_type -> list Z.
Variable string_set : string_set_type.

(** The status [enact] returns is the one [max_subbucket_size] computed
    from the histogram of the configuration. *)
Lemma enact_returned cfg params fuel snk st snk' :
  enact count_buckets string_set cfg params fuel snk = (Returned st, snk') ->
  exists m,
    max_subbucket_size (count_buckets cfg string_set)
      (max_super_block_size_of params) (DOLLAR_MASK cfg)
      (max_block_size_of params) LargeBWTStatus_default = Returned (m, st).
Proof.
  unfold enact, bind, lift.
  destruct (dollar_prefix_loop string_set fuel (size string_set)
              (max_block_size_of params / 4) 0 snk) as [[[] | e | ] s1];
    try discriminate.
  destruct (max_subbucket_size (count_buckets cfg string_set)
              (max_super_block_size_of params) (DOLLAR_MASK cfg)
              (max_block_size_of params) LargeBWTStatus_default)
    as [[m st1] | e | ]; try discriminate.
  destruct (negb (status_bool st1)).
  - unfold ret. intros E. inversion E; subst. now exists m.
  - destruct (build_subbuckets _ _ _ _ _) as [tbl | e | ]; try discriminate.
    destruct (super_block_loop _ _ _ _ _ _ _ s1) as [[[] | e | ] s2];
      try discriminate.
    unfold ret. intros E. inversion E; subst. now exists m.
Qed.

(** An attempt that returns reports success or a large bucket, nothing
    else; a large bucket is larger than the block size. *)
Lemma enact_code cfg params fuel snk st snk' :
  enact count_buckets string_set cfg params fuel snk = (Returned st, snk') ->
  code st = OK
  \/ (code st = LargeBucket /\ bucket_size st > max_block_size_of params).
Proof.
  intros E. apply enact_returned in E. destruct E as [m E].
  apply max_subbucket_size_status in E.
  destruct E as [(Hgt & Hc & Hs) | (_ & ->)].
  - right. split; [assumption | lia].
  - left. reflexivity.
Qed.

(** The escalation, one attempt after the other. *)
Lemma escalate_unfold word_bits params fuel snk :
  escalate count_buckets string_set word_bits params fuel snk =
  match enact count_buckets string_set (config_type_16 word_bits) params fuel snk with
  | (Returned st16, s16) =>
      if status_bool st16 then (Returned tt, s16)
      else
        match enact count_buckets string_set (config_type_20 word_bits) params fuel s16 with
        | (Returned st20, s20) =>
            if status_bool st20 then (Returned tt, s20)
            else
              match enact count_buckets string_set (config_type_24 word_bits) params fuel s20 with
              | (Returned st24, s24) =>
                  if status_bool st24 then (Returned tt, s24)
                  else if code st24 =? LargeBucket
                  then (Thrown (DeviceMemoryLimit (bucket_index st24) (bucket_size st24)
                          (u32 (divide_ri (bucket_size st24) (u32 (1024 * 1024)) * 32))), s24)
                  else (Returned tt, s24)
              | (Thrown e, s24) => (Thrown e, s24)
              | (OutOfFuel, s24) => (OutOfFuel, s24)
              end
        | (Thrown e, s20) => (Thrown e, s20)
        | (OutOfFuel, s20) => (OutOfFuel, s20)
        end
  | (Thrown e, s16) => (Thrown e, s16)
  | (OutOfFuel, s16) => (OutOfFuel, s16)
  end.
Proof.
  unfold escalate, bind, ret, throw.
  destruct (enact _ _ (config_type_16 word_bits) _ _ snk) as [[st16 | e | ] s16];
    try reflexivity.
  destruct (status_bool st16); try reflexivity.
  destruct (enact _ _ (config_type_20 word_bits) _ _ s16) as [[st20 | e | ] s20];
    try reflexivity.
  destruct (status_bool st20); try reflexivity.
  destruct (enact _ _ (config_type_24 word_bits) _ _ s20) as [[st24 | e | ] s24];
    try reflexivity.
  destruct (status_bool st24); try reflexivity.
  destruct (code st24 =? LargeBucket); reflexivity.
Qed.

End EnactStatus.

(** ** The largest bucket that is not a short-string bucket *)

Section SubbucketFacts.

Variable h_buckets : list Z.
Variable max_super_block_size : Z.
Variable mask : Z.

Lemma grow_block_bounds limit upto n bucket_end bucket_size :
  bucket_end <= fst (grow_block h_buckets limit upto n bucket_end bucket_size)
  /\ fst (grow_block h_buckets limit upto n bucket_end bucket_size)
     <= Z.max bucket_end upto.
Proof.
  revert bucket_end bucket_size.
  induction n as [| n IH]; intros bucket_end bucket_size; simpl.
  - lia.
  - destruct (Z.ltb_spec bucket_end upto) as [Hlt | Hge]; simpl; [| lia].
    destruct (u32 (bucket_size + at_ h_buckets bucket_end) <=? limit); simpl;
      [| lia].
    specialize (IH (bucket_end + 1) (u32 (bucket_size + at_ h_buckets bucket_end))).
    lia.
Qed.

Lemma scan_subbuckets_app n1 n2 b acc :
  scan_subbuckets h_buckets mask (n1 + n2) b acc =
  scan_subbuckets h_buckets mask n2 (b + Z.of_nat n1)
    (scan_subbuckets h_buckets mask n1 b acc).
Proof.
  revert b acc. induction n1 as [| n1 IH]; intros b acc.
  - simpl. now replace (b + 0) with b by lia.
  - cbn [Nat.add scan_subbuckets]. rewrite IH. f_equal. lia.
Qed.

(** The loop over the super-blocks scans every bucket once, in order. *)
Lemma max_subbucket_loop_scan fuel bucket_begin acc r :
  0 <= bucket_begin <= size h_buckets ->
  max_subbucket_loop h_buckets max_super_block_size mask fuel bucket_begin acc
    = Returned r ->
  r = scan_subbuckets h_buckets mask
        (Z.to_nat (size h_buckets - bucket_begin)) bucket_begin acc.
Proof.
  revert bucket_begin acc.
  induction fuel as [| fuel IH]; intros bucket_begin acc Hb; simpl.
  - destruct (Z.ltb_spec bucket_begin (size h_buckets)); [discriminate |].
    intros E. inversion E.
    replace (size h_buckets - bucket_begin) with 0 by lia. reflexivity.
  - destruct (Z.ltb_spec bucket_begin (size h_buckets)) as [Hlt | Hge].
    + pose proof (grow_block_bounds max_super_block_size (size h_buckets)
                    (Z.to_nat (size h_buckets - bucket_begin)) bucket_begin 0)
        as Hg.
      unfold grow_super_block.
      destruct (grow_block _ _ _ _ _ _) as [bucket_end bucket_size].
      simpl in Hg.
      destruct (Z.eqb_spec bucket_end bucket_begin); [discriminate |].
      intros E. apply IH in E; [| lia]. rewrite E.
      replace (Z.to_nat (size h_buckets - bucket_begin))
        with (Z.to_nat (bucket_end - bucket_begin)
              + Z.to_nat (size h_buckets - bucket_end))%nat by lia.
      rewrite scan_subbuckets_app. f_equal. lia.
    + intros E. inversion E.
      replace (size h_buckets - bucket_begin) with 0 by lia. reflexivity.
Qed.

(** The fuel [max_subbucket_size] passes is enough. *)
Lemma max_subbucket_loop_fuel fuel bucket_begin acc :
  0 <= bucket_begin ->
  size h_buckets - bucket_begin <= Z.of_nat fuel ->
  max_subbucket_loop h_buckets max_super_block_size mask fuel bucket_begin acc
    <> OutOfFuel.
Proof.
  revert bucket_begin acc.
  induction fuel as [| fuel IH]; intros bucket_begin acc Hb Hf; simpl.
  - destruct (Z.ltb_spec bucket_begin (size h_buckets)); [lia | discriminate].
  - destruct (Z.ltb_spec bucket_begin (size h_buckets)) as [Hlt | Hge];
      [| discriminate].
    pose proof (grow_block_bounds max_super_block_size (size h_buckets)
                  (Z.to_nat (size h_buckets - bucket_begin)) bucket_begin 0)
      as Hg.
    unfold grow_super_block.
    destruct (grow_block _ _ _ _ _ _) as [bucket_end bucket_size].
    simpl in Hg.
    destruct (Z.eqb_spec bucket_end bucket_begin); [discriminate |].
    apply IH; lia.
Qed.

(** What a scan of the buckets [[b, b + n)] leaves in [(max_size, max_index)]. *)
Lemma scan_subbuckets_spec n b m0 i0 :
  let r := scan_subbuckets h_buckets mask n b (m0, i0) in
  m0 <= fst r
  /\ (forall k, b <= k < b + Z.of_nat n ->
        not_short_string mask k = true -> at_ h_buckets k <= fst r)
  /\ (r = (m0, i0)
      \/ (b <= snd r < b + Z.of_nat n
          /\ not_short_string mask (snd r) = true
          /\ at_ h_buckets (snd r) = fst r
          /\ m0 < fst r)).
Proof.
  revert b m0 i0. induction n as [| n IH]; intros b m0 i0.
  - simpl. repeat split; try lia. now left.
  - cbn [scan_subbuckets].
    destruct (track_subbucket h_buckets mask b (m0, i0)) as [m1 i1] eqn:Ht.
    assert (Hm : m0 <= m1
                 /\ (not_short_string mask b = true -> at_ h_buckets b <= m1)
                 /\ ((m1, i1) = (m0, i0)
                     \/ (i1 = b /\ not_short_string mask b = true
                         /\ at_ h_buckets b = m1 /\ m0 < m1))).
    { unfold track_subbucket in Ht.
      destruct (not_short_string mask b).
      - destruct (Z.ltb_spec m0 (at_ h_buckets b)); inversion Ht; subst.
        + split; [lia |]. split; [lia |]. right. repeat split; lia.
        + split; [lia |]. split; [lia |]. now left.
      - inversion Ht; subst. split; [lia |]. split; [discriminate |].
        now left. }
    destruct Hm as (Hm1 & Hm2 & Hm3).
    specialize (IH (b + 1) m1 i1). cbv zeta in IH |- *.
    destruct IH as (H1 & H2 & H3).
    split; [lia |]. split.
    + intros k Hk Hnk. destruct (Z.eq_dec k b) as [-> | Hne].
      * specialize (Hm2 Hnk). lia.
      * apply H2; [lia | assumption].
    + destruct H3 as [H3 | (Ha & Hb & Hc & Hd)].
      * rewrite H3. destruct Hm3 as [Hm3 | (-> & Hb & Hc & Hd)].
        -- now left.
        -- right. simpl. repeat split; try assumption; lia.
      * right. repeat split; try assumption; lia.
Qed.

(** [max_subbucket_size] never runs out of fuel. *)
Lemma max_subbucket_size_total limit st :
  max_subbucket_size h_buckets max_super_block_size mask limit st <> OutOfFuel.
Proof.
  unfold max_subbucket_size.
  pose proof (max_subbucket_loop_fuel (length h_buckets) 0 (0, 0)) as Hf.
  destruct (max_subbucket_loop _ _ _ _ _ _) as [[m i] | e | ].
  - destruct (m >? limit); discriminate.
  - discriminate.
  - exfalso. apply Hf; unfold size; lia || reflexivity.
Qed.

(** When [max_subbucket_size] returns, the size it returns bounds every
    bucket that is not a short-string bucket, whatever the short-string
    buckets hold; and the status becomes [LargeBucket] exactly when one
    of the former exceeds the limit, in which case the status names a
    largest one. *)
Lemma max_subbucket_size_spec limit st m st' :
  0 <= limit ->
  max_subbucket_size h_buckets max_super_block_size mask limit st
    = Returned (m, st') ->
  (forall k, 0 <= k < size h_buckets ->
     not_short_string mask k = true -> at_ h_buckets k <= m)
  /\ ((m <= limit /\ st' = st)
      \/ (m > limit
          /\ code st' = LargeBucket
          /\ bucket_size st' = m
          /\ 0 <= bucket_index st' < size h_buckets
          /\ not_short_string mask (bucket_index st') = true
          /\ at_ h_buckets (bucket_index st') = m)).
Proof.
  intros Hlim. unfold max_subbucket_size.
  destruct (max_subbucket_loop _ _ _ _ _ _) as [[max_size max_index] | e | ] eqn:E;
    try discriminate.
  apply max_subbucket_loop_scan in E; [| pose proof (size_nonneg h_buckets); lia].
  pose proof (scan_subbuckets_spec
                (Z.to_nat (size h_buckets - 0)) 0 0 0) as Hs.
  cbv zeta in Hs. rewrite <- E in Hs. simpl fst in Hs. simpl snd in Hs.
  destruct Hs as (H1 & H2 & H3).
  replace (0 + Z.of_nat (Z.to_nat (size h_buckets - 0))) with (size h_buckets)
    in * by (pose proof (size_nonneg h_buckets); lia).
  destruct (Z.gtb_spec max_size limit) as [Hgt | Hle]; intros R;
    inversion R; subst; clear R.
  - split; [assumption |]. right. simpl.
    destruct H3 as [H3 | (Ha & Hb & Hc & Hd)].
    + inversion H3; subst. lia.
    + repeat split; try assumption; try lia.
  - split; [assumption |]. left. split; [lia | reflexivity].
Qed.

End SubbucketFacts.

(** ** The escalation of the bucketing width *)

Lemma max_block_size_of_nonneg params : 0 <= max_block_size_of params.
Proof.
  destruct params as [p |]; simpl.
  - apply u32_range.
  - lia.
Qed.

Section Escalation.

Variable count_buckets : BWTConfig -> string_set_type -> list Z.
Variable string_set : string_set_type.

(** An attempt that returns either succeeded or met a bucket over the
    device budget. *)
Lemma enact_failed cfg params fuel snk st snk' :
  enact count_buckets string_set cfg params fuel snk = (Returned st, snk') ->
  code st = OK
  \/ exceeds_budget (count_buckets cfg string_set) (DOLLAR_MASK cfg)
       (max_block_size_of params) st.
Proof.
  intros E. apply enact_returned in E. destruct E as [m E].
  apply max_subbucket_size_spec in E; [| apply max_block_size_of_nonneg].
  destruct E as (Hmax & [(_ & ->) | (Hgt & Hc & Hs & Hi & Hn & Ha)]).
  - now left.
  - right. unfold exceeds_budget. rewrite Hs.
    repeat split; try assumption; lia.
Qed.

Lemma exceeds_budget_code h mask limit st :
  exceeds_budget h mask limit st -> status_bool st = false.
Proof.
  intros (Hc & _). apply status_bool_false. rewrite Hc. discriminate.
Qed.

(** The chain of attempts behind both entry points. *)
Lemma escalate_cases word_bits params fuel snk :
  let attempt cfg := enact count_buckets string_set cfg params fuel in
  let failed cfg :=
    exceeds_budget (count_buckets cfg string_set) (DOLLAR_MASK cfg)
                   (max_block_size_of params) in
  let result := escalate count_buckets string_set word_bits params fuel snk in
  match attempt (config_type_16 word_bits) snk with
  | (Returned st16, s16) =>
      (code st16 = OK /\ result = (Returned tt, s16))
      \/ (failed (config_type_16 word_bits) st16
          /\ match attempt (config_type_20 word_bits) s16 with
             | (Returned st20, s20) =>
                 (code st20 = OK /\ result = (Returned tt, s20))
                 \/ (failed (config_type_20 word_bits) st20
                     /\ match attempt (config_type_24 word_bits) s20 with
                        | (Returned st24, s24) =>
                            (code st24 = OK /\ result = (Returned tt, s24))
                            \/ (failed (config_type_24 word_bits) st24
                                /\ result =
                                   (Thrown (DeviceMemoryLimit
                                      (bucket_index st24) (bucket_size st24)
                                      (u32 (divide_ri (bucket_size st24)
                                              (u32 (1024 * 1024)) * 32))),
                                    s24))
                        | (Thrown e, s24) => result = (Thrown e, s24)
                        | (OutOfFuel, s24) => result = (OutOfFuel, s24)
                        end)
             | (Thrown e, s20) => result = (Thrown e, s20)
             | (OutOfFuel, s20) => result = (OutOfFuel, s20)
             end)
  | (Thrown e, s16) => result = (Thrown e, s16)
  | (OutOfFuel, s16) => result = (OutOfFuel, s16)
  end.
Proof.
  cbv zeta. rewrite escalate_unfold.
  destruct (enact _ _ (config_type_16 word_bits) _ _ snk)
    as [[st16 | e | ] s16] eqn:E16; try reflexivity.
  destruct (enact_failed _ _ _ _ _ _ E16) as [H16 | H16].
  { left. split; [assumption |].
    now rewrite (proj2 (status_bool_true st16) H16). }
  right. split; [assumption |]. rewrite (exceeds_budget_code _ _ _ _ H16).
  destruct (enact _ _ (config_type_20 word_bits) _ _ s16)
    as [[st20 | e | ] s20] eqn:E20; try reflexivity.
  destruct (enact_failed _ _ _ _ _ _ E20) as [H20 | H20].
  { left. split; [assumption |].
    now rewrite (proj2 (status_bool_true st20) H20). }
  right. split; [assumption |]. rewrite (exceeds_budget_code _ _ _ _ H20).
  destruct (enact _ _ (config_type_24 word_bits) _ _ s20)
    as [[st24 | e | ] s24] eqn:E24; try reflexivity.
  destruct (enact_failed _ _ _ _ _ _ E24) as [H24 | H24].
  { left. split; [assumption |].
    now rewrite (proj2 (status_bool_true st24) H24). }
  right. split; [assumption |]. rewrite (exceeds_budget_code _ _ _ _ H24).
  destruct H24 as (-> & _). reflexivity.
Qed.

End Escalation.

(** ** The handler only ever receives more calls *)

Section Emits.

Context {P : emission -> Prop} {E : error -> Prop}.

Lemma emits_ret {A : Type} (a : A) : emits P E (ret a).
Proof.
  intros s. exists []. simpl. rewrite app_nil_r.
  repeat split; [constructor | discriminate].
Qed.

Lemma emits_out_of_fuel {A : Type} : emits P E (@out_of_fuel A).
Proof.
  intros s. exists []. simpl. rewrite app_nil_r.
  repeat split; [constructor | discriminate].
Qed.

Lemma emits_throw {A : Type} (e : error) : E e -> emits P E (@throw A e).
Proof.
  intros He s. exists []. simpl. rewrite app_nil_r.
  repeat split; [constructor |]. intros e' H. now inversion H; subst.
Qed.

Lemma emits_lift {A : Type} (o : outcome A) :
  (forall e, o = Thrown e -> E e) -> emits P E (lift o).
Proof.
  intros He s. exists []. simpl. rewrite app_nil_r.
  repeat split; [constructor | assumption].
Qed.

Lemma emits_process (e : emission) : P e -> emits P E (process e).
Proof.
  intros He s. exists [e]. simpl.
  repeat split; [repeat constructor; assumption | discriminate].
Qed.

Lemma emits_bind {A B : Type} (m : M A) (k : A -> M B) :
  emits P E m -> (forall a, emits P E (k a)) -> emits P E (bind m k).
Proof.
  intros Hm Hk s. unfold bind.
  destruct (Hm s) as (evs & Hs & HP & HE).
  destruct (m s) as [[a | e | ] s'] eqn:Em; simpl in *.
  - destruct (Hk a s') as (evs' & Hs' & HP' & HE').
    subst s'. exists (evs ++ evs'). rewrite Hs', app_assoc.
    repeat split; [now apply Forall_app | assumption].
  - exists evs. split; [assumption |]. split; [assumption |].
    intros e' R. inversion R; subst. now apply HE.
  - exists evs. split; [assumption |]. split; [assumption | discriminate].
Qed.

End Emits.

Lemma emits_weaken {A : Type} (P P' : emission -> Prop) (E E' : error -> Prop)
    (m : M A) :
  (forall e, P e -> P' e) -> (forall e, E e -> E' e) ->
  emits P E m -> emits P' E' m.
Proof.
  intros HP HE Hm s. destruct (Hm s) as (evs & Hs & HF & HT).
  exists evs. repeat split; [assumption | | auto].
  eapply Forall_impl; eassumption.
Qed.

Section EnactEmits.

Variable count_buckets : BWTConfig -> string_set_type -> list Z.
Variable string_set : string_set_type.

Lemma direct_emit_loop_emits max_block_size fuel bucket subbucket_size
    suffix_count block_begin :
  emits carries_suffixes bucket_error
    (direct_emit_loop max_block_size fuel bucket subbucket_size suffix_count
                      block_begin).
Proof.
  revert block_begin. induction fuel as [| fuel IH]; intros block_begin; simpl.
  - destruct (block_begin <? subbucket_size);
      [apply emits_out_of_fuel | apply emits_ret].
  - destruct (block_begin <? subbucket_size); [| apply emits_ret].
    apply emits_bind; [now apply emits_process | intros _; apply IH].
Qed.

Lemma sort_subbuckets_emits h mask max_block_size fuel bucket_end
    subbucket_begin suffix_count :
  emits carries_suffixes bucket_error
    (sort_subbuckets h mask max_block_size fuel bucket_end subbucket_begin
                     suffix_count).
Proof.
  revert subbucket_begin suffix_count.
  induction fuel as [| fuel IH]; intros subbucket_begin suffix_count;
    cbn [sort_subbuckets].
  - destruct (subbucket_begin <? bucket_end);
      [apply emits_out_of_fuel | apply emits_ret].
  - destruct (subbucket_begin <? bucket_end); [| apply emits_ret].
    destruct (at_ h subbucket_begin >? max_block_size).
    + destruct (not_short_string mask subbucket_begin).
      * now apply emits_throw.
      * apply emits_bind; [apply direct_emit_loop_emits | intros _; apply IH].
    + destruct (grow_block _ _ _ _ _ _) as [subbucket_end subbucket_size].
      destruct (subbucket_size =? 0); [apply IH |].
      apply emits_bind; [now apply emits_process | intros _; apply IH].
Qed.

Lemma super_block_loop_emits h mask max_block_size max_super fuel bucket_begin
    offset :
  emits carries_suffixes bucket_error
    (super_block_loop h mask max_block_size max_super fuel bucket_begin offset).
Proof.
  revert bucket_begin offset.
  induction fuel as [| fuel IH]; intros bucket_begin offset;
    cbn [super_block_loop].
  - destruct (bucket_begin <? size h);
      [apply emits_out_of_fuel | apply emits_ret].
  - destruct (bucket_begin <? size h); [| apply emits_ret].
    destruct (grow_super_block _ _ _) as [bucket_end bucket_size].
    apply emits_bind; [apply sort_subbuckets_emits | intros sc; apply IH].
Qed.

Lemma max_subbucket_size_throws h max_super mask limit st e :
  max_subbucket_size h max_super mask limit st = Thrown e -> bucket_error e.
Proof.
  unfold max_subbucket_size.
  assert (H : forall fuel b acc,
             max_subbucket_loop h max_super mask fuel b acc = Thrown e ->
             bucket_error e).
  { induction fuel as [| fuel IH]; intros b acc; simpl.
    - destruct (b <? size h); discriminate.
    - destruct (b <? size h); [| discriminate].
      destruct (grow_super_block _ _ _) as [bucket_end bucket_size].
      destruct (bucket_end =? b); [| apply IH].
      intros R. inversion R. exact I. }
  destruct (max_subbucket_loop _ _ _ _ _ _) as [[m i] | e' | ] eqn:El.
  - destruct (m >? limit); discriminate.
  - intros R. inversion R; subst. eapply H. eassumption.
  - discriminate.
Qed.

Lemma build_subbuckets_throws h mask max_block_size max_super tbl e :
  build_subbuckets h mask max_block_size max_super tbl = Thrown e ->
  bucket_error e.
Proof.
  unfold build_subbuckets.
  assert (Hb : forall fuel bucket_end sb t,
             build_subbuckets_block h mask max_block_size fuel bucket_end sb t
               = Thrown e -> bucket_error e).
  { induction fuel as [| fuel IH]; intros bucket_end sb t; simpl.
    - destruct (sb <? bucket_end); discriminate.
    - destruct (sb <? bucket_end); [| discriminate].
      destruct (at_ h sb >? max_block_size).
      + destruct (not_short_string mask sb); [| apply IH].
        intros R. inversion R. exact I.
      + destruct (point_subbuckets _ _ _ _ _ _ _ _) as [se t']. apply IH. }
  generalize (length h) at 1. intros fuel. revert tbl. generalize 0.
  induction fuel as [| fuel IH]; intros b t; simpl.
  - destruct (b <? size h); discriminate.
  - destruct (b <? size h); [| discriminate].
    destruct (grow_super_block _ _ _) as [bucket_end bucket_size].
    destruct (bucket_end =? b).
    + intros R. inversion R. exact I.
    + destruct (build_subbuckets_block _ _ _ _ _ _ _) as [t' | e' | ] eqn:Eb.
      * apply IH.
      * intros R. inversion R; subst. eapply Hb. eassumption.
      * discriminate.
Qed.

(** After the dollar prefix, an attempt only makes calls that carry
    suffixes, and it only throws the errors of a bucket. *)
Lemma enact_tail_emits cfg params fuel :
  let h_buckets := count_buckets cfg string_set in
  emits carries_suffixes bucket_error
    (r <- lift (max_subbucket_size h_buckets (max_super_block_size_of params)
                  (DOLLAR_MASK cfg) (max_block_size_of params)
                  LargeBWTStatus_default) ;;
     let '(largest_subbucket, status) := r in
     if negb (status_bool status) then ret status
     else
       let max_block_size :=
         if largest_subbucket <=? optimal_block_size
         then optimal_block_size else max_block_size_of params in
       _ <- lift (build_subbuckets h_buckets (DOLLAR_MASK cfg) max_block_size
                    (max_super_block_size_of params)
                    (repeat 0 (length h_buckets))) ;;
       super_block_loop h_buckets (DOLLAR_MASK cfg) max_block_size
                        (max_super_block_size_of params) fuel 0 0 ;;
       ret status).
Proof.
  cbv zeta. apply emits_bind.
  - apply emits_lift. apply max_subbucket_size_throws.
  - intros [largest status].
    destruct (negb (status_bool status)); [apply emits_ret |].
    apply emits_bind.
    + apply emits_lift. apply build_subbuckets_throws.
    + intros _. apply emits_bind; [apply super_block_loop_emits |].
      intros _. apply emits_ret.
Qed.

End EnactEmits.

(** ** The dollar prefix *)

Lemma seq_offset a n : seq a n = map (fun k => (a + k)%nat) (seq 0 n).
Proof.
  revert a. induction n as [| n IH]; intros a; [reflexivity |].
  cbn [seq map]. rewrite Nat.add_0_r. f_equal.
  rewrite <- (seq_shift n 0), map_map, (IH (S a)).
  apply map_ext. intros k. lia.
Qed.

Lemma zrange_app start n1 n2 :
  zrange start (n1 + n2) = zrange start n1 ++ zrange (start + Z.of_nat n1) n2.
Proof.
  unfold zrange. rewrite seq_app, map_app. f_equal.
  rewrite (seq_offset (0 + n1) n2), map_map.
  apply map_ext. intros k. lia.
Qed.

Lemma zrange_length start n : length (zrange start n) = n.
Proof. unfold zrange. now rewrite length_map, length_seq. Qed.

Lemma zrange_S start n : zrange start (S n) = start :: zrange (start + 1) n.
Proof.
  change (S n) with (1 + n)%nat. rewrite zrange_app. cbn.
  now rewrite Z.add_0_r.
Qed.

Lemma in_zrange start n k : In k (zrange start n) <-> start <= k < start + Z.of_nat n.
Proof.
  unfold zrange. rewrite in_map_iff. split.
  - intros (i & <- & Hi). apply in_seq in Hi. lia.
  - intros H. exists (Z.to_nat (k - start)). split; [lia |].
    apply in_seq. lia.
Qed.

Lemma dollar_bwt_app string_set a b c :
  a <= b <= c ->
  dollar_bwt string_set a b ++ dollar_bwt string_set b c = dollar_bwt string_set a c.
Proof.
  intros H. unfold dollar_bwt. rewrite <- map_app. f_equal.
  replace (Z.to_nat (c - a)) with (Z.to_nat (b - a) + Z.to_nat (c - b))%nat by lia.
  rewrite zrange_app. do 2 f_equal. lia.
Qed.

Lemma map_nth_seq {A : Type} (l : list A) (d : A) :
  map (fun i => nth i l d) (seq 0 (length l)) = l.
Proof.
  induction l as [| x l IH]; [reflexivity |].
  cbn [length seq map nth]. f_equal.
  rewrite <- seq_shift, map_map. exact IH.
Qed.


Section DollarPrefix.

Variable string_set : string_set_type.

(** With a positive block size and no wrap-around, the loop makes one
    call per block of consecutive strings, up to the last string. *)
Lemma dollar_prefix_loop_spec fuel N block_size block_begin snk :
  0 < block_size -> N + block_size <= 2 ^ 32 -> 0 <= block_begin ->
  N - block_begin <= Z.of_nat fuel ->
  exists blocks,
    dollar_prefix_loop string_set fuel N block_size block_begin snk
      = (Returned tt, snk ++ map (dollar_block string_set) blocks)
    /\ chained (Z.min block_begin N) blocks N
    /\ concat (map (fun r => dollar_bwt string_set (fst r) (snd r)) blocks)
       = dollar_bwt string_set (Z.min block_begin N) N.
Proof.
  intros Hbs Hwrap. revert block_begin snk.
  induction fuel as [| fuel IH]; intros block_begin snk Hb Hf;
    cbn [dollar_prefix_loop].
  - destruct (Z.ltb_spec block_begin N); [lia |].
    exists []. cbn. rewrite app_nil_r. repeat split; try lia.
    unfold dollar_bwt. now replace (N - Z.min block_begin N) with 0 by lia.
  - destruct (Z.ltb_spec block_begin N) as [Hlt | Hge].
    + rewrite (u32_small (block_begin + block_size)) by lia.
      unfold bind, process.
      destruct (IH (block_begin + block_size)
                   (snk ++ [DollarBlock block_begin
                              (Z.min (block_begin + block_size) N)
                              (dollar_bwt string_set block_begin
                                 (Z.min (block_begin + block_size) N))]))
        as (blocks & Hrun & Hch & Hsym); [lia | lia |].
      exists ((block_begin, Z.min (block_begin + block_size) N) :: blocks).
      rewrite Hrun. split; [| split].
      * cbn [map]. unfold dollar_block at 2. cbn [fst snd].
        now rewrite <- app_assoc.
      * cbn [chained]. repeat split; lia || assumption.
      * cbn [map concat fst snd]. rewrite Hsym.
        replace (Z.min block_begin N) with block_begin by lia.
        apply dollar_bwt_app. lia.
    + exists []. cbn. rewrite app_nil_r. repeat split; try lia.
      unfold dollar_bwt. now replace (N - Z.min block_begin N) with 0 by lia.
Qed.

End DollarPrefix.


Section EnactErrors.

Variable count_buckets : BWTConfig -> string_set_type -> list Z.
Variable string_set : string_set_type.

Lemma dollar_prefix_loop_emits fuel N block_size block_begin :
  emits (fun _ => True) bucket_error
    (dollar_prefix_loop string_set fuel N block_size block_begin).
Proof.
  revert block_begin. induction fuel as [| fuel IH]; intros block_begin;
    cbn [dollar_prefix_loop].
  - destruct (block_begin <? N); [apply emits_out_of_fuel | apply emits_ret].
  - destruct (block_begin <? N); [| apply emits_ret].
    apply emits_bind; [now apply emits_process | intros _; apply IH].
Qed.

(** An attempt throws the errors of a bucket only: the error that asks
    for more device memory is not raised while a width is tried. *)
Lemma enact_throws cfg params fuel snk e snk' :
  enact count_buckets string_set cfg params fuel snk = (Thrown e, snk') ->
  bucket_error e.
Proof.
  intros R.
  assert (H : emits (fun _ => True) bucket_error
                (enact count_buckets string_set cfg params fuel)).
  { unfold enact. cbv zeta. apply emits_bind.
    - apply dollar_prefix_loop_emits.
    - intros _.
      pose proof (enact_tail_emits count_buckets string_set cfg params fuel) as Ht.
      cbv zeta in Ht.
      eapply emits_weaken; [| | exact Ht]; auto. }
  destruct (H snk) as (evs & _ & _ & HE). apply HE. now rewrite R.
Qed.

End EnactErrors.

(** C3. [LargeBWTStatus] converts to [true] exactly when its code is
    [OK]. In [large_bwt] the attempt at 16 bits is made first; when it
    returns [OK] the function returns with what that attempt emitted,
    and the next width is tried only when the attempt before it returned
    [LargeBucket]; after three such failures the error is thrown. An
    exception or a non-terminating attempt ends the chain where it
    occurs. *)
Theorem large_bwt_returns_on_success
    (count_buckets : BWTConfig -> string_set_type -> list Z)
    (string_set : string_set_type) (word_bits : Z)
    (params : option BWTParams) (fuel : nat) (snk : sink) :
  let attempt cfg := enact count_buckets string_set cfg params fuel in
  let result := large_bwt count_buckets string_set word_bits params fuel snk in
  (forall s, status_bool s = true <-> code s = OK)
  /\ match attempt (config_type_16 word_bits) snk with
     | (Returned st16, s16) =>
         (code st16 = OK /\ result = (Returned tt, s16))
         \/ (code st16 = LargeBucket
             /\ match attempt (config_type_20 word_bits) s16 with
                | (Returned st20, s20) =>
                    (code st20 = OK /\ result = (Returned tt, s20))
                    \/ (code st20 = LargeBucket
                        /\ match attempt (config_type_24 word_bits) s20 with
                           | (Returned st24, s24) =>
                               (code st24 = OK /\ result = (Returned tt, s24))
                               \/ (code st24 = LargeBucket
                                   /\ exists mb,
                                      result =
                                      (Thrown (DeviceMemoryLimit
                                         (bucket_index st24) (bucket_size st24)
                                         mb), s24))
                           | (Thrown e, s24) => result = (Thrown e, s24)
                           | (OutOfFuel, s24) => result = (OutOfFuel, s24)
                           end)
                | (Thrown e, s20) => result = (Thrown e, s20)
                | (OutOfFuel, s20) => result = (OutOfFuel, s20)
                end)
     | (Thrown e, s16) => result = (Thrown e, s16)
     | (OutOfFuel, s16) => result = (OutOfFuel, s16)
     end.
Proof.
  cbv beta zeta. split; [apply status_bool_true |].
  pose proof (escalate_cases count_buckets string_set word_bits params fuel snk)
    as H.
  cbv beta zeta in H. unfold large_bwt. revert H.
  destruct (enact _ _ (config_type_16 word_bits) _ _ snk) as [[st16 | e | ] s16];
    intros H; cbv beta iota in H; try exact H.
  destruct H as [H | ((Hc & _) & H)]; [now left | right].
  split; [assumption |]. revert H.
  destruct (enact _ _ (config_type_20 word_bits) _ _ s16) as [[st20 | e | ] s20];
    intros H; cbv beta iota in H; try exact H.
  destruct H as [H | ((Hc' & _) & H)]; [now left | right].
  split; [assumption |]. revert H.
  destruct (enact _ _ (config_type_24 word_bits) _ _ s20) as [[st24 | e | ] s24];
    intros H; cbv beta iota in H; try exact H.
  destruct H as [H | ((Hc'' & _) & H)]; [now left | right].
  split; [assumption |]. eexists. exact H.
Qed.


(** The budget the error recommends, when the size does not wrap. *)
Lemma recommended_device_budget n :
  0 <= n <= 2 ^ 32 - 2 ^ 20 ->
  u32 (divide_ri n (u32 (1024 * 1024)) * 32) = (n + (2 ^ 20 - 1)) / 2 ^ 20 * 32
  /\ n * 32 <= (n + (2 ^ 20 - 1)) / 2 ^ 20 * 32 * 2 ^ 20.
Proof.
  intros Hn. unfold divide_ri.
  change (u32 (1024 * 1024)) with (2 ^ 20).
  change (u32 (2 ^ 20 - 1)) with (2 ^ 20 - 1).
  rewrite (u32_small (n + (2 ^ 20 - 1))) by lia.
  assert (Hq : 0 <= (n + (2 ^ 20 - 1)) / 2 ^ 20 < 2 ^ 12).
  { split; [apply Z.div_pos; lia |]. apply Z.div_lt_upper_bound; lia. }
  rewrite (u32_small ((n + (2 ^ 20 - 1)) / 2 ^ 20)) by lia.
  rewrite u32_small by lia. split; [reflexivity |].
  pose proof (Z.mul_div_le (n + (2 ^ 20 - 1)) (2 ^ 20) ltac:(lia)).
  pose proof (Z.mod_pos_bound (n + (2 ^ 20 - 1)) (2 ^ 20) ltac:(lia)).
  pose proof (Z.div_mod (n + (2 ^ 20 - 1)) (2 ^ 20) ltac:(lia)). lia.
Qed.

(** ** The order of the suffixes *)

Section LexOrder.

Context {A : Type}.
Variable ltb : A -> A -> bool.
Hypothesis ltb_irrefl : forall x, ltb x x = false.
Hypothesis ltb_trans : forall x y z, ltb x y = true -> ltb y z = true -> ltb x z = true.
Hypothesis ltb_total : forall x y, ltb x y = false -> ltb y x = false -> x = y.

Lemma ltb_asym x y : ltb x y = true -> ltb y x = false.
Proof.
  intros H. destruct (ltb y x) eqn:E; [| reflexivity].
  rewrite <- (ltb_irrefl x). symmetry. eapply ltb_trans; eassumption.
Qed.

Lemma lex_leb_refl a : lex_leb ltb a a = true.
Proof.
  induction a as [| x a IH]; [reflexivity |]. simpl.
  now rewrite ltb_irrefl.
Qed.

Lemma lex_leb_total a b : lex_leb ltb a b = true \/ lex_leb ltb b a = true.
Proof.
  revert b. induction a as [| x a IH]; intros [| y b]; simpl; auto.
  destruct (ltb x y) eqn:Exy; [now left |].
  destruct (ltb y x) eqn:Eyx; [now right |]. apply IH.
Qed.

Lemma lex_leb_antisym a b :
  lex_leb ltb a b = true -> lex_leb ltb b a = true -> a = b.
Proof.
  revert b. induction a as [| x a IH]; intros [| y b]; simpl;
    try reflexivity; try discriminate.
  destruct (ltb x y) eqn:Exy.
  - rewrite (ltb_asym _ _ Exy). discriminate.
  - destruct (ltb y x) eqn:Eyx; [discriminate |].
    intros H1 H2. f_equal; [now apply ltb_total | now apply IH].
Qed.

Lemma lex_leb_trans a b c :
  lex_leb ltb a b = true -> lex_leb ltb b c = true -> lex_leb ltb a c = true.
Proof.
  revert b c. induction a as [| x a IH]; intros [| y b] [| z c]; simpl;
    try reflexivity; try discriminate.
  destruct (ltb x y) eqn:Exy.
  - intros _. destruct (ltb y z) eqn:Eyz.
    + intros _. now rewrite (ltb_trans _ _ _ Exy Eyz).
    + destruct (ltb z y) eqn:Ezy; [discriminate |].
      rewrite <- (ltb_total _ _ Eyz Ezy). now rewrite Exy.
  - destruct (ltb y x) eqn:Eyx; [discriminate |].
    rewrite (ltb_total _ _ Exy Eyx).
    intros H1. destruct (ltb y z); [reflexivity |].
    destruct (ltb z y); [discriminate |]. now apply IH.
Qed.

End LexOrder.

Lemma Zltb_irrefl x : (x <? x) = false.
Proof. apply Z.ltb_irrefl. Qed.

Lemma Zltb_trans x y z : (x <? y) = true -> (y <? z) = true -> (x <? z) = true.
Proof. rewrite !Z.ltb_lt. lia. Qed.

Lemma Zltb_total x y : (x <? y) = false -> (y <? x) = false -> x = y.
Proof. rewrite !Z.ltb_ge. lia. Qed.

Lemma tsym_ltb_irrefl x : tsym_ltb x x = false.
Proof. destruct x; [reflexivity | apply Z.ltb_irrefl]. Qed.

Lemma tsym_ltb_trans x y z :
  tsym_ltb x y = true -> tsym_ltb y z = true -> tsym_ltb x z = true.
Proof.
  destruct x, y, z; simpl; try discriminate; try reflexivity.
  apply Zltb_trans.
Qed.

Lemma tsym_ltb_total x y : tsym_ltb x y = false -> tsym_ltb y x = false -> x = y.
Proof.
  destruct x, y; simpl; try discriminate; try reflexivity.
  intros H1 H2. f_equal. now apply Zltb_total.
Qed.

(** ** Insertion sort *)

Section SortFacts.

Context {A : Type}.
Variable leb : A -> A -> bool.

Lemma insert_sorted_perm x l : Permutation (insert_sorted leb x l) (x :: l).
Proof.
  induction l as [| y l IH]; simpl; [reflexivity |].
  destruct (leb x y); [reflexivity |].
  rewrite IH. apply perm_swap.
Qed.

Lemma isort_perm l : Permutation (isort leb l) l.
Proof.
  induction l as [| x l IH]; simpl; [reflexivity |].
  rewrite insert_sorted_perm. now constructor.
Qed.

Lemma isort_length l : length (isort leb l) = length l.
Proof. apply Permutation_length, isort_perm. Qed.

Hypothesis leb_total : forall x y, leb x y = true \/ leb y x = true.
Hypothesis leb_trans : forall x y z, leb x y = true -> leb y z = true -> leb x z = true.

Lemma insert_sorted_sorted x l :
  StronglySorted (fun a b => leb a b = true) l ->
  StronglySorted (fun a b => leb a b = true) (insert_sorted leb x l).
Proof.
  induction 1 as [| y l Hs IH Hall]; simpl.
  - repeat constructor.
  - destruct (leb x y) eqn:E.
    + constructor; [now constructor |].
      constructor; [assumption |].
      eapply Forall_impl; [| exact Hall]. intros z Hz. eapply leb_trans; eassumption.
    + constructor; [assumption |].
      eapply Permutation_Forall; [symmetry; apply insert_sorted_perm |].
      constructor; [| assumption].
      destruct (leb_total x y); congruence.
Qed.

Lemma isort_sorted l : StronglySorted (fun a b => leb a b = true) (isort leb l).
Proof.
  induction l as [| x l IH]; simpl; [constructor |].
  now apply insert_sorted_sorted.
Qed.


End SortFacts.

(** Sorting commutes with a map that preserves the comparison. *)
Lemma isort_map {A B : Type} (leb : A -> A -> bool) (leb' : B -> B -> bool)
    (f : A -> B) (l : list A) :
  (forall x y, leb' (f x) (f y) = leb x y) ->
  isort leb' (map f l) = map f (isort leb l).
Proof.
  intros H. induction l as [| x l IH]; simpl; [reflexivity |].
  rewrite IH. generalize (isort leb l). intros s.
  induction s as [| y s IHs]; simpl; [reflexivity |].
  rewrite H. destruct (leb x y); simpl; [reflexivity |]. now rewrite IHs.
Qed.

(** An element below all the others, sorted last in, comes out first. *)
Lemma isort_app_least {A : Type} (leb : A -> A -> bool) (l : list A) (m : A) :
  (forall x, In x l -> leb x m = false) ->
  isort leb (l ++ [m]) = m :: isort leb l.
Proof.
  induction l as [| x l IH]; intros H; simpl; [reflexivity |].
  rewrite IH by (intros y Hy; apply H; now right).
  simpl. now rewrite H by now left.
Qed.

(** ** The suffix array *)


Section SuffixOrder.

Variable T : list Z.

Lemma suffix_leb_total p q : suffix_leb T p q = true \/ suffix_leb T q p = true.
Proof. apply lex_leb_total. Qed.

Lemma suffix_leb_trans p q r :
  suffix_leb T p q = true -> suffix_leb T q r = true -> suffix_leb T p r = true.
Proof.
  unfold suffix_leb. intros H1 H2.
  eapply lex_leb_trans; eauto using Zltb_irrefl, Zltb_trans, Zltb_total.
Qed.

Lemma suffix_length p : 0 <= p <= size T -> size (suffix T p) = size T - p.
Proof.
  intros H. unfold suffix, size in *. rewrite length_skipn. lia.
Qed.

(** Two positions with the same suffix are the same position. *)
Lemma suffix_leb_antisym p q :
  0 <= p <= size T -> 0 <= q <= size T ->
  suffix_leb T p q = true -> suffix_leb T q p = true -> p = q.
Proof.
  intros Hp Hq H1 H2.
  assert (E : suffix T p = suffix T q).
  { eapply lex_leb_antisym; eauto using Zltb_irrefl, Zltb_trans, Zltb_total. }
  pose proof (suffix_length p Hp) as Lp. pose proof (suffix_length q Hq) as Lq.
  rewrite E in Lp. lia.
Qed.

Lemma sorted_suffixes_perm : Permutation (sorted_suffixes T) (zrange 0 (length T)).
Proof. apply isort_perm. Qed.

Lemma sorted_suffixes_sorted :
  StronglySorted (fun p q => suffix_leb T p q = true) (sorted_suffixes T).
Proof. apply isort_sorted; [apply suffix_leb_total | apply suffix_leb_trans]. Qed.

Lemma sorted_suffixes_length : length (sorted_suffixes T) = length T.
Proof. unfold sorted_suffixes. now rewrite isort_length, zrange_length. Qed.

Lemma in_sorted_suffixes p : In p (sorted_suffixes T) <-> 0 <= p < size T.
Proof.
  split; intros H.
  - apply (Permutation_in _ sorted_suffixes_perm) in H.
    apply in_zrange in H. unfold size. lia.
  - apply (Permutation_in _ (Permutation_sym sorted_suffixes_perm)).
    apply in_zrange. unfold size in H. lia.
Qed.

Lemma NoDup_zrange start n : NoDup (zrange start n).
Proof.
  unfold zrange. apply Finite.Injective_map_NoDup; [| apply seq_NoDup].
  intros a b. lia.
Qed.

Lemma sorted_suffixes_NoDup : NoDup (sorted_suffixes T).
Proof.
  eapply Permutation_NoDup; [symmetry; apply sorted_suffixes_perm |].
  apply NoDup_zrange.
Qed.



End SuffixOrder.



Lemma filter_none {A : Type} (f : A -> bool) (l : list A) :
  (forall x, In x l -> f x = false) -> filter f l = [].
Proof.
  induction l as [| x l IH]; intros H; simpl; [reflexivity |].
  rewrite (H x) by now left. apply IH. intros y Hy. apply H. now right.
Qed.

Section Blockwise.

Variable T : list Z.





End Blockwise.

(** ** The handler of the single-string transform *)




Lemma vector_at_app_l a b i : 0 <= i < size a -> vector_at (a ++ b) i = vector_at a i.
Proof. unfold vector_at, size. intros H. apply app_nth1. lia. Qed.

Lemma vector_at_app_r a b i :
  size a <= i -> vector_at (a ++ b) i = vector_at b (i - size a).
Proof.
  unfold vector_at, size. intros H. rewrite app_nth2 by lia. f_equal. lia.
Qed.

Lemma map_vector_at v : map (vector_at v) (zrange 0 (length v)) = v.
Proof.
  unfold zrange. rewrite map_map.
  transitivity (map (fun i => nth i v 0) (seq 0 (length v)));
    [| apply map_nth_seq].
  apply map_ext. intros k. unfold vector_at. now rewrite Z.add_0_l, Nat2Z.id.
Qed.

Lemma size_app {A : Type} (a b : list A) : size (a ++ b) = size a + size b.
Proof. unfold size. rewrite length_app. lia. Qed.

Lemma size_map {A B : Type} (f : A -> B) (l : list A) : size (map f l) = size l.
Proof. unfold size. now rewrite length_map. Qed.

Section HandlerFacts.


End HandlerFacts.



(** ** Shifting back the symbols that follow the primary *)





Section ShiftLoop.

Variable index_bits : Z.
Variable max_block_size : Z.
Variable len : Z.

Hypothesis block_positive : 0 < max_block_size < 2 ^ 32.
Hypothesis no_wrap : len + max_block_size <= 2 ^ index_bits.


End ShiftLoop.

(** ** The state of the output when the blockwise sorter returns *)

Lemma read_app out offset n1 n2 :
  read out offset (n1 + n2)
  = read out offset n1 ++ read out (offset + Z.of_nat n1) n2.
Proof. unfold read. now rewrite zrange_app, map_app. Qed.

Lemma read_ext out out' offset n :
  (forall j, offset <= j < offset + Z.of_nat n -> cells out j = cells out' j) ->
  read out offset n = read out' offset n.
Proof.
  intros H. unfold read. apply map_ext_in. intros j Hj.
  apply H. now apply in_zrange.
Qed.

Lemma zrange_shift (g : Z -> Z) start d n :
  map (fun j => g (j + d)) (zrange start n) = map g (zrange (start + d) n).
Proof.
  unfold zrange. rewrite !map_map. apply map_ext. intros k. f_equal. lia.
Qed.


Section SortedState.

Variable index_bits : Z.
Variable T : list Z.
Variable out : buffer.

Local Abbreviation N := (size T).
Local Abbreviation f := (string_bwt_functor (u32 (size T)) T).
Local Abbreviation sa := (sorted_suffixes T).

Hypothesis nonempty : 1 <= N.
Hypothesis fits : N + 2 <= 2 ^ 32.
Hypothesis alphabet : Forall (fun c => 0 <= c < 255) T.





(** The suffix array splits around position 0. *)
Lemma sa_split :
  exists sa1 sa2,
    sa = sa1 ++ 0 :: sa2
    /\ ~ In 0 sa1 /\ ~ In 0 sa2
    /\ size sa1 + 1 + size sa2 = N.
Proof.
  assert (H0 : In 0 sa) by (apply in_sorted_suffixes; lia).
  apply in_split in H0. destruct H0 as (sa1 & sa2 & E).
  exists sa1, sa2. split; [exact E |].
  pose proof (sorted_suffixes_NoDup T) as Hnd. rewrite E in Hnd.
  pose proof (NoDup_remove_2 _ _ _ Hnd) as Hnot.
  repeat split.
  - intros H. apply Hnot, in_or_app. now left.
  - intros H. apply Hnot, in_or_app. now right.
  - pose proof (sorted_suffixes_length T) as Hl.
    rewrite E, length_app in Hl. cbn [length] in Hl. unfold size. lia.
Qed.



End SortedState.

(** ** Sorted rotations and sorted suffixes *)

(** Sorting commutes with a map that preserves the comparison of the
    elements of the list. *)
Lemma isort_map_in {A B : Type} (leb : A -> A -> bool) (leb' : B -> B -> bool)
    (f : A -> B) (l : list A) :
  (forall x y, In x l -> In y l -> leb' (f x) (f y) = leb x y) ->
  isort leb' (map f l) = map f (isort leb l).
Proof.
  induction l as [| x l IH]; intros H; simpl; [reflexivity |].
  rewrite IH by (intros a b Ha Hb; apply H; now right).
  assert (Hs : forall y, In y (isort leb l) -> In y l).
  { intros y. apply Permutation_in, isort_perm. }
  revert Hs. generalize (isort leb l). intros s Hs.
  induction s as [| y s IHs]; simpl; [reflexivity |].
  rewrite H; [| now left | right; apply Hs; now left].
  destruct (leb x y); simpl; [reflexivity |].
  rewrite IHs; [reflexivity |]. intros z Hz. apply Hs. now right.
Qed.

(** Two texts that end with a dollar at different distances compare as
    their parts before the dollar do. *)
Lemma lex_leb_dollar a : forall b x y,
  length a <> length b ->
  lex_leb tsym_ltb (map Sym a ++ Dollar :: x) (map Sym b ++ Dollar :: y)
  = lex_leb Z.ltb a b.
Proof.
  induction a as [| c a IH]; intros [| d b] x y Hl; simpl in *;
    try reflexivity; try lia.
  rewrite IH by lia. reflexivity.
Qed.

Section Rotations.

Variable T : list Z.
Local Abbreviation N := (length T).

Lemma rotation_with_dollar i :
  (i <= N)%nat ->
  rotation (with_dollar T) i
  = map Sym (skipn i T) ++ Dollar :: map Sym (firstn i T).
Proof.
  intros H. unfold rotation, with_dollar.
  rewrite skipn_app, firstn_app, length_map.
  replace (i - length T)%nat with 0%nat by lia.
  cbn [skipn firstn]. rewrite app_nil_r, <- app_assoc.
  now rewrite skipn_map, firstn_map.
Qed.

(** Rotations of [T$] compare as the suffixes of [T] they start with. *)
Lemma rotation_leb i j :
  (i <= N)%nat -> (j <= N)%nat ->
  lex_leb tsym_ltb (rotation (with_dollar T) i) (rotation (with_dollar T) j)
  = suffix_leb T (Z.of_nat i) (Z.of_nat j).
Proof.
  intros Hi Hj. unfold suffix_leb, suffix. rewrite !Nat2Z.id.
  destruct (Nat.eq_dec i j) as [-> | Hne].
  - rewrite lex_leb_refl by apply tsym_ltb_irrefl.
    now rewrite lex_leb_refl by apply Zltb_irrefl.
  - rewrite !rotation_with_dollar by assumption.
    apply lex_leb_dollar. rewrite !length_skipn. lia.
Qed.

(** The symbol in the last column of a rotation. *)
Lemma rotation_last i :
  (i <= N)%nat ->
  last (rotation (with_dollar T) i) Dollar
  = if (Z.of_nat i =? 0) then Dollar
    else Sym (string_at T (Z.of_nat i - 1)).
Proof.
  intros Hi. rewrite rotation_with_dollar by assumption.
  destruct i as [| i].
  - cbn [firstn map]. rewrite last_last. reflexivity.
  - destruct (Z.eqb_spec (Z.of_nat (S i)) 0); [lia |].
    replace (Dollar :: map Sym (firstn (S i) T))
      with ((Dollar :: map Sym (firstn i T))
            ++ [Sym (string_at T (Z.of_nat (S i) - 1))]).
    + now rewrite app_assoc, last_last.
    + cbn [app]. f_equal. unfold string_at.
      replace (Z.to_nat (Z.of_nat (S i) - 1)) with i by lia.
      assert (Hlt : (i < length T)%nat) by lia.
      clear Hi n. revert i Hlt.
      induction T as [| c l IHl]; intros i Hlt; cbn [length] in Hlt; [lia |].
      destruct i as [| i]; [reflexivity |].
      cbn [firstn map nth app]. f_equal. apply IHl. lia.
Qed.

(** The sorted rotations are the rotation at [N], then the rotations at
    the positions of the suffix array. *)
Lemma sorted_rotations :
  isort (lex_leb tsym_ltb) (rotations (with_dollar T))
  = map (fun p => rotation (with_dollar T) (Z.to_nat p))
        (Z.of_nat N :: sorted_suffixes T).
Proof.
  unfold rotations, with_dollar. rewrite length_app, length_map.
  cbn [length]. fold (with_dollar T).
  rewrite (isort_map_in
             (fun i j => suffix_leb T (Z.of_nat i) (Z.of_nat j))).
  2: { intros i j Hi Hj. apply in_seq in Hi. apply in_seq in Hj.
       apply rotation_leb; lia. }
  replace (N + 1)%nat with (N + 1)%nat by reflexivity.
  rewrite seq_app. cbn [seq Nat.add].
  rewrite isort_app_least.
  2: { intros i Hi. apply in_seq in Hi. unfold suffix_leb, suffix.
       rewrite !Nat2Z.id. rewrite skipn_all.
       destruct (skipn i T) eqn:E; [| reflexivity].
       apply (f_equal (@length Z)) in E. rewrite length_skipn in E.
       cbn in E. lia. }
  cbn [map]. rewrite Nat2Z.id. f_equal.
  unfold sorted_suffixes, zrange.
  rewrite (isort_map_in (fun i j => suffix_leb T (Z.of_nat i) (Z.of_nat j))
             (suffix_leb T) (fun k => 0 + Z.of_nat k)).
  2: { intros i j _ _. reflexivity. }
  rewrite map_map. apply map_ext. intros i. now rewrite Z.add_0_l, Nat2Z.id.
Qed.

End Rotations.

(** The reference transform, through the suffix array. *)
Lemma bwt_reference_shape T :
  (1 <= length T)%nat ->
  bwt_reference T
  = Sym (string_at T (size T - 1))
    :: map (fun p => if p =? 0 then Dollar else Sym (string_at T (p - 1)))
           (sorted_suffixes T).
Proof.
  intros HN. unfold bwt_reference. rewrite sorted_rotations, map_map.
  cbn [map]. f_equal.
  - rewrite Nat2Z.id, rotation_last by lia.
    destruct (Z.eqb_spec (Z.of_nat (length T)) 0); [lia | reflexivity].
  - apply map_ext_in. intros p Hp. apply in_sorted_suffixes in Hp.
    unfold size in Hp. rewrite rotation_last by lia.
    now rewrite Z2Nat.id by lia.
Qed.


Lemma dollar_position_app a w :
  dollar_position (map Sym a ++ Dollar :: w) = size a.
Proof.
  unfold size. induction a as [| c a IH]; cbn [map app dollar_position length].
  - reflexivity.
  - rewrite IH. lia.
Qed.

(** ** cuda::bwt on a single string *)

Lemma feed_batches_copies batches : forall h,
  exists more,
    copies (output (fold_left (fun h batch => process_batch h (size batch) batch)
                              batches h))
    = copies (output h) ++ more
    /\ length more = length batches.
Proof.
  induction batches as [| b rest IH]; intros h; cbn [fold_left].
  - exists []. now rewrite app_nil_r.
  - destruct (IH (process_batch h (size b) b)) as (more & Hc & Hl).
    exists ((u32 (n_output h + 1),
             map (vector_at (map (string_bwt_functor (string_len h) (string h))
                                 (firstn (Z.to_nat (size b)) b)))
                 (zrange 0 (Z.to_nat (size b)))) :: more).
    rewrite Hc. cbn [process_batch output device_copy copies length].
    rewrite <- app_assoc. split; [reflexivity | now rewrite Hl].
Qed.

(** C5. For a non-empty string the first copy [cuda::bwt] makes to the
    output is the symbol [T[N-1]], at position 0; the copies of the
    batches of sorted suffixes, one for each bucket, all come after it. *)
Theorem bwt_first_symbol (index_bits : Z) (T : list Z) (out : buffer) :
  1 <= size T ->
  exists batch_copies,
    copies (output (bwt_sorted index_bits (size T) T out))
    = copies out ++ (0, [string_at T (size T - 1)]) :: batch_copies
    /\ length batch_copies = length (blockwise_batches T).
Proof.
  intros _. unfold bwt_sorted, blockwise_suffix_sort.
  match goal with
  | |- context [fold_left _ _ ?h0] =>
      destruct (feed_batches_copies (blockwise_batches T) h0) as (more & Hc & Hl)
  end.
  exists more. split; [| exact Hl]. rewrite Hc.
  cbn [StringBWTHandler_new output device_copy copies].
  rewrite <- app_assoc. unfold idx. rewrite Zmod_0_l.
  change (zrange 0 (Z.to_nat 1)) with [0]. cbn [map app].
  now rewrite Z.add_0_r.
Qed.





Lemma functor_not_zero len T l :
  ~ In 0 l ->
  map (fun p => if p =? 0 then Dollar else Sym (string_at T (p - 1))) l
  = map Sym (map (string_bwt_functor len T) l).
Proof.
  intros H. rewrite map_map. apply map_ext_in. intros p Hp.
  unfold string_bwt_functor. destruct (Z.eqb_spec p 0); [| reflexivity].
  subst. contradiction.
Qed.


(** ** cuda::find_primary *)

Lemma count_fold (g : Z -> bool) (l : list Z) : forall a,
  0 <= a -> a + size l < 2 ^ 32 ->
  fold_left (fun acc p => u32 (acc + (if g p then 1 else 0))) l a
  = a + size (filter g l).
Proof.
  unfold size. induction l as [| p l IH]; intros a Ha Hb; cbn [fold_left filter length].
  - lia.
  - cbn [length] in Hb.
    rewrite u32_small by (destruct (g p); lia).
    rewrite IH by (destruct (g p); lia).
    destruct (g p); cbn [length]; lia.
Qed.

Lemma filter_length_perm {A : Type} (g : A -> bool) (l l' : list A) :
  Permutation l l' -> length (filter g l) = length (filter g l').
Proof.
  induction 1; cbn [filter]; try congruence.
  - destruct (g x); cbn [length]; congruence.
  - destruct (g x), (g y); reflexivity.
Qed.

Lemma filter_all {A : Type} (g : A -> bool) (l : list A) :
  (forall x, In x l -> g x = true) -> filter g l = l.
Proof.
  induction l as [| x l IH]; intros H; cbn [filter]; [reflexivity |].
  rewrite (H x) by now left. f_equal. apply IH. intros y Hy. apply H. now right.
Qed.

Lemma StronglySorted_split {A : Type} (R : A -> A -> Prop) (l1 l2 : list A) (x : A) :
  StronglySorted R (l1 ++ x :: l2) ->
  Forall (fun y => R y x) l1 /\ Forall (R x) l2.
Proof.
  induction l1 as [| y l1 IH]; cbn [app]; intros H; inversion H; subst.
  - split; [constructor | assumption].
  - destruct (IH H2) as [H1 H1']. split; [| assumption].
    constructor; [| assumption].
    rewrite Forall_forall in H3. apply H3, in_or_app. right. now left.
Qed.

Section Primary.

Variable T : list Z.
Local Abbreviation N := (size T).
Hypothesis nonempty : 1 <= N.

Local Abbreviation less0 := (fun p => string_suffix_less T p 0).

(** The suffixes before the suffix at 0 in the suffix array are the
    suffixes smaller than it. *)
Lemma smaller_suffixes sa1 sa2 :
  sorted_suffixes T = sa1 ++ 0 :: sa2 -> ~ In 0 sa1 ->
  size sa1 = size (filter less0 (zrange 1 (length T - 1))).
Proof.
  intros E Hn1.
  pose proof (sorted_suffixes_sorted T) as Hs. rewrite E in Hs.
  apply StronglySorted_split in Hs. destruct Hs as [Hbefore Hafter].
  rewrite Forall_forall in Hbefore, Hafter.
  assert (Hin : forall p, In p (sa1 ++ 0 :: sa2) -> 0 <= p < N).
  { intros p Hp. rewrite <- E in Hp. now apply in_sorted_suffixes in Hp. }
  assert (H1 : filter less0 sa1 = sa1).
  { apply filter_all. intros p Hp. cbv beta; unfold string_suffix_less.
    destruct (suffix_leb T 0 p) eqn:E0; [| reflexivity].
    exfalso. apply Hn1.
    assert (p = 0); [| now subst].
    apply (suffix_leb_antisym T); try lia.
    - specialize (Hin p (in_or_app _ _ _ (or_introl Hp))). lia.
    - now apply Hbefore.
    - exact E0. }
  assert (H2 : filter less0 (0 :: sa2) = []).
  { apply filter_none. intros p [<- | Hp]; cbv beta; unfold string_suffix_less.
    - unfold suffix_leb. now rewrite lex_leb_refl by apply Zltb_irrefl.
    - now rewrite (Hafter p Hp). }
  assert (Hz : zrange 0 (length T) = 0 :: zrange 1 (length T - 1)).
  { replace (length T) with (S (length T - 1)) at 1
      by (unfold size in nonempty; lia).
    apply zrange_S. }
  unfold size. f_equal.
  rewrite <- H1 at 1.
  transitivity (length (filter less0 (sa1 ++ 0 :: sa2))).
  - now rewrite filter_app, H2, app_nil_r.
  - rewrite <- E.
    rewrite (filter_length_perm less0 _ _ (sorted_suffixes_perm T)), Hz.
    cbn [filter]. unfold string_suffix_less at 1. unfold suffix_leb at 1.
    now rewrite lex_leb_refl by apply Zltb_irrefl.
Qed.

End Primary.

(** C8. For a string of [N >= 1] symbols, [find_primary] returns one
    plus the number of positions in [[1, N)] whose suffix is smaller
    than the suffix at position 0; this is the position of the
    end-marker in the transform of [T$], and it lies in [[1, N]].
    The length fits in 32 bits. *)
Theorem find_primary_spec (T : list Z) :
  1 <= size T -> size T < 2 ^ 32 ->
  find_primary (size T) T
  = 1 + size (filter (fun p => string_suffix_less T p 0)
                     (zrange 1 (length T - 1)))
  /\ find_primary (size T) T = dollar_position (bwt_reference T)
  /\ 1 <= find_primary (size T) T <= size T.
Proof.
  intros HN Hfit.
  set (smaller := filter (fun p => string_suffix_less T p 0)
                         (zrange 1 (length T - 1))).
  assert (Hle : 0 <= size smaller <= size T - 1).
  { split; [apply size_nonneg |]. unfold smaller, size.
    pose proof (filter_length_le (fun p => string_suffix_less T p 0)
                  (zrange 1 (length T - 1))) as H.
    rewrite zrange_length in H. unfold size in HN. lia. }
  assert (Hfp : find_primary (size T) T = 1 + size smaller).
  { unfold find_primary.
    replace (Z.to_nat (size T - 1)) with (length T - 1)%nat
      by (unfold size; lia).
    rewrite count_fold; [| lia |].
    - fold smaller. rewrite u32_small; lia.
    - unfold size. rewrite zrange_length. unfold size in Hfit. lia. }
  split; [exact Hfp |]. split; [| lia].
  rewrite Hfp.
  destruct (sa_split T HN) as (sa1 & sa2 & E & Hn1 & Hn2 & _).
  rewrite bwt_reference_shape by (unfold size in HN; lia).
  rewrite E, map_app. cbn [map dollar_position].
  rewrite (functor_not_zero 0 T sa1 Hn1), dollar_position_app, size_map.
  rewrite (smaller_suffixes T HN sa1 sa2 E Hn1). reflexivity.
Qed.

(** ** cuda::suffix_sort on a single string *)

Lemma empty_suffix_first T p : suffix_leb T (size T) p = true.
Proof.
  unfold suffix_leb, suffix, size. now rewrite Nat2Z.id, skipn_all.
Qed.

(** C10. [suffix_sort] writes [N], the position of the empty suffix,
    at output position 0 and the positions of the [N] proper suffixes,
    in the order of their suffixes, at the positions 1 to [N]: the
    [N + 1] entries are the positions [0 .. N] in suffix order, the empty
    suffix first, and the rest of the output is untouched. The length
    fits in 32 bits. *)
Theorem suffix_sort_spec (T : list Z) (out : buffer) :
  size T < 2 ^ 32 ->
  let out' := suffix_sort (size T) T out in
  cells out' 0 = size T
  /\ read out' 1 (length T) = sorted_suffixes T
  /\ Permutation (read out' 0 (S (length T))) (zrange 0 (S (length T)))
  /\ StronglySorted (fun p q => suffix_leb T p q = true)
                    (read out' 0 (S (length T)))
  /\ forall j, j < 0 \/ size T < j -> cells out' j = cells out j.
Proof.
  intros Hfit. cbv zeta.
  pose proof (size_nonneg T) as HN.
  assert (H0 : cells (suffix_sort (size T) T out) 0 = size T).
  { unfold suffix_sort, store. cbn [cells]. rewrite Z.eqb_refl.
    apply u32_small. lia. }
  assert (H1 : read (suffix_sort (size T) T out) 1 (length T)
               = sorted_suffixes T).
  { erewrite read_ext
      with (out' := mkBuffer (fun j => vector_at (sorted_suffixes T) (j - 1)) []).
    - unfold read. cbn [cells].
      rewrite (zrange_shift (vector_at (sorted_suffixes T)) 1 (-1)).
      cbn [Z.add Z.pos_sub]. rewrite <- (sorted_suffixes_length T) at 1.
      apply map_vector_at.
    - intros j Hj. unfold suffix_sort, store, PrefixDoublingSufSort_sort.
      cbn [cells device_copy].
      destruct (Z.eqb_spec j 0); [lia |].
      destruct (Z.leb_spec 1 j), (Z.ltb_spec j (1 + size T));
        cbn [andb]; unfold size in *; try lia; reflexivity. }
  assert (Hall : read (suffix_sort (size T) T out) 0 (S (length T))
                 = size T :: sorted_suffixes T).
  { change (S (length T)) with (1 + length T)%nat. rewrite read_app.
    change (0 + Z.of_nat 1) with 1. rewrite H1.
    unfold read at 1. change (zrange 0 1) with [0]. cbn [map app].
    now rewrite H0. }
  split; [exact H0 |]. split; [exact H1 |]. rewrite Hall.
  split; [| split].
  - replace (S (length T)) with (length T + 1)%nat by lia.
    rewrite zrange_app. cbn [zrange seq map]. rewrite Z.add_0_r, Z.add_0_l.
    fold (size T). rewrite <- Permutation_cons_append.
    constructor. apply sorted_suffixes_perm.
  - constructor; [apply sorted_suffixes_sorted |].
    apply Forall_forall. intros p _. apply empty_suffix_first.
  - intros j Hj. unfold suffix_sort, store, PrefixDoublingSufSort_sort.
    cbn [cells device_copy].
    destruct (Z.eqb_spec j 0); [lia |].
    destruct (Z.leb_spec 1 j), (Z.ltb_spec j (1 + size T));
      cbn [andb]; try lia; reflexivity.
Qed.

(** ** BWTParams and the working-set caps *)

Lemma BWTParams_default_values :
  host_memory BWTParams_default = 8 * GiB
  /\ device_memory BWTParams_default = 2 * GiB.
Proof. split; reflexivity. Qed.

(** In their 32-bit range the two caps are the quotients of the
    specification. *)
Lemma working_set_caps p :
  128 * MiB <= host_memory p < 2 ^ 64 ->
  (host_memory p - 128 * MiB) / 8 < 2 ^ 32 ->
  0 <= device_memory p -> device_memory p / 32 < 2 ^ 32 ->
  max_super_block_size_of (Some p) = (host_memory p - 128 * MiB) / 8
  /\ max_block_size_of (Some p) = device_memory p / 32.
Proof.
  intros Hh Hq Hd Hq'. unfold max_super_block_size_of, max_block_size_of.
  change (u32 (u32 (128 * 1024) * 1024)) with (128 * MiB).
  unfold MiB in *. split.
  - unfold u64. rewrite Z.mod_small by lia.
    apply u32_small. split; [apply Z.div_pos; lia | exact Hq].
  - apply u32_small. split; [apply Z.div_pos; lia | exact Hq'].
Qed.

(** C9, at a host budget of 32 GiB + 128 MiB: the quotient of the
    specification is [2^32] suffixes, the capacity [enact] derives is 0,
    and the first non-empty bucket is then reported as a buffer
    overflow. The defaults are 8 GiB and 2 GiB, and the device cap is
    [device_memory / 32]. *)
Theorem super_block_capacity_wraps :
  let p := {| host_memory := 32 * GiB + 128 * MiB;
              device_memory := device_memory BWTParams_default |} in
  host_memory BWTParams_default = 8 * GiB
  /\ device_memory BWTParams_default = 2 * GiB
  /\ max_block_size_of (Some p) = device_memory p / 32
  /\ (host_memory p - 128 * MiB) / 8 = 2 ^ 32
  /\ max_super_block_size_of (Some p) = 0
  /\ max_subbucket_size [1] (max_super_block_size_of (Some p)) 15
       (max_block_size_of (Some p)) LargeBWTStatus_default
     = Thrown (BufferOverflow 0 1).
Proof. cbv zeta. repeat split; vm_compute; reflexivity. Qed.

(** ** Short-string buckets *)

Section Routing.

Variable h_buckets : list Z.
Variable mask : Z.
Variable max_block_size : Z.

Hypothesis counts_nonneg : Forall (fun x => 0 <= x) h_buckets.
Hypothesis block_positive : 0 < max_block_size.
Hypothesis no_wrap : total h_buckets + max_block_size <= 2 ^ 32.
















End Routing.


(** * Instances *)




(** Bucket 0 of the histogram [[9; 0; 3]] holds 9 suffixes, over the
    block size 4, and goes out in blocks of 4, 4 and 1 without sorting. *)
Example direct_emission_run :
  sort_subbuckets [9; 0; 3] 1 4 10 3 0 0 []
  = (Returned 12,
     [DirectBlock 0 0 4; DirectBlock 0 4 4; DirectBlock 0 8 1;
      SortedBlock 1 3 9 3]).
Proof. reflexivity. Qed.


Lemma bwt_first_symbol_witness :
  1 <= size banana
  /\ exists batch_copies,
       copies (output (bwt_sorted 32 (size banana) banana zeros))
       = copies zeros ++ (0, [string_at banana (size banana - 1)]) :: batch_copies
       /\ length batch_copies = length (blockwise_batches banana).
Proof.
  split; [concrete | apply (bwt_first_symbol 32 banana zeros); concrete].
Defined.



Lemma find_primary_spec_witness :
  (1 <= size banana /\ size banana < 2 ^ 32)
  /\ find_primary (size banana) banana
     = 1 + size (filter (fun p => string_suffix_less banana p 0)
                        (zrange 1 (length banana - 1)))
  /\ find_primary (size banana) banana = dollar_position (bwt_reference banana)
  /\ 1 <= find_primary (size banana) banana <= size banana.
Proof.
  split; [split; concrete | apply (find_primary_spec banana); concrete].
Defined.

Lemma suffix_sort_spec_witness :
  size banana < 2 ^ 32
  /\ let out' := suffix_sort (size banana) banana zeros in
     cells out' 0 = size banana
     /\ read out' 1 (length banana) = sorted_suffixes banana
     /\ Permutation (read out' 0 (S (length banana)))
                    (zrange 0 (S (length banana)))
     /\ StronglySorted (fun p q => suffix_leb banana p q = true)
                       (read out' 0 (S (length banana)))
     /\ forall j, j < 0 \/ size banana < j -> cells out' j = cells zeros j.
Proof.
  split; [concrete | apply (suffix_sort_spec banana zeros); concrete].
Defined.

(** The scenarios of the specification: "banana" has the transform
    [annb$aa] with the primary at 4, and its suffix array is
    [6 5 3 1 0 4 2]. *)
Example banana_bwt :
  (let '(P, out') := match bwt 32 1 6 banana zeros with
                     | Some r => r | None => (0, zeros) end in
   (P, read out' 0 6))
  = (4, [97; 110; 110; 98; 97; 97]).
Proof. vm_compute. reflexivity. Qed.

Example banana_suffix_array :
  read (suffix_sort 6 banana zeros) 0 7 = [6; 5; 3; 1; 0; 4; 2].
Proof. vm_compute. reflexivity. Qed.

(** * Further properties *)

(** ** Growing a block of buckets *)

Lemma fits_at limit h k :
  0 <= limit < 2 ^ 32 -> fits limit h ->
  0 <= at_ h k /\ at_ h k + limit < 2 ^ 32.
Proof.
  intros Hl Hf. unfold at_.
  destruct (nth_in_or_default (Z.to_nat k) h 0) as [Hin | ->].
  - unfold fits in Hf. rewrite Forall_forall in Hf. now apply Hf.
  - lia.
Qed.

Lemma range_sum_nil h a : range_sum h a a = 0.
Proof. unfold range_sum. now rewrite Z.sub_diag. Qed.

Lemma range_sum_first h a b :
  a < b -> range_sum h a b = at_ h a + range_sum h (a + 1) b.
Proof.
  intros Hab. unfold range_sum.
  replace (Z.to_nat (b - a)) with (S (Z.to_nat (b - (a + 1)))) by lia.
  now rewrite zrange_S.
Qed.

Lemma range_sum_nonneg h a b :
  (forall k, 0 <= at_ h k) -> 0 <= range_sum h a b.
Proof.
  intros Hh. unfold range_sum.
  generalize (Z.to_nat (b - a)). intros n. revert a.
  induction n as [| n IH]; intros a.
  - simpl. lia.
  - rewrite zrange_S. cbn [map total fold_right]. specialize (IH (a + 1)).
    specialize (Hh a). unfold total in IH. lia.
Qed.

Lemma range_sum_split h a b c :
  a <= b <= c -> range_sum h a c = range_sum h a b + range_sum h b c.
Proof.
  intros Habc. unfold range_sum.
  replace (Z.to_nat (c - a)) with (Z.to_nat (b - a) + Z.to_nat (c - b))%nat by lia.
  rewrite zrange_app, map_app.
  replace (a + Z.of_nat (Z.to_nat (b - a))) with b by lia.
  unfold total. rewrite fold_right_app.
  generalize (map (at_ h) (zrange a (Z.to_nat (b - a)))).
  intros l. induction l as [| x l IH]; simpl; lia.
Qed.

Lemma range_sum_all h : range_sum h 0 (size h) = total h.
Proof.
  unfold range_sum, size, at_, zrange. rewrite Z.sub_0_r, Nat2Z.id, map_map.
  f_equal. erewrite map_ext; [apply map_nth_seq |].
  intros k. simpl. now rewrite Nat2Z.id.
Qed.

Lemma range_sum_le h a k b :
  (forall j, 0 <= at_ h j) -> a <= k < b -> at_ h k <= range_sum h a b.
Proof.
  intros Hh Hk.
  rewrite (range_sum_split h a k b) by lia.
  rewrite (range_sum_first h k b) by lia.
  pose proof (range_sum_nonneg h a k Hh).
  pose proof (range_sum_nonneg h (k + 1) b Hh). lia.
Qed.

(** The block grown from [bucket_end]: its size is the sum of the
    buckets it took, it is within the limit, and the bucket it stopped
    at would have exceeded the limit. *)
Lemma grow_block_sum h limit upto n : forall e s,
  (forall k, 0 <= at_ h k /\ at_ h k + limit < 2 ^ 32) ->
  0 <= s <= limit ->
  let r := grow_block h limit upto n e s in
  e <= fst r
  /\ snd r = s + range_sum h e (fst r)
  /\ snd r <= limit
  /\ (fst r < e + Z.of_nat n -> fst r < upto -> snd r + at_ h (fst r) > limit).
Proof.
  induction n as [| n IH]; intros e s Hh Hs; cbv zeta.
  - cbn [grow_block fst snd]. rewrite range_sum_nil. lia.
  - cbn [grow_block].
    destruct (Z.ltb_spec e upto) as [Hlt | Hge]; cbn [andb].
    + pose proof (Hh e) as He.
      rewrite (u32_small (s + at_ h e)) by lia.
      destruct (Z.leb_spec (s + at_ h e) limit) as [Hle | Hgt].
      * specialize (IH (e + 1) (s + at_ h e) Hh ltac:(lia)). cbv zeta in IH.
        destruct IH as (I1 & I2 & I3 & I4).
        split; [lia |]. split; [| split; [assumption |]].
        -- rewrite I2, (range_sum_first h e) by lia. lia.
        -- intros H1 H2. apply I4; lia.
      * cbn [fst snd]. rewrite range_sum_nil. lia.
    + cbn [fst snd]. rewrite range_sum_nil. lia.
Qed.

(** A super-block either takes no bucket, because the first one alone
    exceeds the capacity, or takes a run of buckets whose sum is within
    the capacity and cannot be extended. *)
Lemma grow_super_block_cases h max_super b :
  0 <= max_super < 2 ^ 32 -> fits max_super h -> 0 <= b < size h ->
  let r := grow_super_block h max_super b in
  (fst r = b /\ at_ h b > max_super)
  \/ (b < fst r <= size h
      /\ snd r = range_sum h b (fst r)
      /\ snd r <= max_super
      /\ (fst r < size h -> snd r + at_ h (fst r) > max_super)).
Proof.
  intros Hm Hf Hb. cbv zeta. unfold grow_super_block.
  pose proof (grow_block_sum h max_super (size h)
                (Z.to_nat (size h - b)) b 0
                (fun k => fits_at max_super h k Hm Hf) ltac:(lia)) as Hg.
  pose proof (grow_block_bounds h max_super (size h)
                (Z.to_nat (size h - b)) b 0) as Hbd.
  cbv zeta in Hg. destruct (grow_block _ _ _ _ _ _) as [e s].
  cbn [fst snd] in *. destruct Hg as (G1 & G2 & G3 & G4).
  destruct (Z.eq_dec e b) as [-> | Hne].
  - left. split; [reflexivity |]. rewrite range_sum_nil in G2.
    specialize (G4 ltac:(lia) ltac:(lia)). lia.
  - right. repeat split; lia.
Qed.

Lemma super_block_within h max_super b e :
  (forall k, 0 <= at_ h k) ->
  range_sum h b e <= max_super ->
  forall k, b <= k < e -> at_ h k <= max_super.
Proof.
  intros Hh Hs k Hk. pose proof (range_sum_le h b k e Hh Hk). lia.
Qed.

(** ** max_subbucket_size: the buffer-overflow error and the result *)

Lemma max_subbucket_loop_outcome h max_super mask fuel : forall b acc,
  0 <= max_super < 2 ^ 32 -> fits max_super h ->
  0 <= b -> size h - b <= Z.of_nat fuel ->
  (forall j, 0 <= j < b -> at_ h j <= max_super) ->
  match max_subbucket_loop h max_super mask fuel b acc with
  | Returned _ => forall k, 0 <= k < size h -> at_ h k <= max_super
  | Thrown e =>
      exists k, 0 <= k < size h /\ at_ h k > max_super
                /\ (forall j, 0 <= j < k -> at_ h j <= max_super)
                /\ e = BufferOverflow k (at_ h k)
  | OutOfFuel => False
  end.
Proof.
  induction fuel as [| fuel IH]; intros b acc Hm Hf Hb Hfuel Hprev;
    cbn [max_subbucket_loop].
  - destruct (Z.ltb_spec b (size h)); [lia |].
    intros k Hk. apply Hprev. lia.
  - destruct (Z.ltb_spec b (size h)) as [Hlt | Hge].
    + pose proof (grow_super_block_cases h max_super b Hm Hf ltac:(lia)) as Hg.
      cbv zeta in Hg.
      destruct (grow_super_block h max_super b) as [e s]. cbn [fst snd] in Hg.
      destruct Hg as [(-> & Hbig) | (He & Hs & Hle & _)].
      * rewrite Z.eqb_refl. exists b. repeat split; try lia. assumption.
      * destruct (Z.eqb_spec e b); [lia |].
        apply IH; try assumption; try lia.
        intros j Hj. destruct (Z.lt_ge_cases j b) as [Hjb | Hjb].
        -- apply Hprev. lia.
        -- apply (super_block_within h max_super b e); try lia.
           intros k. apply (fits_at max_super h k Hm Hf).
    + intros k Hk. apply Hprev. lia.
Qed.

(** A scan keeps the first of the largest buckets: every bucket that is
    not a short-string bucket and comes before the recorded index holds
    fewer suffixes. *)
Lemma scan_subbuckets_first h mask n : forall b m0 i0,
  let r := scan_subbuckets h mask n b (m0, i0) in
  m0 < fst r ->
  forall k, b <= k < snd r -> not_short_string mask k = true ->
            at_ h k < fst r.
Proof.
  induction n as [| n IH]; intros b m0 i0; cbv zeta.
  - cbn [scan_subbuckets fst snd]. lia.
  - cbn [scan_subbuckets].
    destruct (track_subbucket h mask b (m0, i0)) as [m1 i1] eqn:Ht.
    pose proof (scan_subbuckets_spec h mask n (b + 1) m1 i1) as Hs.
    specialize (IH (b + 1) m1 i1). cbv zeta in Hs, IH.
    destruct (scan_subbuckets h mask n (b + 1) (m1, i1)) as [m i] eqn:Er.
    cbn [fst snd] in *. destruct Hs as (H1 & _ & H3).
    intros Hlt k Hk Hns.
    unfold track_subbucket in Ht.
    destruct H3 as [H3 | (Ha & _ & _ & Hd)].
    + inversion H3; subst m i. clear H3.
      destruct (not_short_string mask b) eqn:Hb.
      * destruct (Z.ltb_spec m0 (at_ h b)); inversion Ht; subst; lia.
      * inversion Ht; subst. lia.
    + destruct (Z.eq_dec k b) as [-> | Hne].
      * rewrite Hns in Ht.
        destruct (Z.ltb_spec m0 (at_ h b)); inversion Ht; subst; lia.
      * apply IH; try assumption; lia.
Qed.

(** X1. [max_subbucket_size] throws its buffer-overflow error exactly
    when some bucket, short-string or not, holds more suffixes than a
    super-block can take; the error names the first such bucket and its
    count. Otherwise it returns, and then no bucket exceeds the
    capacity. *)
Theorem max_subbucket_size_overflow (h_buckets : list Z)
    (max_super_block_size mask limit : Z) (status : LargeBWTStatus) :
  0 <= max_super_block_size < 2 ^ 32 ->
  fits max_super_block_size h_buckets ->
  match max_subbucket_size h_buckets max_super_block_size mask limit status with
  | Returned _ =>
      forall k, 0 <= k < size h_buckets -> at_ h_buckets k <= max_super_block_size
  | Thrown e =>
      exists k, 0 <= k < size h_buckets
                /\ at_ h_buckets k > max_super_block_size
                /\ (forall j, 0 <= j < k -> at_ h_buckets j <= max_super_block_size)
                /\ e = BufferOverflow k (at_ h_buckets k)
  | OutOfFuel => False
  end.
Proof.
  intros Hm Hf. unfold max_subbucket_size.
  pose proof (max_subbucket_loop_outcome h_buckets max_super_block_size mask
                (length h_buckets) 0 (0, 0) Hm Hf ltac:(lia)
                ltac:(unfold size; lia) ltac:(intros; lia)) as Ho.
  destruct (max_subbucket_loop _ _ _ _ _ _) as [[m i] | e |].
  - destruct (m >? limit); exact Ho.
  - exact Ho.
  - exact Ho.
Qed.

Lemma max_subbucket_size_overflow_witness :
  (0 <= 5 < 2 ^ 32 /\ fits 5 [3; 9; 7])
  /\ match max_subbucket_size [3; 9; 7] 5 1 4 LargeBWTStatus_default with
     | Returned _ => forall k, 0 <= k < size [3; 9; 7] -> at_ [3; 9; 7] k <= 5
     | Thrown e =>
         exists k, 0 <= k < size [3; 9; 7]
                   /\ at_ [3; 9; 7] k > 5
                   /\ (forall j, 0 <= j < k -> at_ [3; 9; 7] j <= 5)
                   /\ e = BufferOverflow k (at_ [3; 9; 7] k)
     | OutOfFuel => False
     end.
Proof.
  assert (H : 0 <= 5 < 2 ^ 32 /\ fits 5 [3; 9; 7])
    by (unfold fits; concrete).
  split; [exact H |].
  apply (max_subbucket_size_overflow [3; 9; 7] 5 1 4 LargeBWTStatus_default);
    apply H.
Defined.

(** X2. When no bucket exceeds the super-block capacity,
    [max_subbucket_size] returns the largest count among the buckets that
    are not short-string buckets (0 when there is none). Within the limit
    it leaves the status as it was; over the limit it records
    [LargeBucket], that count, and the first bucket that holds it. *)
Theorem max_subbucket_size_largest (h_buckets : list Z)
    (max_super_block_size mask limit : Z) (status : LargeBWTStatus) :
  0 <= max_super_block_size < 2 ^ 32 ->
  fits max_super_block_size h_buckets ->
  0 <= limit ->
  (forall k, 0 <= k < size h_buckets -> at_ h_buckets k <= max_super_block_size) ->
  exists max_size status',
    max_subbucket_size h_buckets max_super_block_size mask limit status
      = Returned (max_size, status')
    /\ (forall k, 0 <= k < size h_buckets ->
          not_short_string mask k = true -> at_ h_buckets k <= max_size)
    /\ (max_size = 0
        \/ exists i, 0 <= i < size h_buckets
                     /\ not_short_string mask i = true
                     /\ at_ h_buckets i = max_size)
    /\ (max_size <= limit -> status' = status)
    /\ (max_size > limit ->
          status' = mkStatus LargeBucket max_size (bucket_index status')
          /\ 0 <= bucket_index status' < size h_buckets
          /\ not_short_string mask (bucket_index status') = true
          /\ at_ h_buckets (bucket_index status') = max_size
          /\ forall k, 0 <= k < bucket_index status' ->
               not_short_string mask k = true -> at_ h_buckets k < max_size).
Proof.
  intros Hm Hf Hlim Hall. unfold max_subbucket_size.
  pose proof (size_nonneg h_buckets) as Hsz.
  pose proof (max_subbucket_loop_outcome h_buckets max_super_block_size mask
                (length h_buckets) 0 (0, 0) Hm Hf ltac:(lia)
                ltac:(unfold size; lia) ltac:(intros; lia)) as Ho.
  destruct (max_subbucket_loop _ _ _ _ _ _) as [[m i] | e |] eqn:E.
  - clear Ho. apply max_subbucket_loop_scan in E; [| lia].
    pose proof (scan_subbuckets_spec h_buckets mask
                  (Z.to_nat (size h_buckets - 0)) 0 0 0) as Hs.
    pose proof (scan_subbuckets_first h_buckets mask
                  (Z.to_nat (size h_buckets - 0)) 0 0 0) as Hfst.
    cbv zeta in Hs, Hfst. rewrite <- E in Hs, Hfst. cbn [fst snd] in Hs, Hfst.
    replace (0 + Z.of_nat (Z.to_nat (size h_buckets - 0))) with (size h_buckets)
      in * by lia.
    destruct Hs as (H1 & H2 & H3).
    assert (Hatt : m = 0
                   \/ exists i0, 0 <= i0 < size h_buckets
                                 /\ not_short_string mask i0 = true
                                 /\ at_ h_buckets i0 = m).
    { destruct H3 as [H3 | (Ha & Hb & Hc & _)].
      - left. now inversion H3.
      - right. exists i. repeat split; assumption || lia. }
    destruct (Z.gtb_spec m limit) as [Hgt | Hle].
    + eexists _, _. split; [reflexivity |].
      split; [exact H2 |]. split; [exact Hatt |].
      split; [lia |]. intros _. cbn [bucket_index].
      destruct H3 as [H3 | (Ha & Hb & Hc & Hd)]; [inversion H3; lia |].
      split; [reflexivity |]. repeat split; try assumption; try lia.
      intros k Hk Hns. apply Hfst; [lia | lia | assumption].
    + eexists _, _. split; [reflexivity |].
      split; [exact H2 |]. split; [exact Hatt |].
      split; [reflexivity | lia].
  - destruct Ho as (k & Hk & Hbig & _). specialize (Hall k Hk). lia.
  - contradiction.
Qed.

Lemma max_subbucket_size_largest_witness :
  (0 <= 20 < 2 ^ 32 /\ fits 20 [3; 9; 7; 9] /\ 0 <= 4
   /\ forall k, 0 <= k < size [3; 9; 7; 9] -> at_ [3; 9; 7; 9] k <= 20)
  /\ exists max_size status',
       max_subbucket_size [3; 9; 7; 9] 20 1 4 LargeBWTStatus_default
         = Returned (max_size, status')
       /\ (forall k, 0 <= k < size [3; 9; 7; 9] ->
             not_short_string 1 k = true -> at_ [3; 9; 7; 9] k <= max_size)
       /\ (max_size = 0
           \/ exists i, 0 <= i < size [3; 9; 7; 9]
                        /\ not_short_string 1 i = true
                        /\ at_ [3; 9; 7; 9] i = max_size)
       /\ (max_size <= 4 -> status' = LargeBWTStatus_default)
       /\ (max_size > 4 ->
             status' = mkStatus LargeBucket max_size (bucket_index status')
             /\ 0 <= bucket_index status' < size [3; 9; 7; 9]
             /\ not_short_string 1 (bucket_index status') = true
             /\ at_ [3; 9; 7; 9] (bucket_index status') = max_size
             /\ forall k, 0 <= k < bucket_index status' ->
                  not_short_string 1 k = true -> at_ [3; 9; 7; 9] k < max_size).
Proof.
  assert (H : 0 <= 20 < 2 ^ 32 /\ fits 20 [3; 9; 7; 9] /\ 0 <= 4
              /\ forall k, 0 <= k < size [3; 9; 7; 9] ->
                           at_ [3; 9; 7; 9] k <= 20).
  { split; [lia |]. split; [unfold fits; concrete |]. split; [lia |].
    intros k Hk. unfold size in Hk. cbn [length] in Hk.
    assert (Hc : k = 0 \/ k = 1 \/ k = 2 \/ k = 3) by lia.
    destruct Hc as [-> | [-> | [-> | ->]]]; vm_compute; discriminate. }
  split; [exact H |].
  apply (max_subbucket_size_largest [3; 9; 7; 9] 20 1 4 LargeBWTStatus_default);
    apply H.
Defined.

(** ** build_subbuckets *)

Lemma set_nth_length v i x : length (set_nth v i x) = length v.
Proof.
  revert i. induction v as [| y v IH]; intros [| i]; simpl; congruence.
Qed.

Lemma nth_set_nth_eq v i x d : (i < length v)%nat -> nth i (set_nth v i x) d = x.
Proof.
  revert i. induction v as [| y v IH]; intros [| i] Hi; simpl in *; try lia.
  apply IH. lia.
Qed.

Lemma nth_set_nth_ne v i x j d : j <> i -> nth j (set_nth v i x) d = nth j v d.
Proof.
  revert i j. induction v as [| y v IH]; intros [| i] [| j] Hne; simpl;
    try reflexivity; try congruence.
  apply IH. congruence.
Qed.

Lemma at_set_at_eq v i x : 0 <= i < size v -> at_ (set_at v i x) i = x.
Proof.
  intros Hi. unfold at_, set_at. apply nth_set_nth_eq. unfold size in Hi. lia.
Qed.

Lemma at_set_at_ne v i x j : 0 <= i -> 0 <= j -> j <> i ->
  at_ (set_at v i x) j = at_ v j.
Proof.
  intros Hi Hj Hne. unfold at_, set_at. apply nth_set_nth_ne. lia.
Qed.

Lemma size_set_at v i x : size (set_at v i x) = size v.
Proof. unfold size, set_at. now rewrite set_nth_length. Qed.

(** The inner loop of [build_subbuckets] takes the buckets the loop of
    [enact] takes. *)
Lemma point_subbuckets_end h B e sb n : forall se s tbl,
  fst (point_subbuckets h B e sb n se s tbl) = fst (grow_block h B e n se s).
Proof.
  induction n as [| n IH]; intros se s tbl; cbn [point_subbuckets grow_block].
  - reflexivity.
  - destruct ((se <? e) && (u32 (s + at_ h se) <=? B)); [apply IH | reflexivity].
Qed.

(** It points the buckets it takes to [subbucket_begin] and leaves the
    other entries alone. *)
Lemma point_subbuckets_table h B e sb n : forall se s tbl,
  0 <= se -> e <= size tbl ->
  let r := point_subbuckets h B e sb n se s tbl in
  size (snd r) = size tbl
  /\ (forall j, se <= j < fst r -> at_ (snd r) j = sb)
  /\ (forall j, 0 <= j -> ~ (se <= j < fst r) -> at_ (snd r) j = at_ tbl j).
Proof.
  induction n as [| n IH]; intros se s tbl Hse He; cbv zeta;
    cbn [point_subbuckets].
  - cbn [fst snd]. repeat split; try reflexivity. lia.
  - destruct (Z.ltb_spec se e) as [Hlt | Hge]; cbn [andb].
    + destruct (u32 (s + at_ h se) <=? B).
      * specialize (IH (se + 1) (u32 (s + at_ h se)) (set_at tbl se sb)
                       ltac:(lia) ltac:(rewrite size_set_at; lia)).
        cbv zeta in IH.
        pose proof (point_subbuckets_end h B e sb n (se + 1)
                      (u32 (s + at_ h se)) (set_at tbl se sb)) as Hend.
        pose proof (grow_block_bounds h B e n (se + 1) (u32 (s + at_ h se)))
          as Hbd.
        destruct (point_subbuckets h B e sb n (se + 1) _ _) as [se' tbl'].
        cbn [fst snd] in *. rewrite <- Hend in Hbd.
        destruct IH as (I1 & I2 & I3).
        rewrite size_set_at in I1. split; [assumption |]. split.
        -- intros j Hj. destruct (Z.eq_dec j se) as [-> | Hne].
           ++ rewrite I3 by lia. apply at_set_at_eq. lia.
           ++ apply I2. lia.
        -- intros j Hj Hout. rewrite I3 by lia. apply at_set_at_ne; lia.
      * cbn [fst snd]. repeat split; try reflexivity. lia.
    + cbn [fst snd]. repeat split; try reflexivity. lia.
Qed.

Lemma subbucket_ok_weaken h mask B tbl lo lo' i :
  lo' <= lo -> subbucket_ok h mask B tbl lo i -> subbucket_ok h mask B tbl lo' i.
Proof. unfold subbucket_ok. cbv zeta. intros Hlo (H1 & H2 & H3). repeat split; try lia; auto. Qed.

(** The sub-buckets of one super-block. *)
Lemma build_subbuckets_block_spec h mask B fuel e : forall sb tbl,
  0 <= B < 2 ^ 32 -> fits B h ->
  0 <= sb -> e <= size h -> size tbl = size h ->
  e - sb <= Z.of_nat fuel ->
  match build_subbuckets_block h mask B fuel e sb tbl with
  | Returned tbl' =>
      size tbl' = size tbl
      /\ (forall j, 0 <= j -> ~ (sb <= j < e) -> at_ tbl' j = at_ tbl j)
      /\ (forall i, sb <= i < e -> subbucket_ok h mask B tbl' sb i)
      /\ (forall k, sb <= k < e -> not_short_string mask k = true ->
            at_ h k <= B)
  | Thrown err =>
      exists k, sb <= k < e /\ not_short_string mask k = true /\ at_ h k > B
                /\ err = BufferOverflow k (at_ h k)
  | OutOfFuel => False
  end.
Proof.
  induction fuel as [| fuel IH]; intros sb tbl HB Hf Hsb He Htbl Hfuel;
    cbn [build_subbuckets_block].
  - destruct (Z.ltb_spec sb e); [lia |].
    repeat split; try reflexivity; intros; lia.
  - destruct (Z.ltb_spec sb e) as [Hlt | Hge];
      [| repeat split; try reflexivity; intros; lia].
    pose proof (fun k => fits_at B h k HB Hf) as Hh.
    destruct (Z.gtb_spec (at_ h sb) B) as [Hbig | Hsmall].
    + destruct (not_short_string mask sb) eqn:Hns.
      * exists sb. repeat split; try lia. assumption.
      * specialize (IH (sb + 1) (set_at tbl sb sb) HB Hf ltac:(lia) He
                       ltac:(rewrite size_set_at; assumption) ltac:(lia)).
        destruct (build_subbuckets_block h mask B fuel e (sb + 1) _)
          as [tbl' | err |]; [| | exact IH].
        -- destruct IH as (I1 & I2 & I3 & I4). rewrite size_set_at in I1.
           assert (Hsb' : at_ tbl' sb = sb).
           { rewrite I2 by lia. apply at_set_at_eq. lia. }
           split; [assumption |]. split; [| split].
           ++ intros j Hj Hout. rewrite I2 by lia. apply at_set_at_ne; lia.
           ++ intros i Hi. destruct (Z.eq_dec i sb) as [-> | Hne].
              ** unfold subbucket_ok. cbv zeta. rewrite Hsb'.
                 split; [lia |]. split.
                 --- intros j Hj. replace j with sb by lia. assumption.
                 --- right. repeat split; assumption || lia.
              ** apply subbucket_ok_weaken with (lo := sb + 1); [lia |].
                 apply I3. lia.
           ++ intros k Hk Hnk. destruct (Z.eq_dec k sb) as [-> | Hne].
              ** congruence.
              ** apply I4; [lia | assumption].
        -- destruct IH as (k & Hk & Hnk & Hbk & ->).
           exists k. repeat split; try lia; assumption.
    + pose proof (point_subbuckets_end h B e sb (Z.to_nat (e - sb)) sb 0 tbl)
        as Hend.
      pose proof (point_subbuckets_table h B e sb (Z.to_nat (e - sb)) sb 0 tbl
                    Hsb ltac:(lia)) as Htab.
      pose proof (grow_block_sum h B e (Z.to_nat (e - sb)) sb 0 Hh ltac:(lia))
        as Hg.
      pose proof (grow_block_bounds h B e (Z.to_nat (e - sb)) sb 0) as Hbd.
      cbv zeta in Htab, Hg.
      destruct (point_subbuckets h B e sb _ sb 0 tbl) as [se tbl1].
      cbn [fst snd] in Hend, Htab. rewrite <- Hend in Hg, Hbd. clear Hend.
      destruct (grow_block h B e _ sb 0) as [se0 s]. cbn [fst snd] in Hg, Hbd.
      destruct Hg as (G1 & G2 & G3 & G4).
      destruct Htab as (T1 & T2 & T3).
      assert (Hprog : sb < se).
      { destruct (Z.eq_dec se sb) as [-> | Hne]; [| lia].
        rewrite range_sum_nil in G2. specialize (G4 ltac:(lia) ltac:(lia)). lia. }
      assert (Hnn : forall k, 0 <= at_ h k) by (intros k; apply Hh).
      specialize (IH se tbl1 HB Hf ltac:(lia) He ltac:(lia) ltac:(lia)).
      destruct (build_subbuckets_block h mask B fuel e se tbl1)
        as [tbl' | err |]; [| | exact IH].
      * destruct IH as (I1 & I2 & I3 & I4).
        split; [lia |]. split; [| split].
        -- intros j Hj Hout. rewrite I2 by lia. apply T3; lia.
        -- intros i Hi. destruct (Z.lt_ge_cases i se) as [Hin | Hin].
           ++ assert (Hpt : forall j, sb <= j < se -> at_ tbl' j = sb).
              { intros j Hj. rewrite I2 by lia. apply T2. lia. }
              unfold subbucket_ok. cbv zeta. rewrite (Hpt i) by lia.
              split; [lia |]. split.
              ** intros j Hj. apply Hpt. lia.
              ** left. rewrite (range_sum_split h sb (i + 1) se) in G2 by lia.
                 pose proof (range_sum_nonneg h (i + 1) se Hnn). lia.
           ++ apply subbucket_ok_weaken with (lo := se); [lia |].
              apply I3. lia.
        -- intros k Hk Hnk. destruct (Z.lt_ge_cases k se) as [Hin | Hin].
           ++ pose proof (range_sum_le h sb k se Hnn ltac:(lia)). lia.
           ++ apply I4; [lia | assumption].
      * destruct IH as (k & Hk & Hnk & Hbk & ->).
        exists k. repeat split; try lia; assumption.
Qed.

Lemma subbucket_ok_ext h mask B tbl tbl' lo i :
  0 <= lo ->
  (forall j, 0 <= j <= i -> at_ tbl' j = at_ tbl j) ->
  subbucket_ok h mask B tbl lo i -> subbucket_ok h mask B tbl' lo i.
Proof.
  unfold subbucket_ok. cbv zeta. intros Hlo Hext (H1 & H2 & H3).
  rewrite (Hext i) by lia. split; [assumption |]. split; [| assumption].
  intros j Hj. rewrite Hext by lia. now apply H2.
Qed.

(** The loop over the super-blocks. *)
Lemma build_subbuckets_loop_spec h mask B max_super fuel : forall b tbl,
  0 <= B < 2 ^ 32 -> fits B h ->
  0 <= max_super < 2 ^ 32 -> fits max_super h ->
  0 <= b -> size tbl = size h ->
  size h - b <= Z.of_nat fuel ->
  match build_subbuckets_loop h mask B max_super fuel b tbl with
  | Returned tbl' =>
      size tbl' = size tbl
      /\ (forall j, 0 <= j < b -> at_ tbl' j = at_ tbl j)
      /\ (forall i, b <= i < size h -> subbucket_ok h mask B tbl' b i)
      /\ (forall k, b <= k < size h -> at_ h k <= max_super)
      /\ (forall k, b <= k < size h -> not_short_string mask k = true ->
            at_ h k <= B)
  | Thrown err =>
      exists k, b <= k < size h
                /\ err = BufferOverflow k (at_ h k)
                /\ (at_ h k > max_super
                    \/ (not_short_string mask k = true /\ at_ h k > B))
  | OutOfFuel => False
  end.
Proof.
  induction fuel as [| fuel IH]; intros b tbl HB HfB Hm Hfm Hb Htbl Hfuel;
    cbn [build_subbuckets_loop].
  - destruct (Z.ltb_spec b (size h)); [lia |].
    repeat split; try reflexivity; intros; lia.
  - destruct (Z.ltb_spec b (size h)) as [Hlt | Hge];
      [| repeat split; try reflexivity; intros; lia].
    pose proof (grow_super_block_cases h max_super b Hm Hfm ltac:(lia)) as Hg.
    cbv zeta in Hg.
    destruct (grow_super_block h max_super b) as [e s]. cbn [fst snd] in Hg.
    destruct Hg as [(-> & Hbig) | (He & Hs & Hle & _)].
    + rewrite Z.eqb_refl. exists b. repeat split; lia.
    + destruct (Z.eqb_spec e b); [lia |].
      pose proof (build_subbuckets_block_spec h mask B (length h) e b tbl
                    HB HfB Hb ltac:(lia) Htbl ltac:(unfold size in *; lia))
        as Hblk.
      destruct (build_subbuckets_block h mask B (length h) e b tbl)
        as [tbl1 | err |]; [| | exact Hblk].
      * destruct Hblk as (B1 & B2 & B3 & B4).
        specialize (IH e tbl1 HB HfB Hm Hfm ltac:(lia) ltac:(lia) ltac:(lia)).
        destruct (build_subbuckets_loop h mask B max_super fuel e tbl1)
          as [tbl' | err |]; [| | exact IH].
        -- destruct IH as (I1 & I2 & I3 & I4 & I5).
           assert (Hnn : forall k, 0 <= at_ h k)
             by (intros k; apply (fits_at B h k HB HfB)).
           split; [lia |]. split; [| split; [| split]].
           ++ intros j Hj. rewrite I2 by lia. apply B2; lia.
           ++ intros i Hi. destruct (Z.lt_ge_cases i e) as [Hin | Hin].
              ** apply subbucket_ok_ext with (tbl := tbl1); [lia | |].
                 --- intros j Hj. apply I2. lia.
                 --- apply B3. lia.
              ** apply subbucket_ok_weaken with (lo := e); [lia |].
                 apply I3. lia.
           ++ intros k Hk. destruct (Z.lt_ge_cases k e) as [Hin | Hin].
              ** apply (super_block_within h max_super b e); try lia.
                 assumption.
              ** apply I4. lia.
           ++ intros k Hk Hnk. destruct (Z.lt_ge_cases k e) as [Hin | Hin].
              ** apply B4; [lia | assumption].
              ** apply I5; [lia | assumption].
        -- destruct IH as (k & Hk & -> & Hc).
           exists k. repeat split; try lia. assumption.
      * destruct Hblk as (k & Hk & Hnk & Hbk & ->).
        exists k. repeat split; try lia. right. split; assumption.
Qed.

(** X3. [build_subbuckets] returns exactly when no bucket exceeds the
    super-block capacity and no bucket other than a short-string bucket
    exceeds the block size; otherwise it throws the buffer-overflow
    error for a bucket that breaks one of the two conditions. *)
Theorem build_subbuckets_outcome (h_buckets : list Z)
    (mask max_block_size max_super_block_size : Z) (h_subbuckets : list Z) :
  0 <= max_block_size < 2 ^ 32 -> fits max_block_size h_buckets ->
  0 <= max_super_block_size < 2 ^ 32 -> fits max_super_block_size h_buckets ->
  size h_subbuckets = size h_buckets ->
  match build_subbuckets h_buckets mask max_block_size max_super_block_size
                         h_subbuckets with
  | Returned _ =>
      (forall k, 0 <= k < size h_buckets ->
         at_ h_buckets k <= max_super_block_size)
      /\ (forall k, 0 <= k < size h_buckets ->
            not_short_string mask k = true -> at_ h_buckets k <= max_block_size)
  | Thrown e =>
      exists k, 0 <= k < size h_buckets
                /\ e = BufferOverflow k (at_ h_buckets k)
                /\ (at_ h_buckets k > max_super_block_size
                    \/ (not_short_string mask k = true
                        /\ at_ h_buckets k > max_block_size))
  | OutOfFuel => False
  end.
Proof.
  intros HB HfB Hm Hfm Htbl. unfold build_subbuckets.
  pose proof (build_subbuckets_loop_spec h_buckets mask max_block_size
                max_super_block_size (length h_buckets) 0 h_subbuckets
                HB HfB Hm Hfm ltac:(lia) Htbl ltac:(unfold size; lia)) as Hs.
  destruct (build_subbuckets_loop _ _ _ _ _ _ _) as [tbl' | e |].
  - destruct Hs as (_ & _ & _ & H4 & H5). split; assumption.
  - exact Hs.
  - exact Hs.
Qed.

Lemma build_subbuckets_outcome_witness :
  (0 <= 4 < 2 ^ 32 /\ fits 4 [3; 9; 0; 2] /\ 0 <= 10 < 2 ^ 32
   /\ fits 10 [3; 9; 0; 2] /\ size [0; 0; 0; 0] = size [3; 9; 0; 2])
  /\ match build_subbuckets [3; 9; 0; 2] 1 4 10 [0; 0; 0; 0] with
     | Returned _ =>
         (forall k, 0 <= k < size [3; 9; 0; 2] -> at_ [3; 9; 0; 2] k <= 10)
         /\ (forall k, 0 <= k < size [3; 9; 0; 2] ->
               not_short_string 1 k = true -> at_ [3; 9; 0; 2] k <= 4)
     | Thrown e =>
         exists k, 0 <= k < size [3; 9; 0; 2]
                   /\ e = BufferOverflow k (at_ [3; 9; 0; 2] k)
                   /\ (at_ [3; 9; 0; 2] k > 10
                       \/ (not_short_string 1 k = true
                           /\ at_ [3; 9; 0; 2] k > 4))
     | OutOfFuel => False
     end.
Proof.
  assert (H : 0 <= 4 < 2 ^ 32 /\ fits 4 [3; 9; 0; 2] /\ 0 <= 10 < 2 ^ 32
              /\ fits 10 [3; 9; 0; 2] /\ size [0; 0; 0; 0] = size [3; 9; 0; 2]).
  { unfold fits. concrete. reflexivity. }
  split; [exact H |].
  apply (build_subbuckets_outcome [3; 9; 0; 2] 1 4 10 [0; 0; 0; 0]); apply H.
Defined.

(** X4. When it returns, [build_subbuckets] has pointed every bucket to
    the beginning of its sub-bucket: the pointer of bucket [i] is at most
    [i], the buckets from there to [i] share it, and together they hold
    no more suffixes than a block, unless [i] is a short-string bucket
    over the block size, which is a sub-bucket of its own. *)
Theorem build_subbuckets_table (h_buckets : list Z)
    (mask max_block_size max_super_block_size : Z) (h_subbuckets : list Z) :
  0 <= max_block_size < 2 ^ 32 -> fits max_block_size h_buckets ->
  0 <= max_super_block_size < 2 ^ 32 -> fits max_super_block_size h_buckets ->
  size h_subbuckets = size h_buckets ->
  (forall k, 0 <= k < size h_buckets ->
     at_ h_buckets k <= max_super_block_size) ->
  (forall k, 0 <= k < size h_buckets ->
     not_short_string mask k = true -> at_ h_buckets k <= max_block_size) ->
  exists table,
    build_subbuckets h_buckets mask max_block_size max_super_block_size
                     h_subbuckets = Returned table
    /\ size table = size h_buckets
    /\ forall i, 0 <= i < size h_buckets ->
         subbucket_ok h_buckets mask max_block_size table 0 i.
Proof.
  intros HB HfB Hm Hfm Htbl Hsup Hblk. unfold build_subbuckets.
  pose proof (build_subbuckets_loop_spec h_buckets mask max_block_size
                max_super_block_size (length h_buckets) 0 h_subbuckets
                HB HfB Hm Hfm ltac:(lia) Htbl ltac:(unfold size; lia)) as Hs.
  destruct (build_subbuckets_loop _ _ _ _ _ _ _) as [tbl' | e |].
  - destruct Hs as (H1 & _ & H3 & _). exists tbl'.
    split; [reflexivity |]. split; [lia | exact H3].
  - destruct Hs as (k & Hk & _ & [Hc | (Hn & Hc)]).
    + specialize (Hsup k Hk). lia.
    + specialize (Hblk k Hk Hn). lia.
  - contradiction.
Qed.

Lemma build_subbuckets_table_witness :
  (0 <= 4 < 2 ^ 32 /\ fits 4 [9; 3; 0; 2] /\ 0 <= 10 < 2 ^ 32
   /\ fits 10 [9; 3; 0; 2] /\ size [0; 0; 0; 0] = size [9; 3; 0; 2]
   /\ (forall k, 0 <= k < size [9; 3; 0; 2] -> at_ [9; 3; 0; 2] k <= 10)
   /\ (forall k, 0 <= k < size [9; 3; 0; 2] ->
         not_short_string 1 k = true -> at_ [9; 3; 0; 2] k <= 4))
  /\ exists table,
       build_subbuckets [9; 3; 0; 2] 1 4 10 [0; 0; 0; 0] = Returned table
       /\ size table = size [9; 3; 0; 2]
       /\ forall i, 0 <= i < size [9; 3; 0; 2] ->
            subbucket_ok [9; 3; 0; 2] 1 4 table 0 i.
Proof.
  assert (H : 0 <= 4 < 2 ^ 32 /\ fits 4 [9; 3; 0; 2] /\ 0 <= 10 < 2 ^ 32
     /\ fits 10 [9; 3; 0; 2] /\ size [0; 0; 0; 0] = size [9; 3; 0; 2]
     /\ (forall k, 0 <= k < size [9; 3; 0; 2] -> at_ [9; 3; 0; 2] k <= 10)
     /\ (forall k, 0 <= k < size [9; 3; 0; 2] ->
           not_short_string 1 k = true -> at_ [9; 3; 0; 2] k <= 4)).
  { unfold fits.
    repeat match goal with
           | |- _ /\ _ => split
           | |- Forall _ _ => constructor
           end; try (vm_compute; congruence);
      intros k Hk; by_cases k Hk; settle. }
  split; [exact H |].
  destruct H as (H1 & H2 & H3 & H4 & H5 & H6 & H7).
  exact (build_subbuckets_table [9; 3; 0; 2] 1 4 10 [0; 0; 0; 0]
           H1 H2 H3 H4 H5 H6 H7).
Defined.

(** The table of the instance: bucket 0, a short-string bucket of 9
    suffixes, is a sub-bucket of its own; buckets 1 and 2 make a
    sub-bucket of 3 suffixes; bucket 3 would bring it to 5 and begins
    another one. *)
Example build_subbuckets_run :
  build_subbuckets [9; 3; 0; 2] 1 4 10 [0; 0; 0; 0] = Returned [0; 1; 1; 3].
Proof. vm_compute. reflexivity. Qed.

(** ** The blocks of a super-block *)

Lemma emitted_suffixes_app s1 s2 :
  emitted_suffixes (s1 ++ s2) = emitted_suffixes s1 + emitted_suffixes s2.
Proof.
  unfold emitted_suffixes. induction s1 as [| e s1 IH]; simpl; lia.
Qed.

Lemma tiles_app B a s1 b s2 c :
  tiles B a s1 b -> tiles B b s2 c -> tiles B a (s1 ++ s2) c.
Proof.
  revert a. induction s1 as [| e s1 IH]; intros a; cbn [tiles app].
  - now intros ->.
  - intros (H1 & H2 & H3 & H4) Hs2. repeat split; try assumption; try lia.
    now apply IH.
Qed.

Lemma tiles_sum B a s b :
  tiles B a s b -> a <= b /\ emitted_suffixes s = b - a.
Proof.
  revert a. induction s as [| e s IH]; intros a; cbn [tiles].
  - intros ->. cbn. lia.
  - intros (H1 & H2 & H3 & H4). apply IH in H4.
    change (emitted_suffixes (e :: s))
      with (block_suffixes e + emitted_suffixes s). lia.
Qed.

Lemma tiles_weaken B B' a s b : B <= B' -> tiles B a s b -> tiles B' a s b.
Proof.
  intros HB. revert a. induction s as [| e s IH]; intros a; cbn [tiles].
  - trivial.
  - intros (H1 & H2 & H3 & H4). repeat split; try assumption; try lia.
    now apply IH.
Qed.

(** Every block of a run lies within the run. *)
Lemma tiles_within B a s b :
  tiles B a s b ->
  Forall (fun e => carries_suffixes e
                   /\ a <= block_offset e
                   /\ 0 < block_suffixes e <= B
                   /\ block_offset e + block_suffixes e <= b) s.
Proof.
  revert a. induction s as [| e s IH]; intros a; cbn [tiles].
  - constructor.
  - intros (H1 & H2 & H3 & H4). pose proof (tiles_sum _ _ _ _ H4) as [Hle _].
    constructor.
    + repeat split; try assumption; lia.
    + apply IH in H4. eapply Forall_impl; [| exact H4].
      cbv beta. intros e' (E1 & E2 & E3 & E4). repeat split; try assumption; lia.
Qed.

(** A short-string bucket over the block size goes out in blocks that
    follow one another. *)
Lemma direct_emit_loop_tiles B fuel bucket subbucket_size suffix_count :
  forall block_begin snk,
  0 < B -> 0 <= block_begin -> 0 <= suffix_count ->
  suffix_count + subbucket_size < 2 ^ 32 -> subbucket_size + B < 2 ^ 32 ->
  subbucket_size - block_begin <= B * Z.of_nat fuel ->
  exists evs,
    direct_emit_loop B fuel bucket subbucket_size suffix_count block_begin snk
      = (Returned tt, snk ++ evs)
    /\ tiles B (suffix_count + Z.min block_begin subbucket_size) evs
             (suffix_count + subbucket_size).
Proof.
  induction fuel as [| fuel IH]; intros block_begin snk HB Hb Hsc Hw1 Hw2 Hf;
    cbn [direct_emit_loop].
  - destruct (Z.ltb_spec block_begin subbucket_size); [lia |].
    exists []. unfold ret. rewrite app_nil_r. split; [reflexivity |].
    cbn [tiles]. lia.
  - destruct (Z.ltb_spec block_begin subbucket_size) as [Hlt | Hge].
    + rewrite (u32_small (block_begin + B)) by lia.
      set (block_end := Z.min (block_begin + B) subbucket_size).
      rewrite (u32_small (block_end - block_begin)) by (subst block_end; lia).
      rewrite (u32_small (suffix_count + block_begin)) by lia.
      unfold bind, process.
      match goal with
      | |- context [direct_emit_loop _ _ _ _ _ _ ?s1] =>
          destruct (IH (block_begin + B) s1) as (evs & Hrun & Htiles);
            try lia
      end.
      rewrite Hrun.
      exists (DirectBlock bucket (suffix_count + block_begin)
                          (block_end - block_begin) :: evs).
      split; [now rewrite <- app_assoc |].
      cbn [tiles carries_suffixes block_offset block_suffixes].
      split; [exact I |]. split; [lia |]. split; [subst block_end; lia |].
      replace (suffix_count + Z.min block_begin subbucket_size
               + (block_end - block_begin))
        with (suffix_count + Z.min (block_begin + B) subbucket_size)
        by (subst block_end; lia).
      exact Htiles.
    + exists []. unfold ret. rewrite app_nil_r. split; [reflexivity |].
      cbn [tiles]. lia.
Qed.

Lemma range_sum_empty h a b : b <= a -> range_sum h a b = 0.
Proof.
  intros Hba. unfold range_sum. replace (Z.to_nat (b - a)) with 0%nat by lia.
  reflexivity.
Qed.

Lemma div_fuel x B fuel : 0 < B -> 0 <= x -> x / B + 1 <= fuel -> x <= B * fuel.
Proof.
  intros HB Hx Hf.
  pose proof (Z.mul_div_le x B HB). pose proof (Z.mod_pos_bound x B HB).
  pose proof (Z.div_mod x B ltac:(lia)). nia.
Qed.

(** The loop over the sub-buckets of a super-block hands every suffix of
    the super-block to the handler once: its blocks follow one another
    in the host buffer, and the count it returns is the sum of the
    buckets. *)
Lemma sort_subbuckets_tiles h mask B fuel e : forall sb sc snk,
  0 < B ->
  (forall k, 0 <= at_ h k /\ at_ h k + B < 2 ^ 32) ->
  0 <= sb -> e <= size h ->
  (forall k, sb <= k < e -> at_ h k > B -> not_short_string mask k = false) ->
  0 <= sc -> sc + range_sum h sb e + B < 2 ^ 32 ->
  (e - sb) + range_sum h sb e / B + 1 <= Z.of_nat fuel ->
  exists evs,
    sort_subbuckets h mask B fuel e sb sc snk
      = (Returned (sc + range_sum h sb e), snk ++ evs)
    /\ tiles B sc evs (sc + range_sum h sb e).
Proof.
  induction fuel as [| fuel IH]; intros sb sc snk HB Hh Hsb He Hshort Hsc Hw Hf;
    cbn [sort_subbuckets].
  - assert (Hnn : 0 <= range_sum h sb e)
      by (apply range_sum_nonneg; intros k; apply Hh).
    pose proof (Z.div_pos (range_sum h sb e) B Hnn HB).
    destruct (Z.ltb_spec sb e); [lia |].
    rewrite range_sum_empty by lia. rewrite Z.add_0_r.
    exists []. unfold ret. rewrite app_nil_r. split; [reflexivity |].
    reflexivity.
  - assert (Hnn : forall a b, 0 <= range_sum h a b)
      by (intros a b; apply range_sum_nonneg; intros k; apply Hh).
    destruct (Z.ltb_spec sb e) as [Hlt | Hge].
    2:{ rewrite range_sum_empty by lia. rewrite Z.add_0_r.
        exists []. unfold ret. rewrite app_nil_r. split; reflexivity. }
    pose proof (range_sum_first h sb e Hlt) as Hfirst.
    pose proof (Hnn (sb + 1) e) as Hrest.
    pose proof (Hh sb) as Hsbr.
    pose proof (Z.div_pos (range_sum h sb e) B (Hnn sb e) HB) as Hdiv.
    destruct (Z.gtb_spec (at_ h sb) B) as [Hbig | Hsmall].
    + rewrite (Hshort sb ltac:(lia) ltac:(lia)).
      unfold bind.
      destruct (direct_emit_loop_tiles B (S fuel) sb (at_ h sb) sc 0 snk)
        as (evs1 & Hrun1 & Ht1); try lia.
      { rewrite Z.sub_0_r. apply div_fuel; try lia.
        assert (Hmono : at_ h sb / B <= range_sum h sb e / B)
          by (apply Z.div_le_mono; lia).
        lia. }
      rewrite Hrun1. rewrite (u32_small (sc + at_ h sb)) by lia.
      destruct (IH (sb + 1) (sc + at_ h sb) (snk ++ evs1))
        as (evs2 & Hrun2 & Ht2); try assumption; try lia.
      { intros k Hk. apply Hshort. lia. }
      { assert (Hmono : range_sum h (sb + 1) e / B <= range_sum h sb e / B)
          by (apply Z.div_le_mono; lia).
        lia. }
      rewrite Hrun2. exists (evs1 ++ evs2).
      rewrite Hfirst, Z.add_assoc, app_assoc. split; [reflexivity |].
      apply tiles_app with (b := sc + at_ h sb); [| exact Ht2].
      replace (Z.min 0 (at_ h sb)) with 0 in Ht1 by lia.
      now rewrite Z.add_0_r in Ht1.
    + pose proof (grow_block_sum h B e (Z.to_nat (e - sb)) sb 0 Hh ltac:(lia))
        as Hg.
      pose proof (grow_block_bounds h B e (Z.to_nat (e - sb)) sb 0) as Hbd.
      cbv zeta in Hg.
      destruct (grow_block h B e _ sb 0) as [se ssz]. cbn [fst snd] in Hg, Hbd.
      destruct Hg as (G1 & G2 & G3 & G4).
      assert (Hprog : sb < se).
      { destruct (Z.eq_dec se sb) as [-> | Hne]; [| lia].
        rewrite range_sum_nil in G2. specialize (G4 ltac:(lia) ltac:(lia)). lia. }
      pose proof (range_sum_split h sb se e ltac:(lia)) as Hsplit.
      pose proof (Hnn sb se) as Hn1. pose proof (Hnn se e) as Hn2.
      assert (Hmono : range_sum h se e / B <= range_sum h sb e / B)
        by (apply Z.div_le_mono; lia).
      destruct (Z.eqb_spec ssz 0) as [Hz | Hnz].
      * destruct (IH se sc snk) as (evs2 & Hrun2 & Ht2);
          try assumption; try lia.
        { intros k Hk. apply Hshort. lia. }
        rewrite Hrun2. exists evs2.
        replace (range_sum h sb e) with (range_sum h se e) by lia.
        split; [reflexivity | exact Ht2].
      * unfold bind, process.
        rewrite (u32_small (sc + ssz)) by lia.
        destruct (IH se (sc + ssz) (snk ++ [SortedBlock sb se sc ssz]))
          as (evs2 & Hrun2 & Ht2); try assumption; try lia.
        { intros k Hk. apply Hshort. lia. }
        rewrite Hrun2. exists (SortedBlock sb se sc ssz :: evs2).
        replace (sc + range_sum h sb e) with (sc + ssz + range_sum h se e)
          by lia.
        split; [now rewrite <- app_assoc |].
        cbn [tiles carries_suffixes block_offset block_suffixes].
        repeat split; try lia. exact Ht2.
Qed.

Lemma Forall_at (P : Z -> Prop) h :
  (forall k, 0 <= k < size h -> P (at_ h k)) -> Forall P h.
Proof.
  intros H. apply Forall_forall. intros x Hin.
  destruct (In_nth h x 0 Hin) as (n & Hn & <-).
  specialize (H (Z.of_nat n)). unfold at_, size in H.
  rewrite Nat2Z.id in H. apply H. lia.
Qed.

Lemma at_Forall (P : Z -> Prop) h k : Forall P h -> P 0 -> P (at_ h k).
Proof.
  intros Hall H0. unfold at_.
  destruct (nth_in_or_default (Z.to_nat k) h 0) as [Hin | ->]; [| exact H0].
  rewrite Forall_forall in Hall. now apply Hall.
Qed.

(** When no bucket exceeds the super-block capacity, the counters do not
    wrap when added to a block size either. *)
Lemma fits_block h B max_super :
  0 <= B -> 0 <= max_super -> max_super + B < 2 ^ 32 ->
  fits max_super h ->
  (forall k, 0 <= k < size h -> at_ h k <= max_super) ->
  forall k, 0 <= at_ h k /\ at_ h k + B < 2 ^ 32.
Proof.
  intros HB Hm Hw Hf Hsup k.
  assert (Hall : Forall (fun x => 0 <= x /\ x + B < 2 ^ 32) h).
  { apply Forall_at. intros j Hj. specialize (Hsup j Hj).
    assert (0 <= at_ h j); [| lia].
    apply (at_Forall (fun x => 0 <= x)); [| lia].
    eapply Forall_impl; [| exact Hf]. cbv beta. lia. }
  apply (at_Forall (fun x => 0 <= x /\ x + B < 2 ^ 32)); [exact Hall | lia].
Qed.

(** The loop over the super-blocks of [enact]. *)
Lemma super_block_loop_runs h mask B max_super fuel : forall b offset snk,
  0 < B -> 0 <= max_super -> max_super + B < 2 ^ 32 ->
  fits max_super h ->
  (forall k, 0 <= k < size h -> at_ h k <= max_super) ->
  (forall k, 0 <= k < size h -> at_ h k > B -> not_short_string mask k = false) ->
  0 <= b <= size h ->
  2 * (size h - b) + max_super / B + 1 <= Z.of_nat fuel ->
  exists runs,
    super_block_loop h mask B max_super fuel b offset snk
      = (Returned tt, snk ++ concat runs)
    /\ super_block_runs B max_super runs
    /\ emitted_suffixes (concat runs) = range_sum h b (size h).
Proof.
  induction fuel as [| fuel IH];
    intros b offset snk HB Hm Hw Hf Hsup Hshort Hb Hfuel;
    cbn [super_block_loop].
  - pose proof (Z.div_pos max_super B Hm HB).
    destruct (Z.ltb_spec b (size h)); [lia |].
    exists []. unfold ret. cbn [concat]. rewrite app_nil_r.
    split; [reflexivity |]. split; [constructor |].
    rewrite range_sum_empty by lia. reflexivity.
  - pose proof (Z.div_pos max_super B Hm HB) as Hdiv.
    destruct (Z.ltb_spec b (size h)) as [Hlt | Hge].
    2:{ exists []. unfold ret. cbn [concat]. rewrite app_nil_r.
        split; [reflexivity |]. split; [constructor |].
        rewrite range_sum_empty by lia. reflexivity. }
    pose proof (fits_block h B max_super ltac:(lia) Hm Hw Hf Hsup) as Hh.
    pose proof (grow_super_block_cases h max_super b ltac:(lia) Hf ltac:(lia))
      as Hg.
    cbv zeta in Hg.
    destruct (grow_super_block h max_super b) as [e s]. cbn [fst snd] in Hg.
    destruct Hg as [(-> & Hbig) | (He & Hs & Hle & _)].
    { specialize (Hsup b ltac:(lia)). lia. }
    assert (Hnn : 0 <= range_sum h b e)
      by (apply range_sum_nonneg; intros k; apply Hh).
    unfold bind.
    destruct (sort_subbuckets_tiles h mask B (S fuel) e b 0 snk)
      as (evs & Hrun & Ht); try assumption; try lia.
    { intros k Hk. apply Hshort. lia. }
    { assert (Hmono : range_sum h b e / B <= max_super / B)
        by (apply Z.div_le_mono; lia).
      lia. }
    rewrite Hrun. rewrite Z.add_0_l in Ht.
    destruct (IH e (u64 (offset + (0 + range_sum h b e))) (snk ++ evs))
      as (runs & Hloop & Hruns & Hsum); try assumption; try lia.
    rewrite Hloop. exists (evs :: runs). cbn [concat].
    split; [now rewrite <- app_assoc |]. split.
    + constructor; [| exact Hruns].
      exists (range_sum h b e). split; [lia | exact Ht].
    + rewrite emitted_suffixes_app, Hsum.
      apply tiles_sum in Ht. rewrite (range_sum_split h b e (size h)) by lia.
      lia.
Qed.

(** ** One attempt of [enact] *)

Lemma max_super_block_size_of_range params :
  0 <= max_super_block_size_of params < 2 ^ 32.
Proof.
  destruct params as [p |]; cbn [max_super_block_size_of].
  - apply u32_range.
  - lia.
Qed.

Lemma max_block_size_of_range params : 0 <= max_block_size_of params < 2 ^ 32.
Proof.
  destruct params as [p |]; cbn [max_block_size_of].
  - apply u32_range.
  - lia.
Qed.

(** A positive result of [max_subbucket_size] is the count of some
    bucket that is not a short-string bucket. *)
Lemma max_subbucket_size_attained h max_super mask limit st m st' :
  max_subbucket_size h max_super mask limit st = Returned (m, st') ->
  m = 0
  \/ exists i, 0 <= i < size h /\ not_short_string mask i = true /\ at_ h i = m.
Proof.
  unfold max_subbucket_size. pose proof (size_nonneg h) as Hsz.
  destruct (max_subbucket_loop _ _ _ _ _ _) as [[m0 i0] | e |] eqn:E;
    try discriminate.
  apply max_subbucket_loop_scan in E; [| lia].
  pose proof (scan_subbuckets_spec h mask (Z.to_nat (size h - 0)) 0 0 0) as Hs.
  cbv zeta in Hs. rewrite <- E in Hs. cbn [fst snd] in Hs.
  destruct Hs as (_ & _ & H3).
  intros R.
  assert (Hm : m = m0) by (destruct (m0 >? limit); congruence).
  subst m0. destruct H3 as [H3 | (Ha & Hb & Hc & _)].
  - left. congruence.
  - right. exists i0. repeat split; try assumption; lia.
Qed.

(** [max_subbucket_size] returns as soon as no bucket exceeds the
    super-block capacity, and throws for the first bucket that does. *)
Lemma max_subbucket_size_cases h max_super mask limit st :
  0 <= max_super < 2 ^ 32 -> fits max_super h ->
  (exists k, 0 <= k < size h /\ at_ h k > max_super
             /\ (forall j, 0 <= j < k -> at_ h j <= max_super)
             /\ max_subbucket_size h max_super mask limit st
                = Thrown (BufferOverflow k (at_ h k)))
  \/ ((forall k, 0 <= k < size h -> at_ h k <= max_super)
      /\ exists m st',
           max_subbucket_size h max_super mask limit st = Returned (m, st')).
Proof.
  intros Hm Hf. unfold max_subbucket_size.
  pose proof (max_subbucket_loop_outcome h max_super mask (length h) 0 (0, 0)
                Hm Hf ltac:(lia) ltac:(unfold size; lia) ltac:(intros; lia))
    as Ho.
  destruct (max_subbucket_loop _ _ _ _ _ _) as [[m i] | e |].
  - right. split; [exact Ho |]. destruct (m >? limit); eexists _, _; reflexivity.
  - left. destruct Ho as (k & H1 & H2 & H3 & ->). exists k. auto.
  - contradiction.
Qed.

Lemma chained_dollar_strings string_set blocks : forall from to,
  chained from blocks to ->
  dollar_strings (map (dollar_block string_set) blocks) = to - from
  /\ emitted_suffixes (map (dollar_block string_set) blocks) = 0.
Proof.
  induction blocks as [| [b e] blocks IH]; intros from to Hch.
  - cbn in *. lia.
  - cbn [chained] in Hch. destruct Hch as (-> & Hlt & Hch).
    destruct (IH e to Hch) as (I1 & I2).
    cbn [map dollar_strings emitted_suffixes fold_right dollar_block fst snd
         block_suffixes].
    unfold dollar_strings in I1. unfold emitted_suffixes in I2. lia.
Qed.

Lemma chained_dollar_prefix string_set blocks :
  chained 0 blocks (size string_set) ->
  dollar_prefix string_set (map (dollar_block string_set) blocks).
Proof.
  intros Hch. split.
  - apply Forall_forall. intros e He. apply in_map_iff in He.
    destruct He as (r & <- & _). exact I.
  - destruct (chained_dollar_strings string_set blocks 0 _ Hch) as (D & _). lia.
Qed.

Section EnactOutcome.

Variable count_buckets : BWTConfig -> string_set_type -> list Z.
Variable string_set : string_set_type.

(** The steps of [enact], one after the other. *)
Lemma enact_unfold cfg params fuel snk :
  enact count_buckets string_set cfg params fuel snk =
  let h := count_buckets cfg string_set in
  let limit := max_block_size_of params in
  let max_super := max_super_block_size_of params in
  match dollar_prefix_loop string_set fuel (size string_set) (limit / 4) 0 snk with
  | (Returned _, s1) =>
      match max_subbucket_size h max_super (DOLLAR_MASK cfg) limit
                               LargeBWTStatus_default with
      | Returned (largest, status) =>
          if status_bool status then
            let B := if largest <=? optimal_block_size
                     then optimal_block_size else limit in
            match build_subbuckets h (DOLLAR_MASK cfg) B max_super
                                   (repeat 0 (length h)) with
            | Returned _ =>
                match super_block_loop h (DOLLAR_MASK cfg) B max_super fuel 0 0 s1 with
                | (Returned _, s2) => (Returned status, s2)
                | (Thrown e, s2) => (Thrown e, s2)
                | (OutOfFuel, s2) => (OutOfFuel, s2)
                end
            | Thrown e => (Thrown e, s1)
            | OutOfFuel => (OutOfFuel, s1)
            end
          else (Returned status, s1)
      | Thrown e => (Thrown e, s1)
      | OutOfFuel => (OutOfFuel, s1)
      end
  | (Thrown e, s1) => (Thrown e, s1)
  | (OutOfFuel, s1) => (OutOfFuel, s1)
  end.
Proof.
  unfold enact, bind, lift, ret. cbv zeta.
  destruct (dollar_prefix_loop _ _ _ _ _ _) as [[[] | e |] s1]; try reflexivity.
  destruct (max_subbucket_size _ _ _ _ _) as [[largest status] | e |];
    try reflexivity.
  destruct (status_bool status); cbn [negb]; [| reflexivity].
  destruct (build_subbuckets _ _ _ _ _) as [tbl | e |]; reflexivity.
Qed.

(** What one attempt does, from the histogram alone: it throws when a
    bucket exceeds the super-block capacity; it gives up with
    [LargeBucket] when a bucket that is not a short-string bucket
    exceeds the block size; otherwise it hands out every counted suffix.
    In all three cases the dollar prefix has been emitted. *)
Lemma enact_outcome cfg params fuel snk :
  let h := count_buckets cfg string_set in
  let mask := DOLLAR_MASK cfg in
  let max_super := max_super_block_size_of params in
  let limit := max_block_size_of params in
  0 < limit / 4 ->
  size string_set + limit / 4 <= 2 ^ 32 ->
  fits max_super h ->
  max_super + Z.max optimal_block_size limit < 2 ^ 32 ->
  (length string_set <= fuel)%nat ->
  2 * size h + max_super / Z.min optimal_block_size limit + 1 <= Z.of_nat fuel ->
  exists prefix,
    dollar_prefix string_set prefix
    /\ ((exists k, 0 <= k < size h /\ at_ h k > max_super
                   /\ (forall j, 0 <= j < k -> at_ h j <= max_super)
                   /\ enact count_buckets string_set cfg params fuel snk
                      = (Thrown (BufferOverflow k (at_ h k)),
                         snk ++ prefix))
        \/ ((forall k, 0 <= k < size h -> at_ h k <= max_super)
            /\ exists st, exceeds_budget h mask limit st
                 /\ enact count_buckets string_set cfg params fuel snk
                    = (Returned st, snk ++ prefix))
        \/ ((forall k, 0 <= k < size h -> at_ h k <= max_super)
            /\ (forall k, 0 <= k < size h -> not_short_string mask k = true ->
                  at_ h k <= limit)
            /\ exists B runs,
                 ((B = optimal_block_size
                   /\ forall k, 0 <= k < size h ->
                        not_short_string mask k = true ->
                        at_ h k <= optimal_block_size)
                  \/ (B = limit
                      /\ exists k, 0 <= k < size h
                                   /\ not_short_string mask k = true
                                   /\ at_ h k > optimal_block_size))
                 /\ enact count_buckets string_set cfg params fuel snk
                    = (Returned LargeBWTStatus_default,
                       snk ++ prefix ++ concat runs)
                 /\ super_block_runs B max_super runs
                 /\ emitted_suffixes (concat runs) = total h)).
Proof.
  intros h mask max_super limit Hbs Hn Hf Hw Hfuel1 Hfuel2.
  pose proof (max_super_block_size_of_range params) as Hmr.
  pose proof (max_block_size_of_range params) as Hlr.
  fold max_super in Hmr. fold limit in Hlr.
  assert (Hlim : 0 < limit).
  { destruct (Z.lt_ge_cases 0 limit) as [Hp | Hp]; [assumption |].
    assert (limit = 0) by lia. subst limit. rewrite H in Hbs.
    cbn in Hbs. lia. }
  destruct (dollar_prefix_loop_spec string_set fuel (size string_set)
              (limit / 4) 0 snk Hbs Hn ltac:(lia)
              ltac:(unfold size; lia)) as (blocks & Hdol & Hch & _).
  pose proof (size_nonneg string_set) as HN.
  rewrite Z.min_l in Hch by lia.
  exists (map (dollar_block string_set) blocks).
  split; [now apply chained_dollar_prefix |].
  rewrite enact_unfold. cbv zeta. fold h mask max_super limit. rewrite Hdol.
  destruct (max_subbucket_size_cases h max_super mask limit
              LargeBWTStatus_default Hmr Hf)
    as [(k & Hk & Hbig & Hfirst & Hthrow) | (Hsup & m & st' & Hret)].
  - left. exists k. rewrite Hthrow. repeat split; assumption || lia.
  - right. rewrite Hret.
    pose proof (max_subbucket_size_spec h max_super mask limit
                  LargeBWTStatus_default m st' ltac:(lia) Hret)
      as (Hbound & Hcase).
    destruct Hcase as [(Hle & ->) | (Hgt & Hc & Hbsz & Hidx & Hns & Hat)].
    + right. split; [exact Hsup |]. split.
      { intros k Hk Hnk. specialize (Hbound k Hk Hnk). lia. }
      change (status_bool LargeBWTStatus_default) with true. cbv iota.
      set (B := if m <=? optimal_block_size then optimal_block_size else limit).
      assert (HmB : m <= B /\ 0 < B /\ B <= Z.max optimal_block_size limit
                    /\ Z.min optimal_block_size limit <= B).
      { subst B. unfold optimal_block_size.
        destruct (Z.leb_spec m (32 * 1024 * 1024)); lia. }
      destruct HmB as (HmB & HBpos & HBmax & HBmin).
      pose proof (fits_block h B max_super ltac:(lia) ltac:(lia) ltac:(lia)
                    Hf Hsup) as Hh.
      assert (HfB : fits B h).
      { unfold fits. apply Forall_at. intros k _. apply Hh. }
      pose proof (build_subbuckets_loop_spec h mask B max_super (length h) 0
                    (repeat 0 (length h)) ltac:(lia) HfB Hmr Hf ltac:(lia)
                    ltac:(unfold size; now rewrite repeat_length)
                    ltac:(unfold size; lia)) as Hbuild.
      unfold build_subbuckets.
      destruct (build_subbuckets_loop h mask B max_super (length h) 0 _)
        as [tbl | e |].
      * destruct (super_block_loop_runs h mask B max_super fuel 0 0
                    (snk ++ map (dollar_block string_set) blocks))
          as (runs & Hloop & Hruns & Hsum); try assumption; try lia.
        { intros k Hk Hbk.
          destruct (not_short_string mask k) eqn:Hnk; [| reflexivity].
          specialize (Hbound k Hk Hnk). lia. }
        { pose proof (size_nonneg h). lia. }
        { assert (Hmono : max_super / B
                          <= max_super / Z.min optimal_block_size limit).
          { apply Z.div_le_compat_l; unfold optimal_block_size in *; lia. }
          lia. }
        rewrite Hloop.
        exists B, runs. split; [| split; [| split]].
        -- subst B. destruct (Z.leb_spec m optimal_block_size) as [Hmo | Hmo].
           ++ left. split; [reflexivity |].
              intros k Hk Hnk. specialize (Hbound k Hk Hnk). lia.
           ++ right. split; [reflexivity |].
              destruct (max_subbucket_size_attained _ _ _ _ _ _ _ Hret)
                as [Hz | (i & Hi & Hni & Hai)].
              ** unfold optimal_block_size in Hmo. lia.
              ** exists i. repeat split; try assumption; lia.
        -- now rewrite app_assoc.
        -- exact Hruns.
        -- rewrite Hsum. apply range_sum_all.
      * exfalso. destruct Hbuild as (k & Hk & _ & [Hc | (Hnk & Hc)]).
        -- specialize (Hsup k Hk). lia.
        -- specialize (Hbound k Hk Hnk). lia.
      * contradiction.
    + left. split; [exact Hsup |]. exists st'.
      assert (Hsb : status_bool st' = false).
      { apply status_bool_false. rewrite Hc. discriminate. }
      rewrite Hsb. split; [| reflexivity].
      unfold exceeds_budget. rewrite Hbsz.
      repeat split; try assumption; try lia.
Qed.

End EnactOutcome.

(** ** The outcome of an attempt *)


(** X6. An attempt that gives up with [LargeBucket] has handed the
    dollar prefix to the handler, the last symbols of all the strings,
    and nothing else: no suffix has been collected or sorted. *)
Theorem enact_gives_up_after_dollar_prefix
    (count_buckets : BWTConfig -> string_set_type -> list Z)
    (string_set : string_set_type) (cfg : BWTConfig)
    (params : option BWTParams) (fuel : nat) (snk : sink) :
  let h_buckets := count_buckets cfg string_set in
  attempt_ready h_buckets string_set params fuel ->
  (forall k, 0 <= k < size h_buckets ->
     at_ h_buckets k <= max_super_block_size_of params) ->
  (exists k, 0 <= k < size h_buckets
             /\ not_short_string (DOLLAR_MASK cfg) k = true
             /\ at_ h_buckets k > max_block_size_of params) ->
  exists status prefix,
    enact count_buckets string_set cfg params fuel snk
      = (Returned status, snk ++ prefix)
    /\ code status = LargeBucket
    /\ dollar_prefix string_set prefix.
Proof.
  cbv zeta. intros (H1 & H2 & H3 & H4 & H5 & H6) Hsup (k & Hk & Hnk & Hbig).
  destruct (enact_outcome count_buckets string_set cfg params fuel snk
              H1 H2 H3 H4 H5 H6)
    as (blocks & Hch & [(k' & Hk' & Hbig' & _)
                       | [(_ & st & Hex & Hrun)
                         | (_ & Hlim & _)]]).
  - specialize (Hsup k' Hk'). lia.
  - exists st, blocks. split; [exact Hrun |]. split; [apply Hex | exact Hch].
  - specialize (Hlim k Hk Hnk). lia.
Qed.

Lemma super_block_runs_within B max_super runs :
  super_block_runs B max_super runs ->
  Forall (fun e => carries_suffixes e
                   /\ 0 <= block_offset e
                   /\ 0 < block_suffixes e <= B
                   /\ block_offset e + block_suffixes e <= max_super)
         (concat runs).
Proof.
  unfold super_block_runs. induction 1 as [| run runs (n & Hn & Ht) _ IH].
  - constructor.
  - cbn [concat]. apply Forall_app. split; [| exact IH].
    apply tiles_within in Ht. eapply Forall_impl; [| exact Ht].
    cbv beta. intros e (E1 & E2 & E3 & E4). repeat split; try assumption; lia.
Qed.

(** X7. An attempt that finds every bucket within the super-block
    capacity and every bucket other than the short-string buckets within
    the block size succeeds, and after the dollar prefix it hands the
    handler blocks that carry, together, exactly as many suffixes as the
    histogram counts. *)
Theorem enact_hands_out_every_suffix
    (count_buckets : BWTConfig -> string_set_type -> list Z)
    (string_set : string_set_type) (cfg : BWTConfig)
    (params : option BWTParams) (fuel : nat) (snk : sink) :
  let h_buckets := count_buckets cfg string_set in
  attempt_ready h_buckets string_set params fuel ->
  (forall k, 0 <= k < size h_buckets ->
     at_ h_buckets k <= max_super_block_size_of params) ->
  (forall k, 0 <= k < size h_buckets ->
     not_short_string (DOLLAR_MASK cfg) k = true ->
     at_ h_buckets k <= max_block_size_of params) ->
  exists prefix rest,
    enact count_buckets string_set cfg params fuel snk
      = (Returned LargeBWTStatus_default, snk ++ prefix ++ rest)
    /\ dollar_prefix string_set prefix
    /\ Forall carries_suffixes rest
    /\ emitted_suffixes rest = total h_buckets.
Proof.
  cbv zeta. intros (H1 & H2 & H3 & H4 & H5 & H6) Hsup Hlim.
  destruct (enact_outcome count_buckets string_set cfg params fuel snk
              H1 H2 H3 H4 H5 H6)
    as (blocks & Hch & [(k & Hk & Hbig & _)
                       | [(_ & st & Hex & _)
                         | (_ & _ & B & runs & _ & Hrun & Hruns & Hsum)]]).
  - specialize (Hsup k Hk). lia.
  - destruct Hex as (_ & Hidx & Hns & Hat & Hgt & _).
    specialize (Hlim _ Hidx Hns). lia.
  - exists blocks, (concat runs). split; [exact Hrun |]. split; [exact Hch |].
    split; [| exact Hsum].
    apply super_block_runs_within in Hruns.
    eapply Forall_impl; [| exact Hruns]. cbv beta. intros e He. apply He.
Qed.

Lemma enact_hands_out_every_suffix_witness :
  (attempt_ready small_histogram three_strings None 100
   /\ (forall k, 0 <= k < size small_histogram ->
         at_ small_histogram k <= max_super_block_size_of None)
   /\ (forall k, 0 <= k < size small_histogram ->
         not_short_string (DOLLAR_MASK (config_type_16 32)) k = true ->
         at_ small_histogram k <= max_block_size_of None))
  /\ exists prefix rest,
       enact (fun _ _ => small_histogram) three_strings (config_type_16 32)
             None 100 []
         = (Returned LargeBWTStatus_default, [] ++ prefix ++ rest)
       /\ dollar_prefix three_strings prefix
       /\ Forall carries_suffixes rest
       /\ emitted_suffixes rest = total small_histogram.
Proof.
  assert (H : attempt_ready small_histogram three_strings None 100
              /\ (forall k, 0 <= k < size small_histogram ->
                    at_ small_histogram k <= max_super_block_size_of None)
              /\ (forall k, 0 <= k < size small_histogram ->
                    not_short_string (DOLLAR_MASK (config_type_16 32)) k = true ->
                    at_ small_histogram k <= max_block_size_of None)).
  { split; [unfold attempt_ready, fits; concrete |].
    split; intros k Hk; by_cases k Hk; settle. }
  split; [exact H |].
  apply (enact_hands_out_every_suffix (fun _ _ => small_histogram)
           three_strings (config_type_16 32) None 100 []); apply H.
Defined.

(** X8. The blocks of a successful attempt lie within the host buffer
    of [max_super_block_size] suffixes: they come in runs, one for each
    super-block, and every run starts at the beginning of the buffer and
    is made of blocks that follow one another without a gap or an
    overlap. A block holds at most 32M suffixes when no bucket other
    than the short-string buckets holds more, whatever the block size
    derived from the parameters, and at most that block size
    otherwise. *)
Theorem enact_blocks_tile_host_buffer
    (count_buckets : BWTConfig -> string_set_type -> list Z)
    (string_set : string_set_type) (cfg : BWTConfig)
    (params : option BWTParams) (fuel : nat) (snk : sink) :
  let h_buckets := count_buckets cfg string_set in
  attempt_ready h_buckets string_set params fuel ->
  (forall k, 0 <= k < size h_buckets ->
     at_ h_buckets k <= max_super_block_size_of params) ->
  (forall k, 0 <= k < size h_buckets ->
     not_short_string (DOLLAR_MASK cfg) k = true ->
     at_ h_buckets k <= max_block_size_of params) ->
  exists prefix runs block_size,
    snd (enact count_buckets string_set cfg params fuel snk)
      = snk ++ prefix ++ concat runs
    /\ dollar_prefix string_set prefix
    /\ ((block_size = optimal_block_size
         /\ forall k, 0 <= k < size h_buckets ->
              not_short_string (DOLLAR_MASK cfg) k = true ->
              at_ h_buckets k <= optimal_block_size)
        \/ (block_size = max_block_size_of params
            /\ exists k, 0 <= k < size h_buckets
                         /\ not_short_string (DOLLAR_MASK cfg) k = true
                         /\ at_ h_buckets k > optimal_block_size))
    /\ super_block_runs block_size (max_super_block_size_of params) runs
    /\ Forall (fun e => 0 <= block_offset e
                        /\ 0 < block_suffixes e <= block_size
                        /\ block_offset e + block_suffixes e
                           <= max_super_block_size_of params)
              (concat runs).
Proof.
  cbv zeta. intros (H1 & H2 & H3 & H4 & H5 & H6) Hsup Hlim.
  destruct (enact_outcome count_buckets string_set cfg params fuel snk
              H1 H2 H3 H4 H5 H6)
    as (blocks & Hch & [(k & Hk & Hbig & _)
                       | [(_ & st & Hex & _)
                         | (_ & _ & B & runs & HB & Hrun & Hruns & Hsum)]]).
  - specialize (Hsup k Hk). lia.
  - destruct Hex as (_ & Hidx & Hns & Hat & Hgt & _).
    specialize (Hlim _ Hidx Hns). lia.
  - exists blocks, runs, B. rewrite Hrun. split; [reflexivity |].
    split; [exact Hch |]. split; [exact HB |]. split; [exact Hruns |].
    apply super_block_runs_within in Hruns.
    eapply Forall_impl; [| exact Hruns]. cbv beta. intros e He.
    repeat split; apply He.
Qed.

Lemma enact_blocks_tile_host_buffer_witness :
  (attempt_ready tight_histogram three_strings (Some tight_params) 100
   /\ (forall k, 0 <= k < size tight_histogram ->
         at_ tight_histogram k <= max_super_block_size_of (Some tight_params))
   /\ (forall k, 0 <= k < size tight_histogram ->
         not_short_string (DOLLAR_MASK (config_type_16 64)) k = true ->
         at_ tight_histogram k <= max_block_size_of (Some tight_params)))
  /\ exists prefix runs block_size,
       snd (enact (fun _ _ => tight_histogram) three_strings
                  (config_type_16 64) (Some tight_params) 100 [])
         = [] ++ prefix ++ concat runs
       /\ dollar_prefix three_strings prefix
       /\ ((block_size = optimal_block_size
            /\ forall k, 0 <= k < size tight_histogram ->
                 not_short_string (DOLLAR_MASK (config_type_16 64)) k = true ->
                 at_ tight_histogram k <= optimal_block_size)
           \/ (block_size = max_block_size_of (Some tight_params)
               /\ exists k, 0 <= k < size tight_histogram
                            /\ not_short_string (DOLLAR_MASK (config_type_16 64)) k
                               = true
                            /\ at_ tight_histogram k > optimal_block_size))
       /\ super_block_runs block_size
            (max_super_block_size_of (Some tight_params)) runs
       /\ Forall (fun e => 0 <= block_offset e
                           /\ 0 < block_suffixes e <= block_size
                           /\ block_offset e + block_suffixes e
                              <= max_super_block_size_of (Some tight_params))
                 (concat runs).
Proof.
  assert (H : attempt_ready tight_histogram three_strings (Some tight_params) 100
              /\ (forall k, 0 <= k < size tight_histogram ->
                    at_ tight_histogram k
                    <= max_super_block_size_of (Some tight_params))
              /\ (forall k, 0 <= k < size tight_histogram ->
                    not_short_string (DOLLAR_MASK (config_type_16 64)) k = true ->
                    at_ tight_histogram k
                    <= max_block_size_of (Some tight_params))).
  { split; [unfold attempt_ready, fits; concrete |].
    split; intros k Hk; by_cases k Hk; settle. }
  split; [exact H |].
  apply (enact_blocks_tile_host_buffer (fun _ _ => tight_histogram)
           three_strings (config_type_16 64) (Some tight_params) 100 []);
    apply H.
Defined.


Lemma enact_gives_up_after_dollar_prefix_witness :
  (attempt_ready tight_histogram three_strings (Some tight_params) 100
   /\ (forall k, 0 <= k < size tight_histogram ->
         at_ tight_histogram k <= max_super_block_size_of (Some tight_params))
   /\ (exists k, 0 <= k < size tight_histogram
                 /\ not_short_string (DOLLAR_MASK (config_type_16 32)) k = true
                 /\ at_ tight_histogram k > max_block_size_of (Some tight_params)))
  /\ exists status prefix,
       enact (fun _ _ => tight_histogram) three_strings (config_type_16 32)
             (Some tight_params) 100 []
         = (Returned status, [] ++ prefix)
       /\ code status = LargeBucket
       /\ dollar_prefix three_strings prefix.
Proof.
  assert (H : attempt_ready tight_histogram three_strings (Some tight_params) 100
              /\ (forall k, 0 <= k < size tight_histogram ->
                    at_ tight_histogram k
                    <= max_super_block_size_of (Some tight_params))
              /\ (exists k, 0 <= k < size tight_histogram
                            /\ not_short_string (DOLLAR_MASK (config_type_16 32)) k
                               = true
                            /\ at_ tight_histogram k
                               > max_block_size_of (Some tight_params))).
  { split; [unfold attempt_ready, fits; concrete |].
    split; [intros k Hk; by_cases k Hk; settle |].
    exists 15. vm_compute. repeat split; congruence. }
  split; [exact H |].
  apply (enact_gives_up_after_dollar_prefix (fun _ _ => tight_histogram)
           three_strings (config_type_16 32) (Some tight_params) 100 []);
    apply H.
Defined.

(** ** The escalation, seen from the handler *)

Lemma dollar_strings_app s1 s2 :
  dollar_strings (s1 ++ s2) = dollar_strings s1 + dollar_strings s2.
Proof.
  unfold dollar_strings. induction s1 as [| e s1 IH]; cbn [app fold_right].
  - lia.
  - destruct e; lia.
Qed.

Lemma dollar_strings_suffixes s :
  Forall carries_suffixes s -> dollar_strings s = 0.
Proof.
  unfold dollar_strings. induction 1 as [| e s He _ IH]; cbn [fold_right].
  - reflexivity.
  - destruct e; [contradiction | exact IH | exact IH].
Qed.

(** X9. Every attempt starts with the dollar prefix, before it knows
    whether its bucketing width will do. When the 16-bit attempt gives up
    with [LargeBucket] and the 20-bit attempt succeeds, the handler has
    received the last symbol of every string twice, ahead of the blocks
    of suffixes of the 20-bit attempt. *)
Theorem bwt_string_set_repeats_dollar_prefix
    (count_buckets : BWTConfig -> string_set_type -> list Z)
    (string_set : string_set_type) (word_bits : Z)
    (params : option BWTParams) (fuel : nat) (snk : sink) :
  let h16 := count_buckets (config_type_16 word_bits) string_set in
  let h20 := count_buckets (config_type_20 word_bits) string_set in
  attempt_ready h16 string_set params fuel ->
  attempt_ready h20 string_set params fuel ->
  (forall k, 0 <= k < size h16 -> at_ h16 k <= max_super_block_size_of params) ->
  (exists k, 0 <= k < size h16
             /\ not_short_string (DOLLAR_MASK (config_type_16 word_bits)) k = true
             /\ at_ h16 k > max_block_size_of params) ->
  (forall k, 0 <= k < size h20 -> at_ h20 k <= max_super_block_size_of params) ->
  (forall k, 0 <= k < size h20 ->
     not_short_string (DOLLAR_MASK (config_type_20 word_bits)) k = true ->
     at_ h20 k <= max_block_size_of params) ->
  exists prefix16 prefix20 rest,
    bwt_string_set count_buckets string_set word_bits params fuel snk
      = (Returned tt, snk ++ prefix16 ++ prefix20 ++ rest)
    /\ dollar_prefix string_set prefix16
    /\ dollar_prefix string_set prefix20
    /\ Forall carries_suffixes rest
    /\ emitted_suffixes rest = total h20
    /\ dollar_strings (prefix16 ++ prefix20 ++ rest) = 2 * size string_set.
Proof.
  cbv zeta.
  intros (A1 & A2 & A3 & A4 & A5 & A6) (B1 & B2 & B3 & B4 & B5 & B6)
         Hsup16 (k & Hk & Hnk & Hbig) Hsup20 Hlim20.
  unfold bwt_string_set. rewrite escalate_unfold.
  destruct (enact_outcome count_buckets string_set (config_type_16 word_bits)
              params fuel snk A1 A2 A3 A4 A5 A6)
    as (blocks16 & Hch16 & [(k' & Hk' & Hbig' & _)
                           | [(_ & st & Hex & Hrun16)
                             | (_ & Hlim & _)]]).
  - specialize (Hsup16 k' Hk'). lia.
  - rewrite Hrun16. rewrite (exceeds_budget_code _ _ _ _ Hex).
    destruct (enact_outcome count_buckets string_set (config_type_20 word_bits)
                params fuel (snk ++ blocks16)
                B1 B2 B3 B4 B5 B6)
      as (blocks20 & Hch20 & [(k' & Hk' & Hbig' & _)
                             | [(_ & st' & Hex' & _)
                               | (_ & _ & B & runs & _ & Hrun20 & Hruns & Hsum)]]).
    + specialize (Hsup20 k' Hk'). lia.
    + destruct Hex' as (_ & Hidx & Hns & Hat & Hgt & _).
      specialize (Hlim20 _ Hidx Hns). lia.
    + rewrite Hrun20.
      change (status_bool LargeBWTStatus_default) with true. cbv iota.
      apply super_block_runs_within in Hruns.
      assert (Hcarry : Forall carries_suffixes (concat runs)).
      { eapply Forall_impl; [| exact Hruns]. cbv beta. intros e He. apply He. }
      exists blocks16, blocks20, (concat runs).
      split; [now rewrite <- !app_assoc |].
      split; [exact Hch16 |]. split; [exact Hch20 |].
      split; [exact Hcarry |]. split; [exact Hsum |].
      rewrite !dollar_strings_app, (dollar_strings_suffixes _ Hcarry).
      destruct Hch16 as (_ & D1). destruct Hch20 as (_ & D2). lia.
  - specialize (Hlim k Hk Hnk). lia.
Qed.

Lemma bwt_string_set_repeats_dollar_prefix_witness :
  (attempt_ready (widening_counts (config_type_16 32) three_strings)
                 three_strings (Some tight_params) 100
   /\ attempt_ready (widening_counts (config_type_20 32) three_strings)
                    three_strings (Some tight_params) 100
   /\ (forall k, 0 <= k < size (widening_counts (config_type_16 32) three_strings) ->
         at_ (widening_counts (config_type_16 32) three_strings) k
         <= max_super_block_size_of (Some tight_params))
   /\ (exists k, 0 <= k < size (widening_counts (config_type_16 32) three_strings)
                 /\ not_short_string (DOLLAR_MASK (config_type_16 32)) k = true
                 /\ at_ (widening_counts (config_type_16 32) three_strings) k
                    > max_block_size_of (Some tight_params))
   /\ (forall k, 0 <= k < size (widening_counts (config_type_20 32) three_strings) ->
         at_ (widening_counts (config_type_20 32) three_strings) k
         <= max_super_block_size_of (Some tight_params))
   /\ (forall k, 0 <= k < size (widening_counts (config_type_20 32) three_strings) ->
         not_short_string (DOLLAR_MASK (config_type_20 32)) k = true ->
         at_ (widening_counts (config_type_20 32) three_strings) k
         <= max_block_size_of (Some tight_params)))
  /\ exists prefix16 prefix20 rest,
       bwt_string_set widening_counts three_strings 32 (Some tight_params) 100 []
         = (Returned tt, [] ++ prefix16 ++ prefix20 ++ rest)
       /\ dollar_prefix three_strings prefix16
       /\ dollar_prefix three_strings prefix20
       /\ Forall carries_suffixes rest
       /\ emitted_suffixes rest
          = total (widening_counts (config_type_20 32) three_strings)
       /\ dollar_strings (prefix16 ++ prefix20 ++ rest) = 2 * size three_strings.
Proof.
  change (widening_counts (config_type_16 32) three_strings)
    with tight_histogram.
  change (widening_counts (config_type_20 32) three_strings)
    with small_histogram.
  assert (H16 : attempt_ready tight_histogram three_strings
                              (Some tight_params) 100)
    by (unfold attempt_ready, fits; concrete).
  assert (H20 : attempt_ready small_histogram three_strings
                              (Some tight_params) 100)
    by (unfold attempt_ready, fits; concrete).
  assert (S16 : forall k, 0 <= k < size tight_histogram ->
                  at_ tight_histogram k
                  <= max_super_block_size_of (Some tight_params))
    by (intros k Hk; by_cases k Hk; settle).
  assert (L16 : exists k, 0 <= k < size tight_histogram
                  /\ not_short_string (DOLLAR_MASK (config_type_16 32)) k = true
                  /\ at_ tight_histogram k
                     > max_block_size_of (Some tight_params))
    by (exists 15; vm_compute; repeat split; congruence).
  assert (S20 : forall k, 0 <= k < size small_histogram ->
                  at_ small_histogram k
                  <= max_super_block_size_of (Some tight_params))
    by (intros k Hk; by_cases k Hk; settle).
  assert (L20 : forall k, 0 <= k < size small_histogram ->
                  not_short_string (DOLLAR_MASK (config_type_20 32)) k = true ->
                  at_ small_histogram k <= max_block_size_of (Some tight_params))
    by (intros k Hk; by_cases k Hk; settle).
  split; [exact (conj H16 (conj H20 (conj S16 (conj L16 (conj S20 L20))))) |].
  exact (bwt_string_set_repeats_dollar_prefix widening_counts three_strings 32
           (Some tight_params) 100 [] H16 H20 S16 L16 S20 L20).
Defined.

(** The run of the instance above: the dollar prefix, the dollar prefix
    again, then the suffixes of the 20-bit attempt, in one block of 9
    although the parameters allow 4 suffixes to a block. *)
Example dollar_prefix_twice :
  bwt_string_set widening_counts three_strings 32 (Some tight_params) 100 []
  = (Returned tt,
     [DollarBlock 0 1 [1]; DollarBlock 1 2 [3]; DollarBlock 2 3 [1];
      DollarBlock 0 1 [1]; DollarBlock 1 2 [3]; DollarBlock 2 3 [1];
      SortedBlock 0 17 0 9]).
Proof. vm_compute. reflexivity. Qed.

(** The device-memory error comes from the 24-bit attempt, and names
    a largest bucket of its histogram. *)
Lemma escalate_device_limit count_buckets string_set word_bits params fuel
    snk snk' subbucket count min_device_MB :
  escalate count_buckets string_set word_bits params fuel snk
    = (Thrown (DeviceMemoryLimit subbucket count min_device_MB), snk') ->
  exists st24,
    exceeds_budget (count_buckets (config_type_24 word_bits) string_set)
      (DOLLAR_MASK (config_type_24 word_bits)) (max_block_size_of params) st24
    /\ count = bucket_size st24
    /\ min_device_MB
       = u32 (divide_ri (bucket_size st24) (u32 (1024 * 1024)) * 32).
Proof.
  rewrite escalate_unfold.
  destruct (enact _ _ (config_type_16 _) _ _ _) as [[st16 | e16 |] s16] eqn:E16.
  - destruct (status_bool st16); [discriminate |].
    destruct (enact _ _ (config_type_20 _) _ _ _) as [[st20 | e20 |] s20] eqn:E20.
    + destruct (status_bool st20); [discriminate |].
      destruct (enact _ _ (config_type_24 _) _ _ _) as [[st24 | e24 |] s24]
        eqn:E24.
      * destruct (status_bool st24) eqn:Hsb; [discriminate |].
        destruct (code st24 =? LargeBucket); [| discriminate].
        intros R. inversion R; subst. exists st24.
        destruct (enact_failed _ _ _ _ _ _ _ _ E24) as [Hok | Hex].
        -- apply status_bool_false in Hsb. contradiction.
        -- auto.
      * intros R. inversion R; subst. apply enact_throws in E24. contradiction.
      * discriminate.
    + intros R. inversion R; subst. apply enact_throws in E20. contradiction.
    + discriminate.
  - intros R. inversion R; subst. apply enact_throws in E16. contradiction.
  - discriminate.
Qed.

(** X10. The budget recommended by the error of the string-set [bwt]
    is enough for the bucket it names: with [device_memory] set to that
    many MB, and a bucket of at most [2^32 - 2^20] suffixes, the same
    string set never raises the device-memory error again, whatever the
    host memory. *)
Theorem recommended_budget_suffices
    (count_buckets : BWTConfig -> string_set_type -> list Z)
    (string_set : string_set_type) (word_bits : Z)
    (params : option BWTParams) (fuel : nat) (snk snk' : sink)
    (subbucket count min_device_MB : Z) :
  bwt_string_set count_buckets string_set word_bits params fuel snk
    = (Thrown (DeviceMemoryLimit subbucket count min_device_MB), snk') ->
  count <= 2 ^ 32 - 2 ^ 20 ->
  forall (host : Z) (fuel2 : nat) (snk2 : sink) (subbucket2 count2 MB2 : Z),
    fst (bwt_string_set count_buckets string_set word_bits
           (Some (mkBWTParams host (min_device_MB * MiB))) fuel2 snk2)
    <> Thrown (DeviceMemoryLimit subbucket2 count2 MB2).
Proof.
  intros Hrun Hcount host fuel2 snk2 subbucket2 count2 MB2 Hrun2.
  unfold bwt_string_set in *.
  apply escalate_device_limit in Hrun.
  destruct Hrun as (st & (_ & _ & _ & _ & Hgt & Hmax) & -> & ->).
  destruct (escalate _ _ _ (Some _) _ _) as [o2 s2] eqn:E2. cbn [fst] in Hrun2.
  subst o2. apply escalate_device_limit in E2.
  destruct E2 as (st2 & (_ & Hidx & Hns & Hat & Hgt2 & _) & _ & _).
  specialize (Hmax _ Hidx Hns). rewrite Hat in Hmax.
  pose proof (max_block_size_of_nonneg params) as Hl0.
  destruct (recommended_device_budget (bucket_size st) ltac:(lia)) as (Hmb & Hle).
  rewrite Hmb in Hgt2. cbn [max_block_size_of device_memory] in Hgt2.
  unfold MiB in Hgt2.
  set (q := (bucket_size st + (2 ^ 20 - 1)) / 2 ^ 20) in *.
  replace (q * 32 * (1024 * 1024) / 32) with (q * 2 ^ 20) in Hgt2
    by (rewrite <- (Z.div_mul (q * 2 ^ 20) 32) at 1 by lia; f_equal; lia).
  assert (Hq : q * 2 ^ 20 <= bucket_size st + (2 ^ 20 - 1)).
  { subst q. rewrite Z.mul_comm. apply Z.mul_div_le. lia. }
  rewrite u32_small in Hgt2 by lia. lia.
Qed.

Lemma recommended_budget_suffices_witness :
  (bwt_string_set (fun _ _ => tight_histogram) three_strings 32
                  (Some tight_params) 100 []
   = (Thrown (DeviceMemoryLimit 15 5 32),
      snd (bwt_string_set (fun _ _ => tight_histogram) three_strings 32
                          (Some tight_params) 100 []))
   /\ 5 <= 2 ^ 32 - 2 ^ 20)
  /\ forall (host : Z) (fuel2 : nat) (snk2 : sink) (subbucket2 count2 MB2 : Z),
       fst (bwt_string_set (fun _ _ => tight_histogram) three_strings 32
              (Some (mkBWTParams host (32 * MiB))) fuel2 snk2)
       <> Thrown (DeviceMemoryLimit subbucket2 count2 MB2).
Proof.
  assert (H : bwt_string_set (fun _ _ => tight_histogram) three_strings 32
                             (Some tight_params) 100 []
              = (Thrown (DeviceMemoryLimit 15 5 32),
                 snd (bwt_string_set (fun _ _ => tight_histogram) three_strings
                                     32 (Some tight_params) 100 []))
              /\ 5 <= 2 ^ 32 - 2 ^ 20).
  { split; [vm_compute; reflexivity | vm_compute; discriminate]. }
  split; [exact H |].
  exact (recommended_budget_suffices (fun _ _ => tight_histogram) three_strings
           32 (Some tight_params) 100 [] _ 15 5 32 (proj1 H) (proj2 H)).
Defined.

(** X11. The dollar prefix goes out in blocks of a quarter of the block
    size. When that quarter is zero, as it is for a [device_memory] under
    128 bytes and for one of 128 GiB, whose 32nd part wraps to zero in 32
    bits, the loop does not advance: on a string set that is not empty no
    amount of fuel brings an attempt to an end. *)
Theorem enact_zero_block_size_diverges
    (count_buckets : BWTConfig -> string_set_type -> list Z)
    (string_set : string_set_type) (cfg : BWTConfig)
    (params : option BWTParams) :
  max_block_size_of params / 4 = 0 ->
  string_set <> [] ->
  forall (fuel : nat) (snk : sink),
    fst (enact count_buckets string_set cfg params fuel snk) = OutOfFuel.
Proof.
  intros Hz Hne fuel snk.
  assert (HN : 0 < size string_set).
  { destruct string_set; [contradiction |]. unfold size. cbn [length]. lia. }
  rewrite enact_unfold. cbv zeta. rewrite Hz.
  assert (Hloop : forall s,
             fst (dollar_prefix_loop string_set fuel (size string_set) 0 0 s)
             = OutOfFuel).
  { induction fuel as [| fuel IH]; intros s; cbn [dollar_prefix_loop].
    - destruct (Z.ltb_spec 0 (size string_set)); [reflexivity | lia].
    - destruct (Z.ltb_spec 0 (size string_set)); [| lia].
      unfold bind, process. change (u32 (0 + 0)) with 0.
      specialize (IH (s ++ [DollarBlock 0 (Z.min 0 (size string_set))
                              (dollar_bwt string_set 0
                                 (Z.min 0 (size string_set)))])).
      destruct (dollar_prefix_loop _ _ _ _ _ _) as [o s']. cbn [fst] in IH.
      now subst o. }
  specialize (Hloop snk).
  destruct (dollar_prefix_loop _ _ _ _ _ _) as [o s']. cbn [fst] in Hloop.
  now subst o.
Qed.

Lemma enact_zero_block_size_diverges_witness :
  (max_block_size_of (Some (mkBWTParams (8 * GiB) (128 * GiB))) / 4 = 0
   /\ three_strings <> [])
  /\ forall (fuel : nat) (snk : sink),
       fst (enact (fun _ _ => small_histogram) three_strings (config_type_16 32)
                  (Some (mkBWTParams (8 * GiB) (128 * GiB))) fuel snk)
       = OutOfFuel.
Proof.
  assert (H : max_block_size_of (Some (mkBWTParams (8 * GiB) (128 * GiB))) / 4 = 0
              /\ three_strings <> []).
  { split; [vm_compute; reflexivity | discriminate]. }
  split; [exact H |].
  exact (enact_zero_block_size_diverges (fun _ _ => small_histogram)
           three_strings (config_type_16 32)
           (Some (mkBWTParams (8 * GiB) (128 * GiB))) (proj1 H) (proj2 H)).
Defined.

(** ** The host handler *)

Lemma host_copy_spec n : forall i h_bwt h,
  HostBWTHandler.output (HostBWTHandler.copy n i h_bwt h)
    = HostBWTHandler.output h
  /\ forall j,
       HostBWTHandler.memory (HostBWTHandler.copy n i h_bwt h) j
       = if (HostBWTHandler.output h + i <=? j)
            && (j <? HostBWTHandler.output h + i + Z.of_nat n)
         then h_bwt (j - HostBWTHandler.output h)
         else HostBWTHandler.memory h j.
Proof.
  induction n as [| n IH]; intros i h_bwt h; cbn [HostBWTHandler.copy].
  - split; [reflexivity |]. intros j. zbool.
  - destruct (IH (i + 1) h_bwt
                 {| HostBWTHandler.memory :=
                      fun j => if j =? HostBWTHandler.output h + i
                               then h_bwt i else HostBWTHandler.memory h j;
                    HostBWTHandler.output := HostBWTHandler.output h |})
      as (I1 & I2).
    cbn [HostBWTHandler.output HostBWTHandler.memory] in I1, I2.
    split; [exact I1 |]. intros j. rewrite I2.
    repeat match goal with
           | |- context [?a <=? ?b] => destruct (Z.leb_spec a b)
           | |- context [?a <? ?b] => destruct (Z.ltb_spec a b)
           | |- context [?a =? ?b] => destruct (Z.eqb_spec a b)
           end; cbn [andb]; try lia; try reflexivity; f_equal; lia.
Qed.

(** X12. [HostBWTHandler] lays the batches it is given one after the
    other: after any sequence of [process] calls the host string holds
    the concatenation of the batches from the position the iterator
    started at, the iterator stands right after it, and nothing else has
    been written. *)
Theorem host_handler_concatenates (batches : list (list Z))
    (h : HostBWTHandler.t) :
  let h' := fold_left (fun h b => HostBWTHandler.process h (size b) (vector_at b))
                      batches h in
  HostBWTHandler.output h'
    = HostBWTHandler.output h + size (concat batches)
  /\ forall j,
       HostBWTHandler.memory h' j
       = if (HostBWTHandler.output h <=? j)
            && (j <? HostBWTHandler.output h + size (concat batches))
         then vector_at (concat batches) (j - HostBWTHandler.output h)
         else HostBWTHandler.memory h j.
Proof.
  revert h. induction batches as [| b batches IH]; intros h; cbv zeta.
  - cbn [fold_left concat]. unfold size. cbn [length]. split; [lia |].
    intros j. zbool.
  - cbn [fold_left concat].
    pose proof (size_nonneg b) as Hb.
    pose proof (size_nonneg (concat batches)) as Hc.
    destruct (host_copy_spec (Z.to_nat (size b)) 0 (vector_at b) h) as (C1 & C2).
    assert (P1 : HostBWTHandler.output
                   (HostBWTHandler.process h (size b) (vector_at b))
                 = HostBWTHandler.output h + size b).
    { unfold HostBWTHandler.process. cbn [HostBWTHandler.output].
      now rewrite C1. }
    assert (P2 : forall j,
               HostBWTHandler.memory
                 (HostBWTHandler.process h (size b) (vector_at b)) j
               = if (HostBWTHandler.output h <=? j)
                    && (j <? HostBWTHandler.output h + size b)
                 then vector_at b (j - HostBWTHandler.output h)
                 else HostBWTHandler.memory h j).
    { intros j. unfold HostBWTHandler.process. cbn [HostBWTHandler.memory].
      rewrite C2, Z2Nat.id, !Z.add_0_r by lia. reflexivity. }
    specialize (IH (HostBWTHandler.process h (size b) (vector_at b))).
    cbv zeta in IH. destruct IH as (I1 & I2).
    rewrite size_app. split; [rewrite I1, P1; lia |].
    intros j. rewrite I2, P1, P2.
    repeat match goal with
           | |- context [?a <=? ?b] => destruct (Z.leb_spec a b)
           | |- context [?a <? ?b] => destruct (Z.ltb_spec a b)
           end; cbn [andb]; try lia; try reflexivity.
    + rewrite vector_at_app_r by lia. f_equal. lia.
    + rewrite vector_at_app_l by lia. reflexivity.
Qed.

(** ** The sampled suffix array *)

Lemma land_mask slot k :
  0 <= k < 32 -> 0 <= slot ->
  Z.land slot (u32 (2 ^ k - 1)) = slot mod 2 ^ k.
Proof.
  intros Hk Hs.
  assert (Hp : 0 < 2 ^ k <= 2 ^ 31).
  { split; [apply Z.pow_pos_nonneg; lia |].
    apply Z.pow_le_mono_r; lia. }
  rewrite u32_small by lia.
  replace (2 ^ k - 1) with (Z.ones k) by (rewrite Z.ones_equiv; lia).
  apply Z.land_ones. lia.
Qed.

(** The loop of [process_batch], for a power of two [m]: the suffix of
    iteration [i] goes to entry [j] when its slot is [j * m]. *)
Lemma sample_batch k n : forall i sufs out n0,
  0 <= k < 32 -> 0 <= i -> 0 <= n0 -> i + n0 + Z.of_nat n <= 2 ^ 32 ->
  forall j,
    StringSSAHandler.sample n i (fun i => u32 (i + n0)) sufs (2 ^ k) out j
    = if (i + n0 <=? j * 2 ^ k) && (j * 2 ^ k <? i + n0 + Z.of_nat n)
      then sufs (j * 2 ^ k - n0) else out j.
Proof.
  induction n as [| n IH]; intros i sufs out n0 Hk Hi Hn0 Hw j;
    cbn [StringSSAHandler.sample].
  - zbool.
  - assert (Hp : 0 < 2 ^ k) by (apply Z.pow_pos_nonneg; lia).
    rewrite (u32_small (i + n0)) by lia.
    rewrite land_mask by lia.
    rewrite IH by lia.
    pose proof (Z.div_mod (i + n0) (2 ^ k) ltac:(lia)) as Hdm.
    pose proof (Z.mod_pos_bound (i + n0) (2 ^ k) Hp) as Hmb.
    assert (Hexact : j * 2 ^ k = i + n0 ->
                     (i + n0) mod 2 ^ k = 0 /\ (i + n0) / 2 ^ k = j).
    { intros Hj. rewrite <- Hj. split; [apply Z.mod_mul | apply Z.div_mul]; lia. }
    destruct (Z.leb_spec (i + 1 + n0) (j * 2 ^ k)),
             (Z.ltb_spec (j * 2 ^ k) (i + 1 + n0 + Z.of_nat n)),
             (Z.leb_spec (i + n0) (j * 2 ^ k)),
             (Z.ltb_spec (j * 2 ^ k) (i + n0 + Z.of_nat (S n)));
      cbn [andb]; try lia; try reflexivity;
      destruct (Z.eqb_spec ((i + n0) mod 2 ^ k) 0) as [Hz | Hnz];
      try reflexivity;
      try (destruct (Z.eqb_spec j ((i + n0) / 2 ^ k)) as [Hq | Hq];
           try reflexivity;
           try (f_equal; lia);
           try (exfalso; subst j; nia);
           try (exfalso; apply Hq; symmetry; apply Hexact; lia));
      exfalso; apply Hnz; apply Hexact; lia.
Qed.

Lemma to_int_small x : 0 <= x < 2 ^ 31 -> StringSSAHandler.to_int x = x.
Proof.
  intros Hx. unfold StringSSAHandler.to_int.
  destruct (Z.ltb_spec x (2 ^ 31)); lia.
Qed.

(** One batch. *)
Lemma ssa_process_batch k h b :
  0 <= k < 32 -> StringSSAHandler.mod_ h = 2 ^ k ->
  0 <= StringSSAHandler.n_output h -> size b < 2 ^ 31 ->
  StringSSAHandler.n_output h + size b < 2 ^ 32 ->
  let h' := StringSSAHandler.process_batch h (size b) (vector_at b) in
  StringSSAHandler.mod_ h' = 2 ^ k
  /\ StringSSAHandler.n_output h' = StringSSAHandler.n_output h + size b
  /\ forall j,
       StringSSAHandler.output h' j
       = if (StringSSAHandler.n_output h <=? j * 2 ^ k)
            && (j * 2 ^ k <? StringSSAHandler.n_output h + size b)
         then vector_at b (j * 2 ^ k - StringSSAHandler.n_output h)
         else StringSSAHandler.output h j.
Proof.
  intros Hk Hm Hn Hb Hw. cbv zeta. pose proof (size_nonneg b) as Hb0.
  unfold StringSSAHandler.process_batch.
  cbn [StringSSAHandler.mod_ StringSSAHandler.n_output StringSSAHandler.output].
  split; [exact Hm |]. split; [apply u32_small; lia |].
  intros j. rewrite Hm, to_int_small by lia.
  rewrite sample_batch by lia. rewrite Z2Nat.id by lia.
  rewrite !Z.add_0_l. reflexivity.
Qed.

Lemma ssa_fold k batches : forall h,
  0 <= k < 32 -> StringSSAHandler.mod_ h = 2 ^ k ->
  0 <= StringSSAHandler.n_output h ->
  Forall (fun b => size b < 2 ^ 31) batches ->
  StringSSAHandler.n_output h + size (concat batches) < 2 ^ 32 ->
  let h' := fold_left (fun h b => StringSSAHandler.process_batch h (size b)
                                    (vector_at b)) batches h in
  StringSSAHandler.n_output h'
    = StringSSAHandler.n_output h + size (concat batches)
  /\ forall j,
       StringSSAHandler.output h' j
       = if (StringSSAHandler.n_output h <=? j * 2 ^ k)
            && (j * 2 ^ k <? StringSSAHandler.n_output h + size (concat batches))
         then vector_at (concat batches) (j * 2 ^ k - StringSSAHandler.n_output h)
         else StringSSAHandler.output h j.
Proof.
  induction batches as [| b batches IH]; intros h Hk Hm Hn Hall Hw; cbv zeta.
  - cbn [fold_left concat]. unfold size. cbn [length]. split; [lia |].
    intros j. zbool.
  - cbn [fold_left concat] in Hw |- *. inversion Hall as [| ? ? Hb Hrest]; subst.
    rewrite size_app in Hw |- *.
    pose proof (size_nonneg b) as Hb0.
    pose proof (size_nonneg (concat batches)) as Hc0.
    destruct (ssa_process_batch k h b Hk Hm Hn Hb ltac:(lia)) as (P0 & P1 & P2).
    cbv zeta in P0, P1, P2.
    specialize (IH (StringSSAHandler.process_batch h (size b) (vector_at b))
                   Hk P0 ltac:(lia) Hrest ltac:(lia)).
    cbv zeta in IH. destruct IH as (I1 & I2).
    split; [lia |]. intros j. rewrite I2, P1, P2.
    repeat match goal with
           | |- context [?a <=? ?b] => destruct (Z.leb_spec a b)
           | |- context [?a <? ?b] => destruct (Z.ltb_spec a b)
           end; cbn [andb]; try lia; try reflexivity.
    + rewrite vector_at_app_r by lia. f_equal. lia.
    + rewrite vector_at_app_l by lia. reflexivity.
Qed.

(** X13. [StringSSAHandler] with a power of two [mod] keeps a sampled
    suffix array: after the batches of the sorted suffixes have been
    processed in order, entry 0 holds [uint32(-1)] for the empty suffix
    and entry [j >= 1] holds the suffix of rank [j * mod], the ranks
    counted from 1 among the suffixes handed in; entries beyond the last
    sample are as they were. Each batch holds fewer than [2^31]
    suffixes. *)
Theorem ssa_handler_samples (k len : Z) (out : Z -> Z)
    (batches : list (list Z)) :
  0 <= k < 32 ->
  Forall (fun b => size b < 2 ^ 31) batches ->
  1 + size (concat batches) < 2 ^ 32 ->
  let h' := fold_left (fun h b => StringSSAHandler.process_batch h (size b)
                                    (vector_at b))
                      batches (StringSSAHandler.new len (2 ^ k) out) in
  StringSSAHandler.n_output h' = 1 + size (concat batches)
  /\ StringSSAHandler.output h' 0 = 2 ^ 32 - 1
  /\ (forall j, 1 <= j -> j * 2 ^ k <= size (concat batches) ->
        StringSSAHandler.output h' j
        = vector_at (concat batches) (j * 2 ^ k - 1))
  /\ (forall j, j < 0 \/ size (concat batches) < j * 2 ^ k ->
        StringSSAHandler.output h' j = out j).
Proof.
  intros Hk Hall Hw. cbv zeta.
  destruct (ssa_fold k batches (StringSSAHandler.new len (2 ^ k) out) Hk
              eq_refl ltac:(cbn; lia) Hall
              ltac:(cbn [StringSSAHandler.new StringSSAHandler.n_output]; lia))
    as (F1 & F2).
  cbv zeta in F1, F2.
  cbn [StringSSAHandler.new StringSSAHandler.n_output StringSSAHandler.output]
    in F1, F2.
  assert (Hp : 0 < 2 ^ k) by (apply Z.pow_pos_nonneg; lia).
  pose proof (size_nonneg (concat batches)) as Hc0.
  split; [exact F1 |]. split; [| split].
  - rewrite F2. rewrite Z.mul_0_l. reflexivity.
  - intros j Hj Hle. rewrite F2.
    destruct (Z.leb_spec 1 (j * 2 ^ k)),
             (Z.ltb_spec (j * 2 ^ k) (1 + size (concat batches)));
      cbn [andb]; try reflexivity; exfalso; nia.
  - intros j Hj. rewrite F2.
    destruct (Z.leb_spec 1 (j * 2 ^ k)),
             (Z.ltb_spec (j * 2 ^ k) (1 + size (concat batches)));
      cbn [andb]; try (exfalso; nia);
      (destruct (Z.eqb_spec j 0); [exfalso; nia | reflexivity]).
Qed.

Lemma ssa_handler_samples_witness :
  (0 <= 1 < 32
   /\ Forall (fun b => size b < 2 ^ 31) [[5; 3]; [1; 0; 4; 2]]
   /\ 1 + size (concat [[5; 3]; [1; 0; 4; 2]]) < 2 ^ 32)
  /\ let h' := fold_left (fun h b => StringSSAHandler.process_batch h (size b)
                                       (vector_at b))
                         [[5; 3]; [1; 0; 4; 2]]
                         (StringSSAHandler.new 6 (2 ^ 1) (fun _ => 0)) in
     StringSSAHandler.n_output h' = 1 + size (concat [[5; 3]; [1; 0; 4; 2]])
     /\ StringSSAHandler.output h' 0 = 2 ^ 32 - 1
     /\ (forall j, 1 <= j -> j * 2 ^ 1 <= size (concat [[5; 3]; [1; 0; 4; 2]]) ->
           StringSSAHandler.output h' j
           = vector_at (concat [[5; 3]; [1; 0; 4; 2]]) (j * 2 ^ 1 - 1))
     /\ (forall j, j < 0 \/ size (concat [[5; 3]; [1; 0; 4; 2]]) < j * 2 ^ 1 ->
           StringSSAHandler.output h' j = (fun _ => 0) j).
Proof.
  assert (H : 0 <= 1 < 32
              /\ Forall (fun b => size b < 2 ^ 31) [[5; 3]; [1; 0; 4; 2]]
              /\ 1 + size (concat [[5; 3]; [1; 0; 4; 2]]) < 2 ^ 32)
    by concrete.
  split; [exact H |].
  apply (ssa_handler_samples 1 6 (fun _ => 0) [[5; 3]; [1; 0; 4; 2]]); apply H.
Defined.

(** The sampled suffix array of "banana" with [mod = 2]: the suffix
    array is [6; 5; 3; 1; 0; 4; 2], the samples are its entries 0, 2, 4
    and 6, and the first one is written as [uint32(-1)]. *)
Example banana_sampled_suffix_array :
  map (StringSSAHandler.output
         (fold_left (fun h b => StringSSAHandler.process_batch h (size b)
                                  (vector_at b))
                    [[5; 3]; [1; 0; 4; 2]]
                    (StringSSAHandler.new 6 2 (fun _ => 0))))
      [0; 1; 2; 3]
  = [2 ^ 32 - 1; 3; 0; 2].
Proof. vm_compute. reflexivity. Qed.

Lemma sample_ext n : forall i f g sufs sufs' m out,
  (forall x, i <= x < i + Z.of_nat n -> f x = g x /\ sufs x = sufs' x) ->
  forall j, StringSSAHandler.sample n i f sufs m out j
            = StringSSAHandler.sample n i g sufs' m out j.
Proof.
  induction n as [| n IH]; intros i f g sufs sufs' m out Hext j;
    cbn [StringSSAHandler.sample].
  - reflexivity.
  - destruct (Hext i ltac:(lia)) as (-> & ->).
    apply IH. intros x Hx. apply Hext. lia.
Qed.

(** X14. [process_scattered] rewrites what [process_batch] wrote: when
    a batch is handed in again through [process_scattered], with the
    slots it was output at (its ranks among the suffixes, counted from
    0) and the suffixes in their final order, the samples are those
    [process_batch] would have kept had it been given the final order at
    once, and the counter of the handler is not advanced a second
    time. *)
Theorem ssa_scattered_rewrites_batch (k : Z) (h : StringSSAHandler.t)
    (b b' : list Z) (d_slots : Z -> Z) :
  0 <= k < 32 -> StringSSAHandler.mod_ h = 2 ^ k ->
  1 <= StringSSAHandler.n_output h ->
  size b' = size b -> size b < 2 ^ 31 ->
  StringSSAHandler.n_output h + size b < 2 ^ 32 ->
  (forall i, 0 <= i < size b ->
     d_slots i = StringSSAHandler.n_output h - 1 + i) ->
  let h1 := StringSSAHandler.process_batch h (size b) (vector_at b) in
  let h2 := StringSSAHandler.process_scattered h1 (size b') (vector_at b')
                                               d_slots in
  StringSSAHandler.n_output h2 = StringSSAHandler.n_output h + size b
  /\ forall j,
       StringSSAHandler.output h2 j
       = StringSSAHandler.output
           (StringSSAHandler.process_batch h (size b') (vector_at b')) j.
Proof.
  intros Hk Hm Hn Hsz Hb Hw Hslots. cbv zeta.
  pose proof (size_nonneg b) as Hb0.
  destruct (ssa_process_batch k h b Hk Hm ltac:(lia) Hb Hw) as (P0 & P1 & P2).
  destruct (ssa_process_batch k h b' Hk Hm ltac:(lia) ltac:(lia) ltac:(lia))
    as (_ & _ & Q2).
  cbv zeta in P0, P1, P2, Q2.
  unfold StringSSAHandler.process_scattered.
  cbn [StringSSAHandler.n_output StringSSAHandler.output StringSSAHandler.mod_].
  split; [exact P1 |]. intros j.
  rewrite Q2, P0, Hsz, to_int_small by lia.
  rewrite (sample_ext _ 0 _ (fun i => u32 (i + StringSSAHandler.n_output h))
             _ (vector_at b')).
  - rewrite sample_batch by lia. rewrite Z2Nat.id, !Z.add_0_l by lia.
    rewrite P2.
    destruct ((StringSSAHandler.n_output h <=? j * 2 ^ k)
              && (j * 2 ^ k <? StringSSAHandler.n_output h + size b));
      reflexivity.
  - intros x Hx. split; [| reflexivity]. rewrite Hslots by lia. f_equal. lia.
Qed.

Lemma ssa_scattered_rewrites_batch_witness :
  (0 <= 1 < 32
   /\ StringSSAHandler.mod_ (StringSSAHandler.new 6 2 (fun _ => 0)) = 2 ^ 1
   /\ 1 <= StringSSAHandler.n_output (StringSSAHandler.new 6 2 (fun _ => 0))
   /\ size [5; 3; 1; 0] = size [3; 5; 0; 1] /\ size [3; 5; 0; 1] < 2 ^ 31
   /\ StringSSAHandler.n_output (StringSSAHandler.new 6 2 (fun _ => 0))
      + size [3; 5; 0; 1] < 2 ^ 32
   /\ (forall i, 0 <= i < size [3; 5; 0; 1] ->
         (fun i => i) i
         = StringSSAHandler.n_output (StringSSAHandler.new 6 2 (fun _ => 0))
           - 1 + i))
  /\ let h1 := StringSSAHandler.process_batch
                 (StringSSAHandler.new 6 2 (fun _ => 0))
                 (size [3; 5; 0; 1]) (vector_at [3; 5; 0; 1]) in
     let h2 := StringSSAHandler.process_scattered h1 (size [5; 3; 1; 0])
                 (vector_at [5; 3; 1; 0]) (fun i => i) in
     StringSSAHandler.n_output h2
     = StringSSAHandler.n_output (StringSSAHandler.new 6 2 (fun _ => 0))
       + size [3; 5; 0; 1]
     /\ forall j,
          StringSSAHandler.output h2 j
          = StringSSAHandler.output
              (StringSSAHandler.process_batch
                 (StringSSAHandler.new 6 2 (fun _ => 0))
                 (size [5; 3; 1; 0]) (vector_at [5; 3; 1; 0])) j.
Proof.
  assert (H : 0 <= 1 < 32
              /\ StringSSAHandler.mod_ (StringSSAHandler.new 6 2 (fun _ => 0))
                 = 2 ^ 1
              /\ 1 <= StringSSAHandler.n_output
                        (StringSSAHandler.new 6 2 (fun _ => 0))
              /\ size [5; 3; 1; 0] = size [3; 5; 0; 1]
              /\ size [3; 5; 0; 1] < 2 ^ 31
              /\ StringSSAHandler.n_output
                   (StringSSAHandler.new 6 2 (fun _ => 0))
                 + size [3; 5; 0; 1] < 2 ^ 32
              /\ (forall i, 0 <= i < size [3; 5; 0; 1] ->
                    (fun i => i) i
                    = StringSSAHandler.n_output
                        (StringSSAHandler.new 6 2 (fun _ => 0)) - 1 + i)).
  { repeat split; try (vm_compute; congruence); intros i _; cbn; lia. }
  split; [exact H |].
  destruct H as (H1 & H2 & H3 & H4 & H5 & H6 & H7).
  exact (ssa_scattered_rewrites_batch 1 (StringSSAHandler.new 6 2 (fun _ => 0))
           [3; 5; 0; 1] [5; 3; 1; 0] (fun i => i) H1 H2 H3 H4 H5 H6 H7).
Defined.

(** ** The packed host handler *)

Lemma extract_shifted x a b s :
  0 < s -> 0 <= x < 2 ^ s -> 0 <= a -> 0 <= b ->
  a = b \/ a + s <= b \/ b + s <= a ->
  Z.land (Z.shiftr (Z.shiftl x a) b) (Z.ones s) = if a =? b then x else 0.
Proof.
  intros Hs Hx Ha Hb Hab.
  rewrite Z.land_ones, Z.shiftr_div_pow2, Z.shiftl_mul_pow2 by lia.
  assert (Hps : 0 < 2 ^ s) by (apply Z.pow_pos_nonneg; lia).
  destruct (Z.eqb_spec a b) as [-> | Hne].
  - rewrite Z.div_mul by (apply Z.pow_nonzero; lia). apply Z.mod_small. lia.
  - destruct Hab as [Heq | [Hlt | Hgt]]; [contradiction | |].
    + (* the symbol lies below the slot *)
      replace (2 ^ b) with (2 ^ a * 2 ^ (b - a))
        by (rewrite <- Z.pow_add_r by lia; f_equal; lia).
      rewrite <- Z.div_div by (try apply Z.pow_nonzero; try apply Z.pow_pos_nonneg; lia).
      rewrite Z.div_mul by (apply Z.pow_nonzero; lia).
      rewrite Z.div_small; [reflexivity |].
      split; [lia |]. apply Z.lt_le_trans with (2 ^ s); [lia |].
      apply Z.pow_le_mono_r; lia.
    + (* the symbol lies above the slot *)
      replace (x * 2 ^ a) with (x * 2 ^ (a - b) * 2 ^ b)
        by (rewrite <- Z.mul_assoc, <- Z.pow_add_r by lia; do 2 f_equal; lia).
      rewrite Z.div_mul by (apply Z.pow_nonzero; lia).
      replace (x * 2 ^ (a - b)) with (x * 2 ^ (a - b - s) * 2 ^ s)
        by (rewrite <- Z.mul_assoc, <- Z.pow_add_r by lia; do 2 f_equal; lia).
      apply Z.mod_mul. lia.
Qed.

Section PackedFacts.

Variable SYMBOL_SIZE : Z.
Variable BIG_ENDIAN : bool.
Variable WORD_SIZE : Z.
Variable k : Z.

Hypothesis symbol_positive : 0 < SYMBOL_SIZE.
Hypothesis word_range : 0 <= WORD_SIZE < 2 ^ 32.
Hypothesis k_range : 0 <= k < 32.
Hypothesis power_of_two :
  PackedHostBWTHandler.SYMBOLS_PER_WORD SYMBOL_SIZE WORD_SIZE = 2 ^ k.

Local Abbreviation SPW := (2 ^ k).
Local Abbreviation off j :=
  (PackedHostBWTHandler.symbol_offset SYMBOL_SIZE BIG_ENDIAN WORD_SIZE
     (u32 (j * SYMBOL_SIZE))).
Local Abbreviation slot :=
  (PackedHostBWTHandler.slot SYMBOL_SIZE BIG_ENDIAN WORD_SIZE).
Local Abbreviation to_word := (PackedHostBWTHandler.to_word WORD_SIZE).

Lemma spw_positive : 0 < SPW.
Proof. apply Z.pow_pos_nonneg; lia. Qed.

Lemma spw_bound : SPW <= 2 ^ 31.
Proof. apply Z.pow_le_mono_r; lia. Qed.

(** The symbols of a word fit the word. *)
Lemma symbols_fit : SYMBOL_SIZE * SPW <= WORD_SIZE.
Proof.
  unfold PackedHostBWTHandler.SYMBOLS_PER_WORD in power_of_two.
  assert (Hq : 0 <= WORD_SIZE / SYMBOL_SIZE <= WORD_SIZE).
  { split; [apply Z.div_pos; lia |].
    apply Z.div_le_upper_bound; [lia | nia]. }
  rewrite u32_small in power_of_two by lia.
  rewrite <- power_of_two. apply Z.mul_div_le. lia.
Qed.

Lemma off_spec j :
  0 <= j < SPW ->
  off j = (if BIG_ENDIAN then WORD_SIZE - SYMBOL_SIZE - j * SYMBOL_SIZE
           else j * SYMBOL_SIZE)
  /\ 0 <= off j /\ off j + SYMBOL_SIZE <= WORD_SIZE.
Proof.
  intros Hj. pose proof symbols_fit as Hfit.
  assert (Hb : 0 <= j * SYMBOL_SIZE /\ j * SYMBOL_SIZE + SYMBOL_SIZE <= WORD_SIZE)
    by nia.
  unfold PackedHostBWTHandler.symbol_offset.
  rewrite (u32_small (j * SYMBOL_SIZE)) by lia.
  destruct BIG_ENDIAN.
  - rewrite (u32_small (WORD_SIZE - SYMBOL_SIZE)) by lia.
    rewrite u32_small by lia. lia.
  - lia.
Qed.

Lemma slot_lor a b j : slot (Z.lor a b) j = Z.lor (slot a j) (slot b j).
Proof.
  unfold PackedHostBWTHandler.slot.
  now rewrite Z.shiftr_lor, Z.land_lor_distr_l.
Qed.

Lemma slot_zero j : slot 0 j = 0.
Proof.
  unfold PackedHostBWTHandler.slot. now rewrite Z.shiftr_0_l, Z.land_0_l.
Qed.

(** A symbol shifted to slot [j] is read back in slot [j], and reads as
    zero in the other slots. *)
Lemma slot_symbol x j t :
  0 <= x < 2 ^ SYMBOL_SIZE -> 0 <= j < SPW -> 0 <= t < SPW ->
  slot (to_word (Z.shiftl x (off j))) t = if t =? j then x else 0.
Proof.
  intros Hx Hj Ht.
  destruct (off_spec j Hj) as (Ej & Hj0 & Hj1).
  destruct (off_spec t Ht) as (Et & Ht0 & Ht1).
  assert (Hsmall : to_word (Z.shiftl x (off j)) = Z.shiftl x (off j)).
  { unfold PackedHostBWTHandler.to_word. apply Z.mod_small.
    rewrite Z.shiftl_mul_pow2 by lia. split.
    - apply Z.mul_nonneg_nonneg; [lia |]. apply Z.pow_nonneg. lia.
    - apply Z.lt_le_trans with (2 ^ SYMBOL_SIZE * 2 ^ off j).
      + apply Z.mul_lt_mono_pos_r; [apply Z.pow_pos_nonneg; lia | lia].
      + rewrite <- Z.pow_add_r by lia. apply Z.pow_le_mono_r; lia. }
  rewrite Hsmall. unfold PackedHostBWTHandler.slot.
  rewrite extract_shifted; try lia.
  - destruct (Z.eqb_spec (off j) (off t)) as [Heq | Hne],
             (Z.eqb_spec t j) as [Htj | Htj]; try reflexivity.
    + exfalso. rewrite Ej, Et in Heq. destruct BIG_ENDIAN; nia.
    + exfalso. subst t. contradiction.
  - rewrite Ej, Et. destruct (Z.lt_trichotomy t j) as [Hlt | [Heq | Hgt]].
    + destruct BIG_ENDIAN; [right; left; nia | right; right; nia].
    + left. now subst t.
    + destruct BIG_ENDIAN; [right; right; nia | right; left; nia].
Qed.

(** The word encoded from the symbols [h_bwt[i + j ..]]: slot [t] holds
    what it held, or-ed with the symbol that was put there. *)
Lemma encode_word_slot h_bwt n : forall j i word t,
  0 <= j -> j + Z.of_nat n <= SPW -> 0 <= i -> i + SPW <= 2 ^ 32 ->
  (forall p, i + j <= p < i + j + Z.of_nat n -> 0 <= h_bwt p < 2 ^ SYMBOL_SIZE) ->
  0 <= t < SPW ->
  slot (PackedHostBWTHandler.encode_word SYMBOL_SIZE BIG_ENDIAN WORD_SIZE
          n j i h_bwt word) t
  = Z.lor (slot word t)
          (if (j <=? t) && (t <? j + Z.of_nat n) then h_bwt (i + t) else 0).
Proof.
  induction n as [| n IH]; intros j i word t Hj Hn Hi Hw Hsym Ht;
    cbn [PackedHostBWTHandler.encode_word].
  - replace ((j <=? t) && (t <? j + Z.of_nat 0)) with false by zbool.
    now rewrite Z.lor_0_r.
  - rewrite IH; try lia.
    2:{ intros p Hp. apply Hsym. lia. }
    rewrite slot_lor, (u32_small (i + j)) by lia.
    rewrite slot_symbol; try lia.
    2:{ apply Hsym. lia. }
    rewrite <- Z.lor_assoc. f_equal.
    destruct (Z.eqb_spec t j) as [-> | Hne].
    + replace ((j + 1 <=? j) && (j <? j + 1 + Z.of_nat n)) with false by zbool.
      replace ((j <=? j) && (j <? j + Z.of_nat (S n))) with true by zbool.
      now rewrite Z.lor_0_r.
    + rewrite Z.lor_0_l.
      replace ((j + 1 <=? t) && (t <? j + 1 + Z.of_nat n))
        with ((j <=? t) && (t <? j + Z.of_nat (S n))) by zbool.
      reflexivity.
Qed.

Lemma div_step x : SPW <= x -> x / SPW = (x - SPW) / SPW + 1.
Proof.
  intros Hx. pose proof spw_positive.
  replace x with (x - SPW + 1 * SPW) at 1 by lia.
  apply Z.div_add. lia.
Qed.

Lemma mod_step x : x mod SPW = (x - SPW) mod SPW.
Proof.
  pose proof spw_positive.
  replace x with (x - SPW + 1 * SPW) at 1 by lia.
  apply Z.mod_add. lia.
Qed.

(** The loop over the words: it writes the words that follow
    [word_idx], never [word_idx] itself. *)
Lemma encode_words_spec h_bwt n_suffixes fuel : forall i word_idx stream,
  0 <= i -> n_suffixes + SPW <= 2 ^ 32 -> 0 <= word_idx ->
  word_idx + (n_suffixes - i + SPW - 1) / SPW < 2 ^ 32 ->
  (n_suffixes - i) / SPW + 1 <= Z.of_nat fuel ->
  (forall p, i <= p < n_suffixes -> 0 <= h_bwt p < 2 ^ SYMBOL_SIZE) ->
  exists stream',
    PackedHostBWTHandler.encode_words SYMBOL_SIZE BIG_ENDIAN WORD_SIZE fuel
      n_suffixes i word_idx h_bwt stream = Some stream'
    /\ (forall p, i <= p < n_suffixes ->
          slot (stream' (word_idx + 1 + (p - i) / SPW)) ((p - i) mod SPW)
          = h_bwt p)
    /\ (forall w, w <= word_idx
                  \/ word_idx + (n_suffixes - i + SPW - 1) / SPW < w ->
          stream' w = stream w).
Proof.
  pose proof spw_positive as Hp.
  induction fuel as [| fuel IH]; intros i word_idx stream Hi Hn Hw Hww Hf Hsym;
    cbn [PackedHostBWTHandler.encode_words].
  - destruct (Z.ltb_spec i n_suffixes) as [Hlt | Hge].
    + exfalso. assert (0 <= (n_suffixes - i) / SPW) by (apply Z.div_pos; lia).
      lia.
    + exists stream. split; [reflexivity |]. split; [intros; lia | reflexivity].
  - destruct (Z.ltb_spec i n_suffixes) as [Hlt | Hge].
    2:{ exists stream. split; [reflexivity |]. split; [intros; lia | reflexivity]. }
    rewrite power_of_two.
    rewrite (u32_small (n_suffixes - i)), (u32_small (word_idx + 1)),
      (u32_small (i + SPW)) by
      (try lia;
       assert (1 <= (n_suffixes - i + SPW - 1) / SPW)
         by (apply Z.div_le_lower_bound; lia); lia).
    assert (Hq : (n_suffixes - i + SPW - 1) / SPW
                 = (n_suffixes - (i + SPW) + SPW - 1) / SPW + 1).
    { rewrite (div_step (n_suffixes - i + SPW - 1)) by lia.
      do 2 f_equal. lia. }
    set (n_symbols := Z.min SPW (n_suffixes - i)).
    set (word := PackedHostBWTHandler.encode_word SYMBOL_SIZE BIG_ENDIAN
                   WORD_SIZE (Z.to_nat n_symbols) 0 i h_bwt 0).
    destruct (IH (i + SPW) (word_idx + 1)
                 (fun w => if w =? word_idx + 1 then word else stream w))
      as (stream' & Hrun & Hget & Hframe); try lia.
    { destruct (Z.le_gt_cases SPW (n_suffixes - i)) as [Hbig | Hsmall].
      - rewrite (div_step (n_suffixes - i)) in Hf by lia.
        replace (n_suffixes - (i + SPW)) with (n_suffixes - i - SPW) by lia.
        lia.
      - assert (Hneg : (n_suffixes - (i + SPW)) / SPW < 0)
          by (apply Z.div_lt_upper_bound; lia).
        lia. }
    { intros p Hp'. apply Hsym. lia. }
    exists stream'. split; [exact Hrun |]. split.
    + intros p Hp'. destruct (Z.lt_ge_cases p (i + SPW)) as [Hin | Hout].
      * rewrite Z.div_small, Z.mod_small by lia.
        rewrite Z.add_0_r, Hframe by lia. rewrite Z.eqb_refl.
        subst word. rewrite encode_word_slot; try (subst n_symbols; lia).
        -- rewrite slot_zero, Z.lor_0_l.
           replace ((0 <=? p - i) && (p - i <? 0 + Z.of_nat (Z.to_nat n_symbols)))
             with true by (subst n_symbols; zbool).
           f_equal. lia.
        -- intros q Hq'. apply Hsym. subst n_symbols. lia.
      * specialize (Hget p ltac:(lia)).
        rewrite (div_step (p - i)), (mod_step (p - i)) by lia.
        replace (p - i - SPW) with (p - (i + SPW)) by lia.
        replace (word_idx + 1 + ((p - (i + SPW)) / SPW + 1))
          with (word_idx + 1 + 1 + (p - (i + SPW)) / SPW) by lia.
        exact Hget.
    + intros w Hw'. rewrite Hframe by lia.
      assert (1 <= (n_suffixes - i + SPW - 1) / SPW)
        by (apply Z.div_le_lower_bound; lia).
      destruct (Z.eqb_spec w (word_idx + 1)); [lia | reflexivity].
Qed.

(** A batch handed in at an offset that is a multiple of
    [SYMBOLS_PER_WORD]. *)
Lemma process_aligned fuel h n_suffixes h_bwt :
  0 <= PackedHostBWTHandler.offset h ->
  PackedHostBWTHandler.offset h mod SPW = 0 ->
  0 <= n_suffixes -> n_suffixes + SPW <= 2 ^ 32 ->
  PackedHostBWTHandler.offset h / SPW + (n_suffixes + SPW - 1) / SPW < 2 ^ 32 ->
  n_suffixes / SPW + 1 <= Z.of_nat fuel ->
  (forall p, 0 <= p < n_suffixes -> 0 <= h_bwt p < 2 ^ SYMBOL_SIZE) ->
  exists h',
    PackedHostBWTHandler.process SYMBOL_SIZE BIG_ENDIAN WORD_SIZE fuel h
      n_suffixes h_bwt = Some h'
    /\ PackedHostBWTHandler.offset h'
       = u64 (PackedHostBWTHandler.offset h + n_suffixes)
    /\ (forall p, 0 <= p < n_suffixes ->
          PackedHostBWTHandler.get SYMBOL_SIZE BIG_ENDIAN WORD_SIZE
            (PackedHostBWTHandler.words h')
            (PackedHostBWTHandler.offset h + SPW + p)
          = h_bwt p)
    /\ (forall w, w <= PackedHostBWTHandler.offset h / SPW
                  \/ PackedHostBWTHandler.offset h / SPW
                     + (n_suffixes + SPW - 1) / SPW < w ->
          PackedHostBWTHandler.words h' w = PackedHostBWTHandler.words h w).
Proof.
  intros Ho Hal Hn Hw Hww Hf Hsym. pose proof spw_positive as Hp.
  unfold PackedHostBWTHandler.process. rewrite power_of_two.
  rewrite land_mask by lia. rewrite Hal. change (u32 0 =? 0) with true.
  cbv iota.
  assert (Hq0 : 0 <= PackedHostBWTHandler.offset h / SPW)
    by (apply Z.div_pos; lia).
  assert (Hq1 : 0 <= (n_suffixes + SPW - 1) / SPW) by (apply Z.div_pos; lia).
  rewrite (u32_small (PackedHostBWTHandler.offset h / SPW)) by lia.
  destruct (encode_words_spec h_bwt n_suffixes fuel 0
              (PackedHostBWTHandler.offset h / SPW)
              (PackedHostBWTHandler.words h))
    as (stream' & Hrun & Hget & Hframe); try lia.
  { now rewrite Z.sub_0_r. }
  { now rewrite Z.sub_0_r. }
  { intros p Hp'. apply Hsym. lia. }
  rewrite Hrun. eexists. split; [reflexivity |].
  cbn [PackedHostBWTHandler.offset PackedHostBWTHandler.words].
  split; [reflexivity |]. split.
  - intros p Hp'. unfold PackedHostBWTHandler.get. rewrite power_of_two.
    specialize (Hget p ltac:(lia)). rewrite Z.sub_0_r in Hget.
    assert (Hoff : PackedHostBWTHandler.offset h
                   = PackedHostBWTHandler.offset h / SPW * SPW).
    { pose proof (Z.div_mod (PackedHostBWTHandler.offset h) SPW ltac:(lia)).
      lia. }
    replace (PackedHostBWTHandler.offset h + SPW + p)
      with (p + (PackedHostBWTHandler.offset h / SPW + 1) * SPW) by lia.
    rewrite Z.div_add, Z.mod_add by lia.
    replace (p / SPW + (PackedHostBWTHandler.offset h / SPW + 1))
      with (PackedHostBWTHandler.offset h / SPW + 1 + p / SPW) by lia.
    exact Hget.
  - intros w Hw'. apply Hframe. rewrite Z.sub_0_r. exact Hw'.
Qed.


(** The loop that completes the current word: slot [word_offset + i]
    receives symbol [i], or-ed with what the slot held. *)
Lemma fill_word_slot h_bwt word_offset n : forall i word t,
  0 <= word_offset -> 0 <= i -> word_offset + i + Z.of_nat n <= SPW ->
  (forall p, i <= p < i + Z.of_nat n -> 0 <= h_bwt p < 2 ^ SYMBOL_SIZE) ->
  0 <= t < SPW ->
  slot (PackedHostBWTHandler.fill_word SYMBOL_SIZE BIG_ENDIAN WORD_SIZE
          n i word_offset h_bwt word) t
  = Z.lor (slot word t)
          (if (word_offset + i <=? t) && (t <? word_offset + i + Z.of_nat n)
           then h_bwt (t - word_offset) else 0).
Proof.
  induction n as [| n IH]; intros i word t Hwo Hi Hn Hsym Ht;
    cbn [PackedHostBWTHandler.fill_word].
  - replace ((word_offset + i <=? t) && (t <? word_offset + i + Z.of_nat 0))
      with false by zbool.
    now rewrite Z.lor_0_r.
  - pose proof spw_positive as Hp. pose proof spw_bound as Hb.
    rewrite IH; try lia.
    2:{ intros p Hp'. apply Hsym. lia. }
    rewrite slot_lor, (u32_small (word_offset + i)) by lia.
    rewrite slot_symbol; try lia.
    2:{ apply Hsym. lia. }
    rewrite <- Z.lor_assoc. f_equal.
    destruct (Z.eqb_spec t (word_offset + i)) as [-> | Hne].
    + replace ((word_offset + (i + 1) <=? word_offset + i)
               && (word_offset + i <? word_offset + (i + 1) + Z.of_nat n))
        with false by zbool.
      replace ((word_offset + i <=? word_offset + i)
               && (word_offset + i <? word_offset + i + Z.of_nat (S n)))
        with true by zbool.
      rewrite Z.lor_0_r. f_equal. lia.
    + rewrite Z.lor_0_l.
      replace ((word_offset + (i + 1) <=? t)
               && (t <? word_offset + (i + 1) + Z.of_nat n))
        with ((word_offset + i <=? t)
              && (t <? word_offset + i + Z.of_nat (S n))) by zbool.
      reflexivity.
Qed.

(** A batch handed in at an offset that is not a multiple of
    [SYMBOLS_PER_WORD]. *)
Lemma process_unaligned fuel h n_suffixes h_bwt :
  let word_offset := PackedHostBWTHandler.offset h mod SPW in
  let word_rem := SPW - word_offset in
  0 <= PackedHostBWTHandler.offset h ->
  word_offset <> 0 ->
  0 <= n_suffixes -> n_suffixes + SPW <= 2 ^ 32 ->
  PackedHostBWTHandler.offset h / SPW + 1 + (n_suffixes + SPW - 1) / SPW
    < 2 ^ 32 ->
  n_suffixes / SPW + 1 <= Z.of_nat fuel ->
  (forall p, 0 <= p < Z.max n_suffixes word_rem ->
     0 <= h_bwt p < 2 ^ SYMBOL_SIZE) ->
  exists h',
    PackedHostBWTHandler.process SYMBOL_SIZE BIG_ENDIAN WORD_SIZE fuel h
      n_suffixes h_bwt = Some h'
    /\ PackedHostBWTHandler.offset h'
       = u64 (PackedHostBWTHandler.offset h + n_suffixes)
    /\ (forall p, 0 <= p < word_rem ->
          PackedHostBWTHandler.get SYMBOL_SIZE BIG_ENDIAN WORD_SIZE
            (PackedHostBWTHandler.words h')
            (PackedHostBWTHandler.offset h + p)
          = Z.lor (PackedHostBWTHandler.get SYMBOL_SIZE BIG_ENDIAN WORD_SIZE
                     (PackedHostBWTHandler.words h)
                     (PackedHostBWTHandler.offset h + p))
                  (h_bwt p))
    /\ (forall p, word_rem <= p < n_suffixes ->
          PackedHostBWTHandler.get SYMBOL_SIZE BIG_ENDIAN WORD_SIZE
            (PackedHostBWTHandler.words h')
            (PackedHostBWTHandler.offset h + SPW + p)
          = h_bwt p)
    /\ PackedHostBWTHandler.words h' (PackedHostBWTHandler.offset h / SPW + 1)
       = PackedHostBWTHandler.words h (PackedHostBWTHandler.offset h / SPW + 1).
Proof.
  cbv zeta. intros Ho Hal Hn Hw Hww Hf Hsym. pose proof spw_positive as Hp.
  pose proof (Z.mod_pos_bound (PackedHostBWTHandler.offset h) SPW Hp) as Hmb.
  pose proof (Z.div_mod (PackedHostBWTHandler.offset h) SPW ltac:(lia)) as Hdm.
  set (wo := PackedHostBWTHandler.offset h mod SPW) in *.
  set (q := PackedHostBWTHandler.offset h / SPW) in *.
  assert (Hq0 : 0 <= q) by (subst q; apply Z.div_pos; lia).
  assert (Hq1 : 0 <= (n_suffixes + SPW - 1) / SPW) by (apply Z.div_pos; lia).
  assert (Hspw32 : SPW <= 2 ^ 32) by lia.
  unfold PackedHostBWTHandler.process. rewrite power_of_two.
  rewrite land_mask by lia. fold wo q.
  rewrite (u32_small wo) by lia.
  destruct (Z.eqb_spec wo 0) as [Hz | _]; [contradiction |].
  rewrite (u32_small q), (u32_small (SPW - wo)), (u32_small (q + 1)) by lia.
  set (word := PackedHostBWTHandler.fill_word SYMBOL_SIZE BIG_ENDIAN WORD_SIZE
                 (Z.to_nat (SPW - wo)) 0 wo h_bwt
                 (PackedHostBWTHandler.words h q)).
  assert (Hceil : (n_suffixes - (SPW - wo) + SPW - 1) / SPW
                  <= (n_suffixes + SPW - 1) / SPW)
    by (apply Z.div_le_mono; lia).
  destruct (encode_words_spec h_bwt n_suffixes fuel (SPW - wo) (q + 1)
              (fun w => if w =? q then word
                        else PackedHostBWTHandler.words h w))
    as (stream' & Hrun & Hget & Hframe); try lia.
  { assert (Hmono : (n_suffixes - (SPW - wo)) / SPW <= n_suffixes / SPW)
      by (apply Z.div_le_mono; lia).
    lia. }
  { intros p Hp'. apply Hsym. lia. }
  rewrite Hrun. eexists. split; [reflexivity |].
  cbn [PackedHostBWTHandler.offset PackedHostBWTHandler.words].
  split; [reflexivity |]. split; [| split].
  - intros p Hp'. unfold PackedHostBWTHandler.get. rewrite power_of_two.
    replace (PackedHostBWTHandler.offset h + p) with (wo + p + q * SPW) by lia.
    rewrite Z.div_add, Z.mod_add by lia.
    rewrite Z.div_small, Z.mod_small, Z.add_0_l by lia.
    rewrite Hframe by lia. rewrite Z.eqb_refl.
    subst word. rewrite fill_word_slot; try lia.
    + replace ((wo + 0 <=? wo + p)
               && (wo + p <? wo + 0 + Z.of_nat (Z.to_nat (SPW - wo))))
        with true by zbool.
      do 2 f_equal. lia.
    + intros x Hx. apply Hsym. lia.
  - intros p Hp'. unfold PackedHostBWTHandler.get. rewrite power_of_two.
    specialize (Hget p ltac:(lia)).
    replace (PackedHostBWTHandler.offset h + SPW + p)
      with (p - (SPW - wo) + (q + 2) * SPW) by lia.
    rewrite Z.div_add, Z.mod_add by lia.
    replace ((p - (SPW - wo)) / SPW + (q + 2))
      with (q + 1 + 1 + (p - (SPW - wo)) / SPW) by lia.
    exact Hget.
  - rewrite Hframe by lia.
    destruct (Z.eqb_spec (q + 1) q); [lia | reflexivity].
Qed.

End PackedFacts.

(** X15. A batch that the packed [HostBWTHandler] receives at an offset
    that is a multiple of [SYMBOLS_PER_WORD], as the first batch of a
    handler is, is written one word late: its words go to
    [words[++word_idx]], so that symbol [p] of the batch is read back at
    position [offset + SYMBOLS_PER_WORD + p] of the packed string, and
    the word at [offset / SYMBOLS_PER_WORD], where the batch begins,
    keeps what it held. The symbols are below [2^SYMBOL_SIZE]. *)
Theorem packed_handler_aligned_batch
    (SYMBOL_SIZE : Z) (BIG_ENDIAN : bool) (WORD_SIZE k : Z) (fuel : nat)
    (h : PackedHostBWTHandler.t) (n_suffixes : Z) (h_bwt : Z -> Z) :
  0 < SYMBOL_SIZE -> 0 <= WORD_SIZE < 2 ^ 32 -> 0 <= k < 32 ->
  PackedHostBWTHandler.SYMBOLS_PER_WORD SYMBOL_SIZE WORD_SIZE = 2 ^ k ->
  0 <= PackedHostBWTHandler.offset h ->
  PackedHostBWTHandler.offset h mod 2 ^ k = 0 ->
  0 <= n_suffixes -> n_suffixes + 2 ^ k <= 2 ^ 32 ->
  PackedHostBWTHandler.offset h / 2 ^ k + (n_suffixes + 2 ^ k - 1) / 2 ^ k
    < 2 ^ 32 ->
  n_suffixes / 2 ^ k + 1 <= Z.of_nat fuel ->
  (forall p, 0 <= p < n_suffixes -> 0 <= h_bwt p < 2 ^ SYMBOL_SIZE) ->
  exists h',
    PackedHostBWTHandler.process SYMBOL_SIZE BIG_ENDIAN WORD_SIZE fuel h
      n_suffixes h_bwt = Some h'
    /\ PackedHostBWTHandler.offset h'
       = u64 (PackedHostBWTHandler.offset h + n_suffixes)
    /\ (forall p, 0 <= p < n_suffixes ->
          PackedHostBWTHandler.get SYMBOL_SIZE BIG_ENDIAN WORD_SIZE
            (PackedHostBWTHandler.words h')
            (PackedHostBWTHandler.offset h + 2 ^ k + p)
          = h_bwt p)
    /\ (forall w, w <= PackedHostBWTHandler.offset h / 2 ^ k
                  \/ PackedHostBWTHandler.offset h / 2 ^ k
                     + (n_suffixes + 2 ^ k - 1) / 2 ^ k < w ->
          PackedHostBWTHandler.words h' w = PackedHostBWTHandler.words h w).
Proof.
  intros HS HW Hk Hspw. now apply process_aligned.
Qed.

Lemma packed_handler_aligned_batch_witness :
  (0 < 2 /\ 0 <= 32 < 2 ^ 32 /\ 0 <= 4 < 32
   /\ PackedHostBWTHandler.SYMBOLS_PER_WORD 2 32 = 2 ^ 4
   /\ 0 <= PackedHostBWTHandler.offset (PackedHostBWTHandler.new (fun _ => 0))
   /\ PackedHostBWTHandler.offset (PackedHostBWTHandler.new (fun _ => 0))
      mod 2 ^ 4 = 0
   /\ 0 <= size [1; 2; 3; 0] /\ size [1; 2; 3; 0] + 2 ^ 4 <= 2 ^ 32
   /\ PackedHostBWTHandler.offset (PackedHostBWTHandler.new (fun _ => 0)) / 2 ^ 4
      + (size [1; 2; 3; 0] + 2 ^ 4 - 1) / 2 ^ 4 < 2 ^ 32
   /\ size [1; 2; 3; 0] / 2 ^ 4 + 1 <= Z.of_nat 2
   /\ (forall p, 0 <= p < size [1; 2; 3; 0] ->
         0 <= vector_at [1; 2; 3; 0] p < 2 ^ 2))
  /\ exists h',
       PackedHostBWTHandler.process 2 false 32 2
         (PackedHostBWTHandler.new (fun _ => 0)) (size [1; 2; 3; 0])
         (vector_at [1; 2; 3; 0]) = Some h'
       /\ PackedHostBWTHandler.offset h'
          = u64 (PackedHostBWTHandler.offset
                   (PackedHostBWTHandler.new (fun _ => 0))
                 + size [1; 2; 3; 0])
       /\ (forall p, 0 <= p < size [1; 2; 3; 0] ->
             PackedHostBWTHandler.get 2 false 32
               (PackedHostBWTHandler.words h')
               (PackedHostBWTHandler.offset
                  (PackedHostBWTHandler.new (fun _ => 0)) + 2 ^ 4 + p)
             = vector_at [1; 2; 3; 0] p)
       /\ (forall w, w <= PackedHostBWTHandler.offset
                            (PackedHostBWTHandler.new (fun _ => 0)) / 2 ^ 4
                     \/ PackedHostBWTHandler.offset
                          (PackedHostBWTHandler.new (fun _ => 0)) / 2 ^ 4
                        + (size [1; 2; 3; 0] + 2 ^ 4 - 1) / 2 ^ 4 < w ->
             PackedHostBWTHandler.words h' w
             = PackedHostBWTHandler.words
                 (PackedHostBWTHandler.new (fun _ => 0)) w).
Proof.
  assert (H : 0 < 2 /\ 0 <= 32 < 2 ^ 32 /\ 0 <= 4 < 32
     /\ PackedHostBWTHandler.SYMBOLS_PER_WORD 2 32 = 2 ^ 4
     /\ 0 <= PackedHostBWTHandler.offset (PackedHostBWTHandler.new (fun _ => 0))
     /\ PackedHostBWTHandler.offset (PackedHostBWTHandler.new (fun _ => 0))
        mod 2 ^ 4 = 0
     /\ 0 <= size [1; 2; 3; 0] /\ size [1; 2; 3; 0] + 2 ^ 4 <= 2 ^ 32
     /\ PackedHostBWTHandler.offset (PackedHostBWTHandler.new (fun _ => 0))
        / 2 ^ 4
        + (size [1; 2; 3; 0] + 2 ^ 4 - 1) / 2 ^ 4 < 2 ^ 32
     /\ size [1; 2; 3; 0] / 2 ^ 4 + 1 <= Z.of_nat 2
     /\ (forall p, 0 <= p < size [1; 2; 3; 0] ->
           0 <= vector_at [1; 2; 3; 0] p < 2 ^ 2)).
  { repeat match goal with |- _ /\ _ => split end;
      try (vm_compute; congruence).
    intros p Hp; by_cases p Hp; vm_compute; split; congruence. }
  split; [exact H |].
  destruct H as (H1 & H2 & H3 & H4 & H5 & H6 & H7 & H8 & H9 & H10 & H11).
  exact (packed_handler_aligned_batch 2 false 32 4 2
           (PackedHostBWTHandler.new (fun _ => 0)) (size [1; 2; 3; 0])
           (vector_at [1; 2; 3; 0]) H1 H2 H3 H4 H5 H6 H7 H8 H9 H10 H11).
Defined.

(** The first batch of a handler on a cleared string of 8-bit words,
    2 bits to a symbol: word 0 stays empty and the four symbols are in
    word 1. *)
Example packed_first_batch :
  match PackedHostBWTHandler.process 2 false 8 2
          (PackedHostBWTHandler.new (fun _ => 0)) 4 (vector_at [1; 2; 3; 0]) with
  | Some h' => map (PackedHostBWTHandler.words h') [0; 1; 2]
  | None => []
  end = [0; 57; 0].
Proof. vm_compute. reflexivity. Qed.

(** X16. A batch that the packed [HostBWTHandler] receives at an offset
    that is not a multiple of [SYMBOLS_PER_WORD]: the
    [SYMBOLS_PER_WORD - offset % SYMBOLS_PER_WORD] symbols that complete
    the current word are or-ed into it at their positions, whether the
    batch holds that many symbols or not; the symbols after them skip
    the next word, which keeps what it held, and are read back one word
    late, at position [offset + SYMBOLS_PER_WORD + p]. *)
Theorem packed_handler_unaligned_batch
    (SYMBOL_SIZE : Z) (BIG_ENDIAN : bool) (WORD_SIZE k : Z) (fuel : nat)
    (h : PackedHostBWTHandler.t) (n_suffixes : Z) (h_bwt : Z -> Z) :
  let word_offset := PackedHostBWTHandler.offset h mod 2 ^ k in
  let word_rem := 2 ^ k - word_offset in
  0 < SYMBOL_SIZE -> 0 <= WORD_SIZE < 2 ^ 32 -> 0 <= k < 32 ->
  PackedHostBWTHandler.SYMBOLS_PER_WORD SYMBOL_SIZE WORD_SIZE = 2 ^ k ->
  0 <= PackedHostBWTHandler.offset h ->
  word_offset <> 0 ->
  0 <= n_suffixes -> n_suffixes + 2 ^ k <= 2 ^ 32 ->
  PackedHostBWTHandler.offset h / 2 ^ k + 1 + (n_suffixes + 2 ^ k - 1) / 2 ^ k
    < 2 ^ 32 ->
  n_suffixes / 2 ^ k + 1 <= Z.of_nat fuel ->
  (forall p, 0 <= p < Z.max n_suffixes word_rem ->
     0 <= h_bwt p < 2 ^ SYMBOL_SIZE) ->
  exists h',
    PackedHostBWTHandler.process SYMBOL_SIZE BIG_ENDIAN WORD_SIZE fuel h
      n_suffixes h_bwt = Some h'
    /\ PackedHostBWTHandler.offset h'
       = u64 (PackedHostBWTHandler.offset h + n_suffixes)
    /\ (forall p, 0 <= p < word_rem ->
          PackedHostBWTHandler.get SYMBOL_SIZE BIG_ENDIAN WORD_SIZE
            (PackedHostBWTHandler.words h')
            (PackedHostBWTHandler.offset h + p)
          = Z.lor (PackedHostBWTHandler.get SYMBOL_SIZE BIG_ENDIAN WORD_SIZE
                     (PackedHostBWTHandler.words h)
                     (PackedHostBWTHandler.offset h + p))
                  (h_bwt p))
    /\ (forall p, word_rem <= p < n_suffixes ->
          PackedHostBWTHandler.get SYMBOL_SIZE BIG_ENDIAN WORD_SIZE
            (PackedHostBWTHandler.words h')
            (PackedHostBWTHandler.offset h + 2 ^ k + p)
          = h_bwt p)
    /\ PackedHostBWTHandler.words h' (PackedHostBWTHandler.offset h / 2 ^ k + 1)
       = PackedHostBWTHandler.words h (PackedHostBWTHandler.offset h / 2 ^ k + 1).
Proof.
  cbv zeta. intros HS HW Hk Hspw.
  exact (process_unaligned SYMBOL_SIZE BIG_ENDIAN WORD_SIZE k HS HW Hk Hspw
           fuel h n_suffixes h_bwt).
Qed.

(** Two batches, [1; 2] and then [3; 1; 2; 3], on a cleared string of
    8-bit words, 2 bits to a symbol: the string reads
    [0 0 3 1 | 1 2 0 0 | 2 3 0 0]. *)
Example packed_two_batches :
  match PackedHostBWTHandler.process 2 false 8 2
          (PackedHostBWTHandler.new (fun _ => 0)) 2 (vector_at [1; 2]) with
  | Some h1 =>
      match PackedHostBWTHandler.process 2 false 8 2 h1 4
              (vector_at [3; 1; 2; 3]) with
      | Some h2 =>
          map (PackedHostBWTHandler.get 2 false 8 (PackedHostBWTHandler.words h2))
              [0; 1; 2; 3; 4; 5; 6; 7; 8; 9; 10; 11]
      | None => []
      end
  | None => []
  end = [0; 0; 3; 1; 1; 2; 0; 0; 2; 3; 0; 0].
Proof. vm_compute. reflexivity. Qed.

Lemma packed_handler_unaligned_batch_witness :
  (0 < 2 /\ 0 <= 8 < 2 ^ 32 /\ 0 <= 2 < 32
   /\ PackedHostBWTHandler.SYMBOLS_PER_WORD 2 8 = 2 ^ 2
   /\ 0 <= PackedHostBWTHandler.offset (PackedHostBWTHandler.mk (fun _ => 0) 2)
   /\ PackedHostBWTHandler.offset (PackedHostBWTHandler.mk (fun _ => 0) 2)
      mod 2 ^ 2 <> 0
   /\ 0 <= size [3; 1; 2; 3] /\ size [3; 1; 2; 3] + 2 ^ 2 <= 2 ^ 32
   /\ PackedHostBWTHandler.offset (PackedHostBWTHandler.mk (fun _ => 0) 2) / 2 ^ 2
      + 1 + (size [3; 1; 2; 3] + 2 ^ 2 - 1) / 2 ^ 2 < 2 ^ 32
   /\ size [3; 1; 2; 3] / 2 ^ 2 + 1 <= Z.of_nat 2
   /\ (forall p,
         0 <= p < Z.max (size [3; 1; 2; 3])
                    (2 ^ 2 - PackedHostBWTHandler.offset
                               (PackedHostBWTHandler.mk (fun _ => 0) 2)
                             mod 2 ^ 2) ->
         0 <= vector_at [3; 1; 2; 3] p < 2 ^ 2))
  /\ exists h',
       PackedHostBWTHandler.process 2 false 8 2
         (PackedHostBWTHandler.mk (fun _ => 0) 2) (size [3; 1; 2; 3])
         (vector_at [3; 1; 2; 3]) = Some h'
       /\ PackedHostBWTHandler.offset h'
          = u64 (PackedHostBWTHandler.offset
                   (PackedHostBWTHandler.mk (fun _ => 0) 2)
                 + size [3; 1; 2; 3])
       /\ (forall p,
             0 <= p < 2 ^ 2 - PackedHostBWTHandler.offset
                                (PackedHostBWTHandler.mk (fun _ => 0) 2)
                              mod 2 ^ 2 ->
             PackedHostBWTHandler.get 2 false 8 (PackedHostBWTHandler.words h')
               (PackedHostBWTHandler.offset
                  (PackedHostBWTHandler.mk (fun _ => 0) 2) + p)
             = Z.lor (PackedHostBWTHandler.get 2 false 8
                        (PackedHostBWTHandler.words
                           (PackedHostBWTHandler.mk (fun _ => 0) 2))
                        (PackedHostBWTHandler.offset
                           (PackedHostBWTHandler.mk (fun _ => 0) 2) + p))
                     (vector_at [3; 1; 2; 3] p))
       /\ (forall p,
             2 ^ 2 - PackedHostBWTHandler.offset
                       (PackedHostBWTHandler.mk (fun _ => 0) 2) mod 2 ^ 2
             <= p < size [3; 1; 2; 3] ->
             PackedHostBWTHandler.get 2 false 8 (PackedHostBWTHandler.words h')
               (PackedHostBWTHandler.offset
                  (PackedHostBWTHandler.mk (fun _ => 0) 2) + 2 ^ 2 + p)
             = vector_at [3; 1; 2; 3] p)
       /\ PackedHostBWTHandler.words h'
            (PackedHostBWTHandler.offset
               (PackedHostBWTHandler.mk (fun _ => 0) 2) / 2 ^ 2 + 1)
          = PackedHostBWTHandler.words (PackedHostBWTHandler.mk (fun _ => 0) 2)
              (PackedHostBWTHandler.offset
                 (PackedHostBWTHandler.mk (fun _ => 0) 2) / 2 ^ 2 + 1).
Proof.
  assert (H : 0 < 2 /\ 0 <= 8 < 2 ^ 32 /\ 0 <= 2 < 32
     /\ PackedHostBWTHandler.SYMBOLS_PER_WORD 2 8 = 2 ^ 2
     /\ 0 <= PackedHostBWTHandler.offset (PackedHostBWTHandler.mk (fun _ => 0) 2)
     /\ PackedHostBWTHandler.offset (PackedHostBWTHandler.mk (fun _ => 0) 2)
        mod 2 ^ 2 <> 0
     /\ 0 <= size [3; 1; 2; 3] /\ size [3; 1; 2; 3] + 2 ^ 2 <= 2 ^ 32
     /\ PackedHostBWTHandler.offset (PackedHostBWTHandler.mk (fun _ => 0) 2)
        / 2 ^ 2
        + 1 + (size [3; 1; 2; 3] + 2 ^ 2 - 1) / 2 ^ 2 < 2 ^ 32
     /\ size [3; 1; 2; 3] / 2 ^ 2 + 1 <= Z.of_nat 2
     /\ (forall p,
           0 <= p < Z.max (size [3; 1; 2; 3])
                      (2 ^ 2 - PackedHostBWTHandler.offset
                                 (PackedHostBWTHandler.mk (fun _ => 0) 2)
                               mod 2 ^ 2) ->
           0 <= vector_at [3; 1; 2; 3] p < 2 ^ 2)).
  { repeat match goal with |- _ /\ _ => split end;
      try (vm_compute; congruence).
    intros p Hp.
    change (Z.max _ _) with (size [3; 1; 2; 3]) in Hp.
    by_cases p Hp; vm_compute; split; congruence. }
  split; [exact H |].
  destruct H as (H1 & H2 & H3 & H4 & H5 & H6 & H7 & H8 & H9 & H10 & H11).
  exact (packed_handler_unaligned_batch 2 false 8 2 2
           (PackedHostBWTHandler.mk (fun _ => 0) 2) (size [3; 1; 2; 3])
           (vector_at [3; 1; 2; 3]) H1 H2 H3 H4 H5 H6 H7 H8 H9 H10 H11).
Defined.

(** ** The table of [build_subbuckets] and the blocks of [enact] *)

Lemma block_points_ext tbl tbl' hi hi' e :
  hi <= hi' ->
  (forall j, 0 <= j < hi -> at_ tbl' j = at_ tbl j) ->
  block_points tbl hi e -> block_points tbl' hi' e.
Proof.
  intros Hhi Hext. destruct e as [? ? ? | b ? ? | b e' ? ?];
    cbn [block_points]; [trivial | |].
  - intros (Hb & Hp). split; [lia |]. rewrite Hext by lia. exact Hp.
  - intros (Hb & He & Hp). split; [lia |]. split; [lia |].
    intros k Hk. rewrite Hext by lia. now apply Hp.
Qed.

(** [build_subbuckets] writes at or after the sub-bucket it is at. *)
Lemma build_subbuckets_block_frame h mask B fuel e : forall sb tbl tbl',
  0 <= sb -> e <= size tbl ->
  build_subbuckets_block h mask B fuel e sb tbl = Returned tbl' ->
  size tbl' = size tbl
  /\ forall j, 0 <= j < sb -> at_ tbl' j = at_ tbl j.
Proof.
  induction fuel as [| fuel IH]; intros sb tbl tbl' Hsb He;
    cbn [build_subbuckets_block].
  - destruct (sb <? e); [discriminate |]. intros R. inversion R. auto.
  - destruct (Z.ltb_spec sb e) as [Hlt | Hge];
      [| intros R; inversion R; auto].
    destruct (at_ h sb >? B).
    + destruct (not_short_string mask sb); [discriminate |].
      intros R. apply IH in R; [| lia | rewrite size_set_at; lia].
      destruct R as (R1 & R2). rewrite size_set_at in R1.
      split; [exact R1 |]. intros j Hj. rewrite R2 by lia.
      apply at_set_at_ne; lia.
    + pose proof (point_subbuckets_end h B e sb (Z.to_nat (e - sb)) sb 0 tbl)
        as Hend.
      pose proof (point_subbuckets_table h B e sb (Z.to_nat (e - sb)) sb 0 tbl
                    Hsb He) as Htab.
      pose proof (grow_block_bounds h B e (Z.to_nat (e - sb)) sb 0) as Hbd.
      cbv zeta in Htab. rewrite <- Hend in Hbd.
      destruct (point_subbuckets h B e sb _ sb 0 tbl) as [se tbl1].
      cbn [fst snd] in Htab, Hbd. destruct Htab as (T1 & _ & T3).
      intros R. apply IH in R; [| lia | lia].
      destruct R as (R1 & R2). split; [lia |].
      intros j Hj. rewrite R2 by lia. apply T3; lia.
Qed.

Lemma build_subbuckets_loop_frame h mask B max_super fuel : forall b tbl tbl',
  0 <= b -> size tbl = size h ->
  build_subbuckets_loop h mask B max_super fuel b tbl = Returned tbl' ->
  size tbl' = size tbl
  /\ forall j, 0 <= j < b -> at_ tbl' j = at_ tbl j.
Proof.
  induction fuel as [| fuel IH]; intros b tbl tbl' Hb Hsz;
    cbn [build_subbuckets_loop].
  - destruct (b <? size h); [discriminate |]. intros R. inversion R. auto.
  - destruct (Z.ltb_spec b (size h)) as [Hlt | Hge];
      [| intros R; inversion R; auto].
    pose proof (grow_block_bounds h max_super (size h)
                  (Z.to_nat (size h - b)) b 0) as Hbd.
    unfold grow_super_block.
    destruct (grow_block h max_super (size h) _ b 0) as [e s].
    cbn [fst] in Hbd.
    destruct (e =? b); [discriminate |].
    destruct (build_subbuckets_block h mask B (length h) e b tbl)
      as [tbl1 | |] eqn:E1; try discriminate.
    apply build_subbuckets_block_frame in E1; [| lia | lia].
    destruct E1 as (B1 & B2).
    intros R. apply IH in R; [| lia | lia].
    destruct R as (R1 & R2). split; [lia |].
    intros j Hj. rewrite R2 by lia. apply B2. lia.
Qed.

(** The blocks of a bucket that is emitted directly name that bucket. *)
Lemma direct_emit_loop_bucket B fuel bucket subbucket_size suffix_count :
  forall block_begin,
  emits (fun e => exists offset n, e = DirectBlock bucket offset n)
        (fun _ => False)
        (direct_emit_loop B fuel bucket subbucket_size suffix_count block_begin).
Proof.
  induction fuel as [| fuel IH]; intros block_begin; cbn [direct_emit_loop].
  - destruct (block_begin <? subbucket_size);
      [apply emits_out_of_fuel | apply emits_ret].
  - destruct (block_begin <? subbucket_size); [| apply emits_ret].
    apply emits_bind; [| intros _; apply IH].
    apply emits_process. eauto.
Qed.

(** One super-block: the table and the blocks are built from the same
    runs of buckets. *)
Lemma sort_subbuckets_points h mask B e fuel1 :
  forall fuel2 sb tbl tbl' sc snk r snk',
  0 <= sb -> e <= size tbl ->
  build_subbuckets_block h mask B fuel1 e sb tbl = Returned tbl' ->
  sort_subbuckets h mask B fuel2 e sb sc snk = (Returned r, snk') ->
  exists evs, snk' = snk ++ evs /\ Forall (block_points tbl' e) evs.
Proof.
  induction fuel1 as [| fuel1 IH];
    intros fuel2 sb tbl tbl' sc snk r snk' Hsb He;
    cbn [build_subbuckets_block].
  - destruct (Z.ltb_spec sb e) as [Hlt | Hge]; [discriminate |].
    intros _. destruct fuel2; cbn [sort_subbuckets];
      (destruct (Z.ltb_spec sb e); [lia |]);
      unfold ret; intros R; inversion R; subst;
      exists []; rewrite app_nil_r; (split; [reflexivity | constructor]).
  - destruct (Z.ltb_spec sb e) as [Hlt | Hge].
    2:{ intros _. destruct fuel2; cbn [sort_subbuckets];
          (destruct (Z.ltb_spec sb e); [lia |]);
          unfold ret; intros R; inversion R; subst;
          exists []; rewrite app_nil_r; (split; [reflexivity | constructor]). }
    destruct fuel2 as [| fuel2]; cbn [sort_subbuckets];
      (destruct (Z.ltb_spec sb e); [| lia]); [discriminate |].
    destruct (at_ h sb >? B).
    + destruct (not_short_string mask sb); [discriminate |].
      intros Hb Hs. unfold bind in Hs.
      destruct (direct_emit_loop_bucket B (S fuel2) sb (at_ h sb) sc 0 snk)
        as (evs1 & Hs1 & Hall1 & _).
      destruct (direct_emit_loop B (S fuel2) sb (at_ h sb) sc 0 snk)
        as [[[] | err |] s1]; try discriminate.
      cbn [snd] in Hs1. subst s1.
      pose proof (build_subbuckets_block_frame h mask B fuel1 e (sb + 1)
                    (set_at tbl sb sb) tbl'
                    ltac:(lia) ltac:(rewrite size_set_at; lia) Hb)
        as (F1 & F2).
      destruct (IH fuel2 (sb + 1) (set_at tbl sb sb) tbl' _ _ r snk'
                   ltac:(lia) ltac:(rewrite size_set_at; lia) Hb Hs)
        as (evs2 & -> & Hall2).
      exists (evs1 ++ evs2). split; [now rewrite app_assoc |].
      apply Forall_app. split; [| exact Hall2].
      eapply Forall_impl; [| exact Hall1]. cbv beta.
      intros ev (o & n & ->). cbn [block_points]. split; [lia |].
      rewrite F2 by lia. apply at_set_at_eq. lia.
    + pose proof (point_subbuckets_end h B e sb (Z.to_nat (e - sb)) sb 0 tbl)
        as Hend.
      pose proof (point_subbuckets_table h B e sb (Z.to_nat (e - sb)) sb 0 tbl
                    Hsb He) as Htab.
      pose proof (grow_block_bounds h B e (Z.to_nat (e - sb)) sb 0) as Hbd.
      cbv zeta in Htab.
      destruct (point_subbuckets h B e sb _ sb 0 tbl) as [se tbl1].
      destruct (grow_block h B e _ sb 0) as [se' ssz].
      cbn [fst snd] in Hend, Htab, Hbd. subst se'.
      destruct Htab as (T1 & T2 & T3).
      intros Hb Hs.
      pose proof (build_subbuckets_block_frame h mask B fuel1 e se tbl1 tbl'
                    ltac:(lia) ltac:(lia) Hb) as (F1 & F2).
      destruct (ssz =? 0).
      * destruct (IH fuel2 se tbl1 tbl' sc snk r snk' ltac:(lia) ltac:(lia) Hb Hs)
          as (evs2 & -> & Hall2).
        exists evs2. split; [reflexivity | exact Hall2].
      * unfold bind, process in Hs.
        destruct (IH fuel2 se tbl1 tbl' _ _ r snk' ltac:(lia) ltac:(lia) Hb Hs)
          as (evs2 & -> & Hall2).
        exists (SortedBlock sb se sc ssz :: evs2).
        split; [now rewrite <- app_assoc |].
        constructor; [| exact Hall2].
        cbn [block_points]. split; [lia |]. split; [lia |].
        intros k Hk. rewrite F2 by lia. apply T2. lia.
Qed.

Lemma super_block_loop_points h mask B max_super fuel1 :
  forall fuel2 b tbl tbl' offset snk snk',
  0 <= b -> size tbl = size h ->
  build_subbuckets_loop h mask B max_super fuel1 b tbl = Returned tbl' ->
  super_block_loop h mask B max_super fuel2 b offset snk = (Returned tt, snk') ->
  exists evs, snk' = snk ++ evs /\ Forall (block_points tbl' (size h)) evs.
Proof.
  induction fuel1 as [| fuel1 IH];
    intros fuel2 b tbl tbl' offset snk snk' Hb Hsz;
    cbn [build_subbuckets_loop].
  - destruct (Z.ltb_spec b (size h)) as [Hlt | Hge]; [discriminate |].
    intros _. destruct fuel2; cbn [super_block_loop];
      (destruct (Z.ltb_spec b (size h)); [lia |]);
      unfold ret; intros R; inversion R; subst;
      exists []; rewrite app_nil_r; (split; [reflexivity | constructor]).
  - destruct (Z.ltb_spec b (size h)) as [Hlt | Hge].
    2:{ intros _. destruct fuel2; cbn [super_block_loop];
          (destruct (Z.ltb_spec b (size h)); [lia |]);
          unfold ret; intros R; inversion R; subst;
          exists []; rewrite app_nil_r; (split; [reflexivity | constructor]). }
    destruct fuel2 as [| fuel2]; cbn [super_block_loop];
      (destruct (Z.ltb_spec b (size h)); [| lia]); [discriminate |].
    pose proof (grow_block_bounds h max_super (size h)
                  (Z.to_nat (size h - b)) b 0) as Hbd.
    unfold grow_super_block.
    destruct (grow_block h max_super (size h) _ b 0) as [e s].
    cbn [fst] in Hbd.
    destruct (e =? b); [discriminate |].
    destruct (build_subbuckets_block h mask B (length h) e b tbl)
      as [tbl1 | |] eqn:E1; try discriminate.
    intros Hbuild Hloop. unfold bind in Hloop.
    destruct (sort_subbuckets h mask B (S fuel2) e b 0 snk)
      as [[sc | err |] s1] eqn:E2; try discriminate.
    destruct (sort_subbuckets_points h mask B e (length h) (S fuel2) b tbl tbl1
                0 snk sc s1 Hb ltac:(lia) E1 E2) as (evs1 & -> & Hall1).
    pose proof (build_subbuckets_block_frame h mask B (length h) e b tbl tbl1
                  Hb ltac:(lia) E1) as (F1 & _).
    pose proof (build_subbuckets_loop_frame h mask B max_super fuel1 e tbl1 tbl'
                  ltac:(lia) ltac:(lia) Hbuild) as (_ & G2).
    destruct (IH fuel2 e tbl1 tbl' _ _ snk' ltac:(lia) ltac:(lia) Hbuild Hloop)
      as (evs2 & -> & Hall2).
    exists (evs1 ++ evs2). split; [now rewrite app_assoc |].
    apply Forall_app. split; [| exact Hall2].
    eapply Forall_impl; [| exact Hall1].
    intros ev. apply block_points_ext; [lia | exact G2].
Qed.

(** X17. The table that [build_subbuckets] leaves for the collection of
    the suffixes and the blocks that the sorting loop of [enact] forms
    come from the same runs of buckets: whenever the two are run on the
    same histogram with the same block sizes, all the buckets of a block
    that is sorted point to the first bucket of the block, and the bucket
    of a block that is emitted without sorting points to itself. *)
Theorem subbucket_table_matches_blocks (h_buckets : list Z)
    (mask max_block_size max_super_block_size : Z)
    (h_subbuckets table : list Z) (fuel : nat) (snk snk' : sink) :
  size h_subbuckets = size h_buckets ->
  build_subbuckets h_buckets mask max_block_size max_super_block_size
                   h_subbuckets = Returned table ->
  super_block_loop h_buckets mask max_block_size max_super_block_size
                   fuel 0 0 snk = (Returned tt, snk') ->
  exists blocks,
    snk' = snk ++ blocks
    /\ Forall (block_points table (size h_buckets)) blocks.
Proof.
  intros Hsz Hbuild Hloop.
  exact (super_block_loop_points h_buckets mask max_block_size
           max_super_block_size (length h_buckets) fuel 0 h_subbuckets table
           0 snk snk' ltac:(lia) Hsz Hbuild Hloop).
Qed.

Lemma subbucket_table_matches_blocks_witness :
  (size [0; 0; 0; 0] = size [9; 3; 0; 2]
   /\ build_subbuckets [9; 3; 0; 2] 1 4 10 [0; 0; 0; 0] = Returned [0; 1; 1; 3]
   /\ super_block_loop [9; 3; 0; 2] 1 4 10 10 0 0 []
      = (Returned tt,
         [DirectBlock 0 0 4; DirectBlock 0 4 4; DirectBlock 0 8 1;
          SortedBlock 1 3 0 3; SortedBlock 3 4 3 2]))
  /\ exists blocks,
       [DirectBlock 0 0 4; DirectBlock 0 4 4; DirectBlock 0 8 1;
        SortedBlock 1 3 0 3; SortedBlock 3 4 3 2] = [] ++ blocks
       /\ Forall (block_points [0; 1; 1; 3] (size [9; 3; 0; 2])) blocks.
Proof.
  assert (H : size [0; 0; 0; 0] = size [9; 3; 0; 2]
     /\ build_subbuckets [9; 3; 0; 2] 1 4 10 [0; 0; 0; 0]
        = Returned [0; 1; 1; 3]
     /\ super_block_loop [9; 3; 0; 2] 1 4 10 10 0 0 []
        = (Returned tt,
           [DirectBlock 0 0 4; DirectBlock 0 4 4; DirectBlock 0 8 1;
            SortedBlock 1 3 0 3; SortedBlock 3 4 3 2])).
  { repeat split; vm_compute; reflexivity. }
  split; [exact H |].
  destruct H as (H1 & H2 & H3).
  exact (subbucket_table_matches_blocks [9; 3; 0; 2] 1 4 10 [0; 0; 0; 0]
           [0; 1; 1; 3] 10 [] _ H1 H2 H3).
Defined.

